(** * Finch environments: the generation loop and its composition strategies

    A shallow embedding of [environments.py].  Python objects live in a
    store: list objects (populations and fitness histories) and environment
    objects are addressed by references, so that the aliasing the source
    creates ([env.individuals = self.individuals],
    [new.history = self.current_environment.history]) is visible in the
    model.  Methods are computations in a state-and-exception monad over
    that store.

    Conventions of the model:
    - fitness values are integers, a total order as the specification
      requires of them;
    - an object (a candidate, an environment, a callable) is true in a
      condition, [None] is false;
    - the sub-environments of a composite are instances of [Environment]
      or [Sequential]: the calls [env.evolve] and [environment.compile]
      made by a composite go to the methods of the base class;
    - line numbers refer to [environments.py]. *)

From stdpp Require Import gmap strings list fin_maps.

Open Scope Z_scope.

(** ** Data model *)

(** Modelled from the spec: the Candidate contract.  The class
    [Individual] of [Finch.genetics.population] is not part of the sources
    at hand.  A candidate is opaque except for a comparable fitness and a
    [copy] that yields an independent clone.  It has the default truthiness
    of a Python object, it is neither iterable nor subscriptable. *)
Record Individual := { genes : list Z; fitness : Z }.

Definition copy (i : Individual) : Individual :=
  {| genes := genes i; fitness := fitness i |}.

(** References into the store. *)
Definition ref := nat.

(** The exceptions that the modelled code can raise.  [InvalidReference]
    marks the use of a reference that the store does not hold; it has no
    Python counterpart, since Python references never dangle. *)
Inductive Exn :=
| NoIndividualsAtEndOfRun
| TypeError
| ValueError
| IndexError
| AttributeError
| ZeroDivisionError
| OverflowError
| InvalidReference.

Inductive Outcome (A : Type) :=
| Return (a : A)
| Raise (x : Exn).
Arguments Return {A} a.
Arguments Raise {A} x.

(** What [print], [warnings.warn] and the plotting calls emit. *)
Inductive Event :=
| PrintProgress (name : string) (generation generations fitness : Z) (population : nat)
| PrintTable (results : list (string * Z * Z))
| PrintBest (name : string) (fitness : Z)
| PrintRunning (name : string) (generations : Z)
| PrintDeactivating (name : string)
| PrintSwitching (name : string) (generation : Z)
| Warn
| Plot (series : list (string * list Z)).

(** [x > -float('inf')] in [switch_environment]: the running maximum starts
    at minus infinity and is an integer afterwards. *)
Inductive Gain :=
| NegInf
| Finite (z : Z).

Definition gain_gt (x : Z) (m : Gain) : bool :=
  match m with
  | NegInf => true
  | Finite z => bool_decide (z < x)
  end.

(** A value returned by [Environment.evolve]: the bare population when the
    environment is deactivated (line 100), the pair of population and
    history otherwise (line 105). *)
Inductive EvolveResult :=
| OnlyIndividuals (individuals : ref)
| IndividualsAndHistory (individuals history : ref).

(** The state of the external collaborators (whatever the stages and
    callbacks keep between calls, the clock, the random generator) and the
    library calls that consult it.
    - [time_time] is [time.time()], in ticks of the clock.
    - [random_index] is the draw inside [random.choices(choices, weights,
      k=1)]: the position the generator selects for the given weights.
    - [layer_fitness_default] is the value that [layer.Layer.__init__]
      gives the attribute [fitness]. *)
Class External (World : Type) := {
  time_time : World -> World * Z;
  random_index : World -> list Z -> World * nat;
  layer_fitness_default : Z
}.

Section Model.

Context {World : Type} `{!External World}.

Definition FitnessFunction := Individual -> Z.

(** What a stage or a callback can read of the environment it is handed. *)
Record EnvInfo := {
  info_name : string;
  info_device : string;
  info_iteration : Z;
  info_generations : Z;
  info_verbose_every : Z;
  info_fitness_function : option FitnessFunction;
  info_history : list Z;
  info_best_ever : option Individual
}.

(** Modelled from the spec: the Stage contract.  The method
    [layer.Layer.run] is not part of the sources at hand.
    [run(population, environment)] mutates the population in place and may
    read the environment; it returns nothing.  The population it leaves
    behind and the new state of the collaborators are the result here. *)
Definition Layer := World -> EnvInfo -> list Individual -> World * list Individual.

(** Modelled from the spec: the Callback contract.  The base loop calls it
    with the population and the environment (line 120), [Adversarial.evolve]
    with the population alone (line 215): the environment is optional. *)
Definition Callback := World -> option EnvInfo -> list Individual -> World * list Individual.

(** The attributes that the subclasses add to an environment object. *)
Inductive Subclass :=
| BaseClass
| AdversarialClass (environments : list ref)
| ChronologicalClass (environments_and_generations : list (ref * option Z))
    (combined_history : ref) (best_environment : option (string * Z))
| AdaptiveClass (environments : list ref) (switch_every : Z)
    (current_environment : ref) (current_generation : Z) (go_for : Z).

(** An environment object.  [device] and [layer_fitness] are attributes of
    the base class [layer.Layer]; [layer_fitness] is the attribute that
    [smart_evolve] reads as [i.fitness]. *)
Record Environment := {
  device : string;
  layer_fitness : Z;
  fitness_function : option FitnessFunction;
  generations : Z;
  verbose_every : Z;
  callback : option Callback;
  name : string;
  layers : list Layer;
  individuals : ref;
  iteration : Z;
  history : ref;
  compiled : bool;
  deactivated : bool;
  best_ever : option Individual;
  subclass : Subclass
}.

Definition set_fitness_function v (e : Environment) : Environment :=
  {| device := device e; layer_fitness := layer_fitness e; fitness_function := v;
     generations := generations e; verbose_every := verbose_every e;
     callback := callback e; name := name e; layers := layers e;
     individuals := individuals e; iteration := iteration e; history := history e;
     compiled := compiled e; deactivated := deactivated e; best_ever := best_ever e;
     subclass := subclass e |}.

Definition set_generations v (e : Environment) : Environment :=
  {| device := device e; layer_fitness := layer_fitness e;
     fitness_function := fitness_function e;
     generations := v; verbose_every := verbose_every e;
     callback := callback e; name := name e; layers := layers e;
     individuals := individuals e; iteration := iteration e; history := history e;
     compiled := compiled e; deactivated := deactivated e; best_ever := best_ever e;
     subclass := subclass e |}.

Definition set_verbose_every v (e : Environment) : Environment :=
  {| device := device e; layer_fitness := layer_fitness e;
     fitness_function := fitness_function e;
     generations := generations e; verbose_every := v;
     callback := callback e; name := name e; layers := layers e;
     individuals := individuals e; iteration := iteration e; history := history e;
     compiled := compiled e; deactivated := deactivated e; best_ever := best_ever e;
     subclass := subclass e |}.

Definition set_callback v (e : Environment) : Environment :=
  {| device := device e; layer_fitness := layer_fitness e;
     fitness_function := fitness_function e;
     generations := generations e; verbose_every := verbose_every e;
     callback := v; name := name e; layers := layers e;
     individuals := individuals e; iteration := iteration e; history := history e;
     compiled := compiled e; deactivated := deactivated e; best_ever := best_ever e;
     subclass := subclass e |}.

Definition set_layers v (e : Environment) : Environment :=
  {| device := device e; layer_fitness := layer_fitness e;
     fitness_function := fitness_function e;
     generations := generations e; verbose_every := verbose_every e;
     callback := callback e; name := name e; layers := v;
     individuals := individuals e; iteration := iteration e; history := history e;
     compiled := compiled e; deactivated := deactivated e; best_ever := best_ever e;
     subclass := subclass e |}.

Definition set_individuals v (e : Environment) : Environment :=
  {| device := device e; layer_fitness := layer_fitness e;
     fitness_function := fitness_function e;
     generations := generations e; verbose_every := verbose_every e;
     callback := callback e; name := name e; layers := layers e;
     individuals := v; iteration := iteration e; history := history e;
     compiled := compiled e; deactivated := deactivated e; best_ever := best_ever e;
     subclass := subclass e |}.

Definition set_iteration v (e : Environment) : Environment :=
  {| device := device e; layer_fitness := layer_fitness e;
     fitness_function := fitness_function e;
     generations := generations e; verbose_every := verbose_every e;
     callback := callback e; name := name e; layers := layers e;
     individuals := individuals e; iteration := v; history := history e;
     compiled := compiled e; deactivated := deactivated e; best_ever := best_ever e;
     subclass := subclass e |}.

Definition set_history v (e : Environment) : Environment :=
  {| device := device e; layer_fitness := layer_fitness e;
     fitness_function := fitness_function e;
     generations := generations e; verbose_every := verbose_every e;
     callback := callback e; name := name e; layers := layers e;
     individuals := individuals e; iteration := iteration e; history := v;
     compiled := compiled e; deactivated := deactivated e; best_ever := best_ever e;
     subclass := subclass e |}.

Definition set_compiled v (e : Environment) : Environment :=
  {| device := device e; layer_fitness := layer_fitness e;
     fitness_function := fitness_function e;
     generations := generations e; verbose_every := verbose_every e;
     callback := callback e; name := name e; layers := layers e;
     individuals := individuals e; iteration := iteration e; history := history e;
     compiled := v; deactivated := deactivated e; best_ever := best_ever e;
     subclass := subclass e |}.

Definition set_deactivated v (e : Environment) : Environment :=
  {| device := device e; layer_fitness := layer_fitness e;
     fitness_function := fitness_function e;
     generations := generations e; verbose_every := verbose_every e;
     callback := callback e; name := name e; layers := layers e;
     individuals := individuals e; iteration := iteration e; history := history e;
     compiled := compiled e; deactivated := v; best_ever := best_ever e;
     subclass := subclass e |}.

Definition set_best_ever v (e : Environment) : Environment :=
  {| device := device e; layer_fitness := layer_fitness e;
     fitness_function := fitness_function e;
     generations := generations e; verbose_every := verbose_every e;
     callback := callback e; name := name e; layers := layers e;
     individuals := individuals e; iteration := iteration e; history := history e;
     compiled := compiled e; deactivated := deactivated e; best_ever := v;
     subclass := subclass e |}.

Definition set_subclass v (e : Environment) : Environment :=
  {| device := device e; layer_fitness := layer_fitness e;
     fitness_function := fitness_function e;
     generations := generations e; verbose_every := verbose_every e;
     callback := callback e; name := name e; layers := layers e;
     individuals := individuals e; iteration := iteration e; history := history e;
     compiled := compiled e; deactivated := deactivated e; best_ever := best_ever e;
     subclass := v |}.

(** ** The store *)

Record Heap := {
  pops : gmap ref (list Individual);
  hists : gmap ref (list Z);
  objs : gmap ref Environment;
  world : World;
  stdout : list Event
}.

Definition set_pops v (h : Heap) : Heap :=
  {| pops := v; hists := hists h; objs := objs h; world := world h; stdout := stdout h |}.
Definition set_hists v (h : Heap) : Heap :=
  {| pops := pops h; hists := v; objs := objs h; world := world h; stdout := stdout h |}.
Definition set_objs v (h : Heap) : Heap :=
  {| pops := pops h; hists := hists h; objs := v; world := world h; stdout := stdout h |}.
Definition set_world v (h : Heap) : Heap :=
  {| pops := pops h; hists := hists h; objs := objs h; world := v; stdout := stdout h |}.
Definition set_stdout v (h : Heap) : Heap :=
  {| pops := pops h; hists := hists h; objs := objs h; world := world h; stdout := v |}.

(** ** Computations: state and exceptions *)

Definition M (A : Type) : Type := Heap -> Heap * Outcome A.

Definition ret {A} (a : A) : M A := fun h => (h, Return a).

Definition raise {A} (x : Exn) : M A := fun h => (h, Raise x).

Definition bind {A B} (c : M A) (k : A -> M B) : M B :=
  fun h =>
    match c h with
    | (h', Return a) => k a h'
    | (h', Raise x) => (h', Raise x)
    end.

Notation "'let*' x ':=' c 'in' k" := (bind c (fun x => k))
  (at level 10, x pattern, c at level 100, k at level 200).
Notation "c ';;;' k" := (bind c (fun _ => k))
  (at level 100, k at level 200, right associativity).

(** [for x in l: body(x)] *)
Fixpoint for_each {A} (l : list A) (body : A -> M unit) : M unit :=
  match l with
  | [] => ret tt
  | x :: l' => body x ;;; for_each l' body
  end.

(** [range(n)] *)
Definition range (n : Z) : list Z := Z.of_nat <$> seq 0 (Z.to_nat n).

(** [self.attr] *)
Definition get_attr {A} (self : ref) (attr : Environment -> A) : M A :=
  fun h =>
    match objs h !! self with
    | Some e => (h, Return (attr e))
    | None => (h, Raise InvalidReference)
    end.

(** [self.attr = v] *)
Definition set_attr (self : ref) (assign : Environment -> Environment) : M unit :=
  fun h =>
    match objs h !! self with
    | Some e => (set_objs (<[self := assign e]> (objs h)) h, Return tt)
    | None => (h, Raise InvalidReference)
    end.

Definition read_pop (r : ref) : M (list Individual) :=
  fun h => (h, Return (pops h !!! r)).

Definition write_pop (r : ref) (l : list Individual) : M unit :=
  fun h => (set_pops (<[r := l]> (pops h)) h, Return tt).

Definition read_hist (r : ref) : M (list Z) :=
  fun h => (h, Return (hists h !!! r)).

Definition write_hist (r : ref) (l : list Z) : M unit :=
  fun h => (set_hists (<[r := l]> (hists h)) h, Return tt).

(** A fresh list object, as the literal [[]] creates. *)
Definition new_pop (l : list Individual) : M ref :=
  fun h => let r := fresh (dom (pops h)) in
           (set_pops (<[r := l]> (pops h)) h, Return r).

Definition new_hist (l : list Z) : M ref :=
  fun h => let r := fresh (dom (hists h)) in
           (set_hists (<[r := l]> (hists h)) h, Return r).

Definition new_obj (e : Environment) : M ref :=
  fun h => let r := fresh (dom (objs h)) in
           (set_objs (<[r := e]> (objs h)) h, Return r).

Definition print (ev : Event) : M unit :=
  fun h => (set_stdout (stdout h ++ [ev]) h, Return tt).

(** [l[-1]] *)
Definition last_item {A} (l : list A) : M A :=
  match last l with
  | Some x => ret x
  | None => raise IndexError
  end.

(** The view of an environment that a stage or callback receives. *)
Definition info_of (h : Heap) (e : Environment) : EnvInfo :=
  {| info_name := name e; info_device := device e;
     info_iteration := iteration e; info_generations := generations e;
     info_verbose_every := verbose_every e;
     info_fitness_function := fitness_function e;
     info_history := hists h !!! history e;
     info_best_ever := best_ever e |}.

(** [a_layer.run(self.individuals, self)] *)
Definition run_layer (a_layer : Layer) (self : ref) : M unit :=
  let* e := get_attr self id in
  fun h =>
    let '(w, pop) := a_layer (world h) (info_of h e) (pops h !!! individuals e) in
    (set_world w (set_pops (<[individuals e := pop]> (pops h)) h), Return tt).

(** [self.callback(self.individuals, self)] *)
Definition run_callback (cb : Callback) (self : ref) : M unit :=
  let* e := get_attr self id in
  fun h =>
    let '(w, pop) := cb (world h) (Some (info_of h e)) (pops h !!! individuals e) in
    (set_world w (set_pops (<[individuals e := pop]> (pops h)) h), Return tt).

(** ** class Environment *)

(** [Environment.deactivate], lines 53-57. *)
Definition Environment_deactivate (self : ref) : M unit :=
  set_attr self (set_deactivated true).

(** [Environment.get_fitness_metric], lines 59-67. *)
Definition Environment_get_fitness_metric (self : ref) : M Z :=
  let* best := get_attr self best_ever in
  match best with
  | Some b => ret (fitness b)
  | None => ret 0
  end.

(** [Environment.compile], lines 69-86.  [individuals] is a list or
    [None]; in the latter case line 84 stores a fresh empty list. *)
Definition Environment_compile (self : ref) (fitness_fn : option FitnessFunction)
    (inds : option ref) (cb : option Callback) (verbose : Z) : M unit :=
  set_attr self (set_fitness_function fitness_fn) ;;;
  match inds with
  | Some r => set_attr self (set_individuals r) ;;; set_attr self (set_compiled true)
  | None =>
      set_attr self (set_compiled true) ;;;
      let* r := new_pop [] in
      set_attr self (set_individuals r)
  end ;;;
  set_attr self (set_callback cb) ;;;
  set_attr self (set_verbose_every verbose).

(** [Environment.execute], lines 107-132.  The parameter [individuals] is
    not used by the body, which reads [self.individuals]. *)
Definition Environment_execute (self : ref) (_individuals : ref) : M unit :=
  let* the_layers := get_attr self layers in
  for_each the_layers (fun a_layer => run_layer a_layer self) ;;;
  let* cb := get_attr self callback in
  match cb with
  | Some f => run_callback f self
  | None => ret tt
  end ;;;
  let* inds := get_attr self individuals in
  let* pop := read_pop inds in
  if bool_decide (length pop = 0%nat) then raise NoIndividualsAtEndOfRun else
  let* rep := last_item pop in
  let fit := fitness rep in
  let* best := get_attr self best_ever in
  match best with
  | Some b =>
      if bool_decide (fitness b < fit)
      then set_attr self (set_best_ever (Some (copy rep)))
      else ret tt
  | None => set_attr self (set_best_ever (Some (copy rep)))
  end ;;;
  let* e := get_attr self id in
  (if bool_decide (verbose_every e ≠ 0)
      && bool_decide (iteration e `mod` verbose_every e = 0)
      && bool_decide (1 < iteration e)
   then print (PrintProgress (name e) (iteration e + 1) (generations e) fit (length pop))
   else ret tt) ;;;
  let* hist := get_attr self history in
  let* old := read_hist hist in
  write_hist hist (old ++ [fit]).

(** [Environment.evolve], lines 88-105. *)
Definition Environment_evolve (self : ref) (gens : Z) : M EvolveResult :=
  let* off := get_attr self deactivated in
  if off then
    let* inds := get_attr self individuals in
    ret (OnlyIndividuals inds)
  else
    set_attr self (set_generations gens) ;;;
    let* n := get_attr self generations in
    for_each (range n) (fun i =>
      set_attr self (set_iteration i) ;;;
      let* inds := get_attr self individuals in
      Environment_execute self inds) ;;;
    let* inds := get_attr self individuals in
    let* hist := get_attr self history in
    ret (IndividualsAndHistory inds hist).

(** [Environment.__init__], lines 35-51.  [for lay in layers] raises
    [TypeError] when [layers] is [None], before the attributes of lines
    46-51 are set; the object under construction is then unreachable and
    is not entered in the store.  [lay.set_environment(self)] is a method
    of [layer.Layer], which is not at hand; it leaves the modelled
    attributes alone. *)
Definition Environment_init (lays : option (list Layer)) (nm : string)
    (verbose : Z) (dev : string) : M ref :=
  match lays with
  | None => raise TypeError
  | Some ls =>
      let* inds := new_pop [] in
      let* hist := new_hist [] in
      new_obj {| device := dev; layer_fitness := layer_fitness_default;
                 fitness_function := None; generations := 0;
                 verbose_every := verbose; callback := None; name := nm;
                 layers := ls; individuals := inds; iteration := 0;
                 history := hist; compiled := false; deactivated := false;
                 best_ever := None; subclass := BaseClass |}
  end.

(** ** class Sequential *)

(** [Sequential.__init__], lines 148-150. *)
Definition Sequential_init (lays : list Layer) (nm : string) : M ref :=
  let* self := Environment_init (Some lays) nm 1 "cpu" in
  set_attr self (set_layers lays) ;;;
  ret self.

(** [Sequential.compile], lines 152-154. *)
Definition Sequential_compile (self : ref) (fitness_fn : option FitnessFunction)
    (inds : option ref) (cb : option Callback) (verbose : Z) : M unit :=
  Environment_compile self fitness_fn inds cb verbose.

(** [Sequential.evolve], lines 156-157. *)
Definition Sequential_evolve (self : ref) (gens : Z) : M EvolveResult :=
  Environment_evolve self gens.

(** [Sequential.reset], lines 159-162. *)
Definition Sequential_reset (self : ref) : M unit :=
  let* inds := new_pop [] in
  set_attr self (set_individuals inds) ;;;
  let* hist := new_hist [] in
  set_attr self (set_history hist) ;;;
  set_attr self (set_iteration 0).

(** ** Calls made by the composite environments *)

(** A call [environment.compile(...)] with keyword arguments, bound to the
    signature [compile(self, fitness_function, individuals=None,
    callback=None, verbose_every=1)] that every class of the file declares:
    [fitness_function] has no default, a call that leaves it out raises
    [TypeError] before the body runs. *)
Definition call_compile (self : ref) (kw_fitness_function : option (option FitnessFunction))
    (kw_individuals : option ref) (kw_callback : option Callback)
    (kw_verbose_every : option Z) : M unit :=
  match kw_fitness_function with
  | None => raise TypeError
  | Some fitness_fn =>
      Environment_compile self fitness_fn kw_individuals kw_callback
        (default 1 kw_verbose_every)
  end.

(** [individuals, history = env.evolve(...)].  A deactivated environment
    returns a bare list: it unpacks only if it holds exactly two
    candidates, which are then bound to the two names. *)
Inductive Unpacked :=
| BothLists (individuals history : ref)
| BothIndividuals (a b : Individual).

Definition unpack_pair (r : EvolveResult) : M Unpacked :=
  match r with
  | IndividualsAndHistory inds hist => ret (BothLists inds hist)
  | OnlyIndividuals inds =>
      let* pop := read_pop inds in
      match pop with
      | [a; b] => ret (BothIndividuals a b)
      | _ => raise ValueError
      end
  end.

(** [for x in l: acc = body(acc, x)] *)
Fixpoint fold_each {A B} (l : list A) (acc : B) (body : B -> A -> M B) : M B :=
  match l with
  | [] => ret acc
  | x :: l' => let* acc' := body acc x in fold_each l' acc' body
  end.

(** [time.time()] *)
Definition now : M Z :=
  fun h => let '(w, t) := time_time (world h) in (set_world w h, Return t).

(** [self.callback(individuals)], line 215. *)
Definition run_callback1 (cb : Callback) (inds : ref) : M unit :=
  fun h =>
    let '(w, pop) := cb (world h) None (pops h !!! inds) in
    (set_world w (set_pops (<[inds := pop]> (pops h)) h), Return tt).

(** [max(results, key=lambda x: x[1])]: the first element whose key no
    other element exceeds; [ValueError] on an empty list. *)
Fixpoint max_from {T} (key : T -> Z) (best : T) (l : list T) : T :=
  match l with
  | [] => best
  | x :: l' => max_from key (if bool_decide (key best < key x) then x else best) l'
  end.

Definition py_max {T} (key : T -> Z) (l : list T) : M T :=
  match l with
  | [] => raise ValueError
  | x :: l' => ret (max_from key x l')
  end.

(** ** class Adversarial *)

Definition Result : Type := string * Z * Z.
Definition result_fitness (x : Result) : Z := x.1.2.

Definition get_environments (self : ref) : M (list ref) :=
  let* sub := get_attr self subclass in
  match sub with
  | AdversarialClass envs => ret envs
  | AdaptiveClass envs _ _ _ _ => ret envs
  | _ => raise AttributeError
  end.

(** [Adversarial.__init__], lines 174-176.  The sub-environments are handed
    to the base constructor as its [layers]; [Adversarial] overrides
    [evolve] and never runs them as stages. *)
Definition Adversarial_init (envs : list ref) (nm : string) : M ref :=
  let* self := Environment_init (Some []) nm 1 "cpu" in
  set_attr self (set_subclass (AdversarialClass envs)) ;;;
  ret self.

(** [Adversarial.compile], lines 178-193. *)
Definition Adversarial_compile (self : ref) (fitness_fn : option FitnessFunction)
    (inds : option ref) (cb : option Callback) (verbose : Z) : M unit :=
  Environment_compile self fitness_fn inds cb verbose ;;;
  let* envs := get_environments self in
  for_each envs (fun environment =>
    let* done := get_attr environment compiled in
    if negb done
    then call_compile environment None None None (Some verbose)
    else ret tt).

(** [if self.callback: self.callback(individuals)], lines 214-215. *)
Definition Adversarial_notify (self : ref) (inds : ref) : M unit :=
  let* cb := get_attr self callback in
  match cb with
  | Some f => run_callback1 f inds
  | None => ret tt
  end.

(** The body of the loop of [Adversarial.evolve], lines 208-215. *)
Definition Adversarial_evolve_body (self : ref) (gens : Z)
    (acc : list Result * list (Result * ref)) (env : ref)
    : M (list Result * list (Result * ref)) :=
  let* start_time := now in
  let* r := Environment_evolve env gens in
  let* u := unpack_pair r in
  let* end_time := now in
  let evolution_time := end_time - start_time in
  match u with
  | BothIndividuals _ _ => raise TypeError
  | BothLists inds hist =>
      let* nm := get_attr env name in
      let* entries := read_hist hist in
      let* top := last_item entries in
      Adversarial_notify self inds ;;;
      ret (acc.1 ++ [(nm, top, evolution_time)],
           acc.2 ++ [((nm, top, evolution_time), hist)])
  end.

(** [Adversarial.plot_fitness_histories], lines 226-241. *)
Definition Adversarial_plot_fitness_histories (self : ref)
    (results : list (Result * ref)) : M unit :=
  fun h => print (Plot ((fun x => (x.1.1.1, hists h !!! x.2)) <$> results)) h.

(** [Adversarial.evolve], lines 195-224. *)
Definition Adversarial_evolve (self : ref) (gens : Z) : M Result :=
  let* envs := get_environments self in
  let* acc := fold_each envs ([], []) (Adversarial_evolve_body self gens) in
  print (PrintTable acc.1) ;;;
  let* best_environment := py_max result_fitness acc.1 in
  print (PrintBest best_environment.1.1 best_environment.1.2) ;;;
  Adversarial_plot_fitness_histories self acc.2 ;;;
  ret best_environment.

(** ** class ChronologicalEnvironment *)

Definition get_stages (self : ref) : M (list (ref * option Z)) :=
  let* sub := get_attr self subclass in
  match sub with
  | ChronologicalClass stages _ _ => ret stages
  | _ => raise AttributeError
  end.

Definition get_combined_history (self : ref) : M ref :=
  let* sub := get_attr self subclass in
  match sub with
  | ChronologicalClass _ comb _ => ret comb
  | _ => raise AttributeError
  end.

Definition get_best_environment (self : ref) : M (option (string * Z)) :=
  let* sub := get_attr self subclass in
  match sub with
  | ChronologicalClass _ _ best => ret best
  | _ => raise AttributeError
  end.

Definition set_best_environment (v : option (string * Z)) (e : Environment) : Environment :=
  match subclass e with
  | ChronologicalClass stages comb _ => set_subclass (ChronologicalClass stages comb v) e
  | _ => e
  end.

(** [ChronologicalEnvironment.__init__], lines 253-258: the base constructor
    is called with [None] for its layers. *)
Definition ChronologicalEnvironment_init (stages : list (ref * option Z))
    (nm : string) : M ref :=
  let* self := Environment_init None nm 1 "cpu" in
  let* comb := new_hist [] in
  set_attr self (set_subclass (ChronologicalClass stages comb None)) ;;;
  let* inds := new_pop [] in
  set_attr self (set_individuals inds) ;;;
  ret self.

(** The body of the loop of [ChronologicalEnvironment.evolve], lines
    272-283. *)
Definition ChronologicalEnvironment_evolve_body (self : ref) (gens : Z)
    (stage : ref * option Z) : M unit :=
  let env := stage.1 in
  let* generations_here :=
    match stage.2 with
    | None => print Warn ;;; ret gens
    | Some g => ret g
    end in
  let* nm := get_attr env name in
  print (PrintRunning nm generations_here) ;;;
  let* mine := get_attr self individuals in
  set_attr env (set_individuals mine) ;;;
  let* r := Environment_evolve env generations_here in
  let* u := unpack_pair r in
  let* empty := new_hist [] in
  set_attr env (set_history empty) ;;;
  match u with
  | BothIndividuals _ _ => raise TypeError
  | BothLists inds hist =>
      let* mine := get_attr self individuals in
      let* old := read_pop mine in
      let* more := read_pop inds in
      write_pop mine (old ++ more) ;;;
      let* comb := get_combined_history self in
      let* sofar := read_hist comb in
      let* entries := read_hist hist in
      write_hist comb (sofar ++ entries) ;;;
      let* best := get_best_environment self in
      let* entries := read_hist hist in
      match best with
      | None =>
          let* nm := get_attr env name in
          let* top := last_item entries in
          set_attr self (set_best_environment (Some (nm, top)))
      | Some (_, v) =>
          let* top := last_item entries in
          if bool_decide (v < top) then
            let* nm := get_attr env name in
            set_attr self (set_best_environment (Some (nm, top)))
          else ret tt
      end
  end.

(** [ChronologicalEnvironment.evolve], lines 260-284. *)
Definition ChronologicalEnvironment_evolve (self : ref) (gens : Z) : M (ref * ref) :=
  let* stages := get_stages self in
  for_each stages (ChronologicalEnvironment_evolve_body self gens) ;;;
  let* inds := get_attr self individuals in
  let* comb := get_combined_history self in
  ret (inds, comb).

(** [ChronologicalEnvironment.compile], lines 286-302. *)
Definition ChronologicalEnvironment_compile (self : ref)
    (fitness_fn : option FitnessFunction) (inds : option ref)
    (cb : option Callback) (verbose : Z) : M unit :=
  Environment_compile self fitness_fn inds cb verbose ;;;
  let* stages := get_stages self in
  for_each stages (fun stage =>
    let environment := stage.1 in
    let* done := get_attr environment compiled in
    if negb done
    then call_compile environment None None None (Some verbose)
    else ret tt).

(** ** class AdaptiveEnvironment *)

Definition get_switch_every (self : ref) : M Z :=
  let* sub := get_attr self subclass in
  match sub with
  | AdaptiveClass _ sw _ _ _ => ret sw
  | _ => raise AttributeError
  end.

Definition get_current_environment (self : ref) : M ref :=
  let* sub := get_attr self subclass in
  match sub with
  | AdaptiveClass _ _ cur _ _ => ret cur
  | _ => raise AttributeError
  end.

Definition get_current_generation (self : ref) : M Z :=
  let* sub := get_attr self subclass in
  match sub with
  | AdaptiveClass _ _ _ gen _ => ret gen
  | _ => raise AttributeError
  end.

Definition get_go_for (self : ref) : M Z :=
  let* sub := get_attr self subclass in
  match sub with
  | AdaptiveClass _ _ _ _ gf => ret gf
  | _ => raise AttributeError
  end.

Definition set_current_environment (v : ref) (e : Environment) : Environment :=
  match subclass e with
  | AdaptiveClass envs sw _ gen gf => set_subclass (AdaptiveClass envs sw v gen gf) e
  | _ => e
  end.

Definition set_current_generation (v : Z) (e : Environment) : Environment :=
  match subclass e with
  | AdaptiveClass envs sw cur _ gf => set_subclass (AdaptiveClass envs sw cur v gf) e
  | _ => e
  end.

(** [AdaptiveEnvironment.__init__], lines 344-350: the base constructor is
    called without layers, so [layers] takes its default [None]. *)
Definition AdaptiveEnvironment_init (envs : list ref) (sw gf : Z) (nm : string) : M ref :=
  let* self := Environment_init None nm 1 "cpu" in
  match envs with
  | [] => raise IndexError
  | first :: _ =>
      set_attr self (set_subclass (AdaptiveClass envs sw first 0 gf)) ;;;
      ret self
  end.

(** [AdaptiveEnvironment.compile], lines 352-368. *)
Definition AdaptiveEnvironment_compile (self : ref)
    (fitness_fn : option FitnessFunction) (inds : option ref)
    (cb : option Callback) (verbose : Z) : M unit :=
  Environment_compile self fitness_fn inds cb verbose ;;;
  let* envs := get_environments self in
  for_each envs (fun environment =>
    let* done := get_attr environment compiled in
    if negb done
    then call_compile environment None None None (Some verbose)
    else ret tt).

(** The least magnitude of an integer that has no floating-point value:
    an integer of magnitude 2^1024 - 2^970 or more rounds beyond the
    largest double, and its conversion raises [OverflowError]. *)
Definition float_overflow : Z := 2 ^ 1024 - 2 ^ 970.

(** [random.choices(choices, weights, k=1)[0]], line 406, on integer
    weights.  The library accumulates the weights; it raises [ValueError]
    when their number is not that of the choices, [IndexError] when there
    is none (it reads the last cumulative weight), [OverflowError] when
    the total has no floating-point value (it adds [0.0] to it), and
    [ValueError] unless the total is more than zero; otherwise it returns
    the member at the drawn position, which it keeps within the pool. *)
Definition random_choices (choices : list ref) (weights : list Z) : M ref :=
  if bool_decide (length weights ≠ length choices) then raise ValueError else
  match last choices with
  | None => raise IndexError
  | Some final =>
      let total := foldr Z.add 0 weights in
      if bool_decide (float_overflow <= Z.abs total) then raise OverflowError else
      if bool_decide (total <= 0) then raise ValueError else
      fun h =>
        let '(w, i) := random_index (world h) weights in
        (set_world w h,
         Return (default final (choices !! Nat.min i (length choices - 1))))
  end.

(** [[x.fitness for x in self.environments]] *)
Fixpoint read_weights (envs : list ref) : M (list Z) :=
  match envs with
  | [] => ret []
  | x :: rest =>
      let* f := get_attr x layer_fitness in
      let* fs := read_weights rest in
      ret (f :: fs)
  end.

(** [AdaptiveEnvironment.smart_evolve], lines 392-408. *)
Definition AdaptiveEnvironment_smart_evolve (self : ref) : M ref :=
  let* envs := get_environments self in
  for_each envs (fun i =>
    let* f := get_attr i layer_fitness in
    if bool_decide (f < 1) then
      let* nm := get_attr i name in
      print (PrintDeactivating nm) ;;;
      Environment_deactivate i
    else ret tt) ;;;
  let* it := get_attr self iteration in
  let* sw := get_switch_every self in
  if bool_decide (sw = 0) then raise ZeroDivisionError else
  if bool_decide (it `mod` sw = 0) then
    let* envs := get_environments self in
    let* weights := read_weights envs in
    random_choices envs weights
  else get_current_environment self.

(** [AdaptiveEnvironment.evolve], lines 370-390. *)
Definition AdaptiveEnvironment_evolve (self : ref) (gens : Z) : M (ref * ref) :=
  for_each (range gens) (fun _ =>
    let* it := get_attr self iteration in
    set_attr self (set_iteration (it + 1)) ;;;
    let* gen := get_current_generation self in
    set_attr self (set_current_generation (gen + 1)) ;;;
    let* new := AdaptiveEnvironment_smart_evolve self in
    let* cur := get_current_environment self in
    let* inds := get_attr cur individuals in
    set_attr new (set_individuals inds) ;;;
    let* cur := get_current_environment self in
    let* hist := get_attr cur history in
    set_attr new (set_history hist) ;;;
    set_attr self (set_current_environment new) ;;;
    let* cur := get_current_environment self in
    let* _ := Environment_evolve cur 1 in
    ret tt) ;;;
  let* inds := get_attr self individuals in
  let* hist := get_attr self history in
  ret (inds, hist).

(** The body of the loop of [AdaptiveEnvironment.switch_environment],
    lines 419-427.  The accumulator is the pair of
    [max_fitness_increase] and [best_environment]. *)
Definition AdaptiveEnvironment_switch_body (self : ref) (first : Z)
    (acc : Gain * option ref) (environment : ref) : M (Gain * option ref) :=
  let* cur := get_current_environment self in
  let* inds := get_attr cur individuals in
  set_attr environment (set_individuals inds) ;;;
  let* gf := get_go_for self in
  let* _ := Environment_evolve environment gf in
  let* inds := get_attr environment individuals in
  let* pop := read_pop inds in
  let* last_one := last_item pop in
  let new_fitness := fitness last_one in
  let fitness_increase := new_fitness - first in
  if gain_gt fitness_increase acc.1
  then ret (Finite fitness_increase, Some environment)
  else ret acc.

(** [AdaptiveEnvironment.switch_environment], lines 410-432. *)
Definition AdaptiveEnvironment_switch_environment (self : ref) : M unit :=
  let* cur := get_current_environment self in
  let* inds := get_attr cur individuals in
  let* pop := read_pop inds in
  let* last_one := last_item pop in
  let first := fitness last_one in
  let* envs := get_environments self in
  let* acc := fold_each envs (NegInf, None) (AdaptiveEnvironment_switch_body self first) in
  match acc.2 with
  | Some best_environment =>
      let* cur := get_current_environment self in
      let* inds := get_attr cur individuals in
      set_attr best_environment (set_individuals inds) ;;;
      set_attr self (set_current_environment best_environment) ;;;
      let* nm := get_attr best_environment name in
      let* gen := get_current_generation self in
      print (PrintSwitching nm gen)
  | None => ret tt
  end.

(** ** Vocabulary of the statements *)

(** What lines 117-118 make of the collaborators' state and of the
    population: every stage in order, each on what the previous one left. *)
Definition run_stages (ls : list Layer) (v : EnvInfo) (w : World)
    (pop : list Individual) : World * list Individual :=
  foldl (fun acc a_layer => a_layer acc.1 v acc.2) (w, pop) ls.

(** What lines 117-120 make of them: the stages, then the callback if one
    is configured. *)
Definition after_stages (h : Heap) (e : Environment) : World * list Individual :=
  let wp := run_stages (layers e) (info_of h e) (world h) (pops h !!! individuals e) in
  match callback e with
  | Some f => f wp.1 (Some (info_of h e)) wp.2
  | None => wp
  end.

(** The stages and the callback of [e] never leave the population empty. *)
Definition never_empties (e : Environment) : Prop :=
  forall h e', layers e' = layers e -> callback e' = callback e ->
    (after_stages h e').2 <> [].

(** The best-ever snapshot after a generation whose representative is
    [rep], lines 124-128. *)
Definition new_best (best : option Individual) (rep : Individual) : option Individual :=
  match best with
  | Some b => if bool_decide (fitness b < fitness rep) then Some (copy rep) else Some b
  | None => Some (copy rep)
  end.

(** The progress line of a generation, line 129. *)
Definition progress (e : Environment) (rep : Individual) (size : nat) : list Event :=
  if bool_decide (verbose_every e ≠ 0)
     && bool_decide (iteration e `mod` verbose_every e = 0)
     && bool_decide (1 < iteration e)
  then [PrintProgress (name e) (iteration e + 1) (generations e) (fitness rep) size]
  else [].

(** A map of list objects changed at [k] at most. *)
Definition only_at {V} (k : ref) (m m' : gmap ref V) : Prop :=
  (forall r, r ≠ k -> m' !! r = m !! r) /\ (is_Some (m !! k) -> is_Some (m' !! k)).

(** The store [h1] is [h] after the stages and the callback of [e]. *)
Definition stages_done (h : Heap) (e : Environment) (h1 : Heap) : Prop :=
  objs h1 = objs h /\ hists h1 = hists h /\ stdout h1 = stdout h /\
  world h1 = (after_stages h e).1 /\
  pops h1 !!! individuals e = (after_stages h e).2 /\
  only_at (individuals e) (pops h) (pops h1).

(** The bookkeeping of lines 123-132 for the representative [rep]. *)
Definition generation_end (self : ref) (e : Environment) (rep : Individual)
    (h1 : Heap) : Heap :=
  {| pops := pops h1;
     hists := <[history e := hists h1 !!! history e ++ [fitness rep]]> (hists h1);
     objs := <[self := set_best_ever (new_best (best_ever e) rep) e]> (objs h1);
     world := world h1;
     stdout := stdout h1 ++ progress e rep (length (pops h1 !!! individuals e)) |}.

(** The attributes of an environment that [evolve] does not assign. *)
Definition same_static (e e' : Environment) : Prop :=
  device e' = device e /\ layer_fitness e' = layer_fitness e /\
  fitness_function e' = fitness_function e /\ verbose_every e' = verbose_every e /\
  callback e' = callback e /\ name e' = name e /\ layers e' = layers e /\
  individuals e' = individuals e /\ history e' = history e /\
  compiled e' = compiled e /\ deactivated e' = deactivated e /\
  subclass e' = subclass e.

(** [completed_generations self i fits h h']: starting in [h] with the
    loop index at [i], the loop of [evolve] (lines 102-104) completes one
    generation for each element of [fits], whose representative fitness it
    is, and ends in [h']. *)
Inductive completed_generations (self : ref) : Z -> list Z -> Heap -> Heap -> Prop :=
| no_generation i h : completed_generations self i [] h h
| one_more_generation i h h1 h2 h3 e rep fits :
    set_attr self (set_iteration i) h = (h1, Return tt) ->
    objs h1 !! self = Some e ->
    Environment_execute self (individuals e) h1 = (h2, Return tt) ->
    last (pops h2 !!! individuals e) = Some rep ->
    completed_generations self (i + 1) fits h2 h3 ->
    completed_generations self i (fitness rep :: fits) h h3.

(** The greatest element of a list, if it has one. *)
Definition max_of (l : list Z) : option Z :=
  match l with
  | [] => None
  | x :: l' => Some (foldl Z.max x l')
  end.

(** [lifetime self h reps]: the store [h] is reached in the life of the
    environment [self], in which the generations completed so far ended
    with the representative fitness values [reps], oldest first.  A life
    starts with no best-ever snapshot (line 51); it goes on by a generation
    step that returns, or by any other statement of the program, none of
    which assigns [best_ever] (lines 126 and 128 are the only ones). *)
Inductive lifetime (self : ref) : Heap -> list Z -> Prop :=
| life_created h e :
    objs h !! self = Some e -> best_ever e = None -> lifetime self h []
| life_generation h h' inds e' rep reps :
    lifetime self h reps ->
    Environment_execute self inds h = (h', Return tt) ->
    objs h' !! self = Some e' ->
    last (pops h' !!! individuals e') = Some rep ->
    lifetime self h' (reps ++ [fitness rep])
| life_other h h' reps :
    lifetime self h reps ->
    best_ever <$> objs h' !! self = best_ever <$> objs h !! self ->
    lifetime self h' reps.

(** [adversarial_runs self gens envs h results h']: from the store [h], the
    sub-environments [envs] are run in turn for [gens] generations each;
    every run returns its population and a non-empty history, and
    [results] lists, in the order of [envs], the name of each
    sub-environment, the final value of the history its run returned and
    the duration measured around the run; [h'] is the store after the last
    run and the callback that follows it. *)
Inductive adversarial_runs (self : ref) (gens : Z) :
    list ref -> Heap -> list Result -> Heap -> Prop :=
| runs_done h : adversarial_runs self gens [] h [] h
| runs_next env envs h h1 h2 h3 h4 h5 start_time end_time inds hist nm top results :
    now h = (h1, Return start_time) ->
    Environment_evolve env gens h1 = (h2, Return (IndividualsAndHistory inds hist)) ->
    now h2 = (h3, Return end_time) ->
    name <$> objs h3 !! env = Some nm ->
    last (hists h3 !!! hist) = Some top ->
    Adversarial_notify self inds h3 = (h4, Return tt) ->
    adversarial_runs self gens envs h4 results h5 ->
    adversarial_runs self gens (env :: envs) h
      ((nm, top, end_time - start_time) :: results) h5.

(** [runs_produce_history self gens envs h results h']: the same runs,
    with nothing assumed of the callback: from the store [h], each
    sub-environment of [envs] in turn is run for [gens] generations
    between two readings of the clock, its run returns its population and
    a non-empty history, and the callback of [self], if any, is then given
    the population.  [results] lists, in the order of [envs], the name of
    each sub-environment, the final value of the history its run returned
    and the duration between the two readings. *)
Inductive runs_produce_history (self : ref) (gens : Z) :
    list ref -> Heap -> list Result -> Heap -> Prop :=
| no_run h : runs_produce_history self gens [] h [] h
| one_more_run env envs h h1 h2 h3 h5 start_time end_time inds hist nm top results :
    now h = (h1, Return start_time) ->
    Environment_evolve env gens h1 = (h2, Return (IndividualsAndHistory inds hist)) ->
    now h2 = (h3, Return end_time) ->
    name <$> objs h3 !! env = Some nm ->
    last (hists h3 !!! hist) = Some top ->
    runs_produce_history self gens envs (Adversarial_notify self inds h3).1 results h5 ->
    runs_produce_history self gens (env :: envs) h
      ((nm, top, end_time - start_time) :: results) h5.

(** [trial_runs self first pool h gains h']: from the store [h], every
    member of [pool] in turn is handed the population of the active
    environment, is run for [go_for] generations, and its run returns;
    [gains] lists, in the order of [pool], the fitness of the last
    candidate of each member's population after its run, minus the baseline
    [first]; [h'] is the store after the last run. *)
Inductive trial_runs (self : ref) (first : Z) :
    list ref -> Heap -> list Z -> Heap -> Prop :=
| trials_done h : trial_runs self first [] h [] h
| trials_next environment pool h h1 h2 h3 cur inds gf r inds' last_one gains :
    get_current_environment self h = (h, Return cur) ->
    get_attr cur individuals h = (h, Return inds) ->
    set_attr environment (set_individuals inds) h = (h1, Return tt) ->
    get_go_for self h1 = (h1, Return gf) ->
    Environment_evolve environment gf h1 = (h2, Return r) ->
    get_attr environment individuals h2 = (h2, Return inds') ->
    last (pops h2 !!! inds') = Some last_one ->
    trial_runs self first pool h2 gains h3 ->
    trial_runs self first (environment :: pool) h
      (fitness last_one - first :: gains) h3.



(** [separate_histories comb envs h]: in the store [h] the combined history
    [comb] is an allocated list, every environment of [envs] holds an
    empty history that is another list than [comb], and different
    environments hold different lists. *)
Definition separate_histories (comb : ref) (envs : list ref) (h : Heap) : Prop :=
  is_Some (hists h !! comb) /\
  (forall env, env ∈ envs ->
     exists ee, objs h !! env = Some ee /\ hists h !! history ee = Some [] /\
                history ee ≠ comb) /\
  (forall env1 env2 ee1 ee2, env1 ∈ envs -> env2 ∈ envs ->
     objs h !! env1 = Some ee1 -> objs h !! env2 = Some ee2 ->
     env1 ≠ env2 -> history ee1 ≠ history ee2).


(** [lists_apart inds hist pool h]: in the store [h] no environment of
    [pool] holds the list [inds] as its population or the list [hist] as
    its history. *)
Definition lists_apart (inds hist : ref) (pool : list ref) (h : Heap) : Prop :=
  forall env ee, env ∈ pool -> objs h !! env = Some ee ->
    individuals ee ≠ inds /\ history ee ≠ hist.

(** [keeps I c post]: the computation [c] preserves the property [I] of
    the store, whatever its outcome, and a value it returns satisfies
    [post]. *)
Definition keeps {A} (I : Heap -> Prop) (c : M A) (post : A -> Prop) : Prop :=
  forall h h' out, I h -> c h = (h', out) ->
    I h' /\ forall a, out = Return a -> post a.

(** The invariant of the loop of [AdaptiveEnvironment.evolve], seen from
    the composite [self]: its object keeps its population [inds], its
    history [hist] and its pool, its active environment is a member of
    [pool]; and when the two lists were apart from the pool in the
    beginning ([sep]), they still are and their contents are those of
    the store [h0]. *)
Definition adaptive_inv (self : ref) (inds hist : ref) (envs : list ref) (sw gf : Z)
    (pool : list ref) (sep : Prop) (h0 h : Heap) : Prop :=
  (exists es cur gen, objs h !! self = Some es /\
     individuals es = inds /\ history es = hist /\
     subclass es = AdaptiveClass envs sw cur gen gf /\ cur ∈ pool) /\
  (sep -> lists_apart inds hist pool h /\
          pops h !! inds = pops h0 !! inds /\ hists h !! hist = hists h0 !! hist).

(** The progress lines that a call [evolve(gens)] of the environment [e]
    can print: a generation number between 3 and [gens] that is one more
    than a multiple of the reporting interval. *)
Definition progress_line (e : Environment) (gens : Z) (ev : Event) : Prop :=
  exists g f size,
    ev = PrintProgress (name e) g gens f size /\
    3 <= g <= gens /\ verbose_every e ≠ 0 /\ (g - 1) `mod` verbose_every e = 0.

(** The object of a pool member after the first loop of [smart_evolve],
    lines 399-402. *)
Definition deactivate_if_low (envs : list ref) (r : ref) (ee : Environment) : Environment :=
  if bool_decide (r ∈ envs /\ layer_fitness ee < 1)
  then set_deactivated true ee
  else ee.

(** The weights that line 404 of [smart_evolve] reads in the store [h]:
    the [fitness] attribute of every pool member, in the order of the
    pool. *)
Definition weights_of (h : Heap) (envs : list ref) : list Z :=
  (fun r => default 0 (layer_fitness <$> objs h !! r)) <$> envs.

(** What the loop of [AdaptiveEnvironment.evolve] keeps of the active
    environment: the composite [self] holds its pool, its active
    environment is a member of [pool], and the active environment holds
    the population [inds] and the history [hist]. *)
Definition active_inv (self : ref) (inds hist : ref) (envs : list ref) (sw gf : Z)
    (pool : list ref) (h : Heap) : Prop :=
  exists es cur gen ce,
    objs h !! self = Some es /\ subclass es = AdaptiveClass envs sw cur gen gf /\
    cur ∈ pool /\ objs h !! cur = Some ce /\
    individuals ce = inds /\ history ce = hist.

End Model.

Notation "'let*' x ':=' c 'in' k" := (bind c (fun x => k))
  (at level 10, x pattern, c at level 100, k at level 200).
Notation "c ';;;' k" := (bind c (fun _ => k))
  (at level 100, k at level 200, right associativity).

(** ** Example collaborators and stores *)

(** A world that is a counter: the clock and the generator both read it
    and advance it. *)
#[local] Instance counter_world : External nat := {|
  time_time := fun w => (S w, Z.of_nat w);
  random_index := fun w _ => (S w, w);
  layer_fitness_default := 1
|}.

(** A stage that adds a candidate one fitter than the current last one. *)
Definition grow : @Layer nat :=
  fun w _ pop =>
    (w, pop ++ [{| genes := []; fitness := default 0 (fitness <$> last pop) + 1 |}]).

(** A stage that removes every candidate from the third generation on. *)
Definition wipe_late : @Layer nat :=
  fun w v pop => if bool_decide (info_iteration v < 2) then grow w v pop else (w, []).

(** A stage that adds a candidate of the given fitness. *)
Definition add (f : Z) : @Layer nat :=
  fun w _ pop => (w, pop ++ [{| genes := []; fitness := f |}]).

Definition empty_heap : @Heap nat :=
  {| pops := ∅; hists := ∅; objs := ∅; world := 0%nat; stdout := [] |}.

(** An adversarial environment over one freshly constructed sequential
    environment, compiled through the composite. *)
Definition compile_adversarial : M unit :=
  let* a := Sequential_init [grow] "A" in
  let* adv := Adversarial_init [a] "adversarial" in
  Adversarial_compile adv (Some fitness) None None 1.

(** An object of the given class, with no stage, not compiled. *)
Definition bare (nm : string) (inds hist : ref) (sub : Subclass) : @Environment nat :=
  {| device := "cpu"; layer_fitness := 1; fitness_function := None;
     generations := 0; verbose_every := 1; callback := None; name := nm;
     layers := []; individuals := inds; iteration := 0; history := hist;
     compiled := false; deactivated := false; best_ever := None;
     subclass := sub |}.

(** A chronological and an adaptive environment over one sub-environment
    that is not compiled. *)
Definition chronological_heap : @Heap nat :=
  {| pops := {[ 0%nat := []; 1%nat := [] ]};
     hists := {[ 0%nat := []; 1%nat := []; 2%nat := [] ]};
     objs := {[ 0%nat := bare "A" 0%nat 0%nat BaseClass;
                1%nat := bare "chronological" 1%nat 1%nat
                           (ChronologicalClass [(0%nat, Some 1)] 2%nat None) ]};
     world := 0%nat; stdout := [] |}.

Definition adaptive_heap : @Heap nat :=
  {| pops := {[ 0%nat := []; 1%nat := [] ]};
     hists := {[ 0%nat := []; 1%nat := [] ]};
     objs := {[ 0%nat := bare "A" 0%nat 0%nat BaseClass;
                1%nat := bare "adaptive" 1%nat 1%nat
                           (AdaptiveClass [0%nat] 10 0%nat 0 0) ]};
     world := 0%nat; stdout := [] |}.

(** An environment with the given stages over the population [inds] and
    the history [hist], compiled. *)
Definition staged (nm : string) (ls : list (@Layer nat)) (inds hist : ref)
    (off : bool) : @Environment nat :=
  {| device := "cpu"; layer_fitness := 1; fitness_function := Some fitness;
     generations := 0; verbose_every := 1; callback := None; name := nm;
     layers := ls; individuals := inds; iteration := 0; history := hist;
     compiled := true; deactivated := off; best_ever := None;
     subclass := BaseClass |}.

Definition seed : Individual := {| genes := []; fitness := 0 |}.

(** One environment, one candidate of fitness 0, the stage [grow]. *)
Definition growing (off : bool) : @Environment nat := staged "A" [grow] 0%nat 0%nat off.

Definition growing_heap (off : bool) : @Heap nat :=
  {| pops := {[ 0%nat := [seed] ]}; hists := {[ 0%nat := [] ]};
     objs := {[ 0%nat := growing off ]}; world := 0%nat; stdout := [] |}.

(** The same with the stage [wipe_late], at the start of the loop of a call
    [evolve(3)] and after the two generations that complete. *)
Definition late : @Environment nat := staged "A" [wipe_late] 0%nat 0%nat false.

Definition late_heap : @Heap nat :=
  {| pops := {[ 0%nat := [seed] ]}; hists := {[ 0%nat := [] ]};
     objs := {[ 0%nat := late ]}; world := 0%nat; stdout := [] |}.

Definition late_started : @Heap nat :=
  set_objs (<[0%nat := set_generations 3 late]> (objs late_heap)) late_heap.

Definition late_after_two : @Heap nat :=
  (for_each (range 2) (fun i =>
     set_attr 0%nat (set_iteration i) ;;;
     let* inds := get_attr 0%nat individuals in
     Environment_execute 0%nat inds) late_started).1.

Definition late_object : @Environment nat :=
  default late (objs late_after_two !! 0%nat).

(** Two environments A and B, each over its own population and history,
    whose single stage adds a candidate of fitness 5 and 8. *)
Definition contest (sub : Subclass) : @Heap nat :=
  {| pops := {[ 0%nat := [seed]; 1%nat := [seed]; 2%nat := [] ]};
     hists := {[ 0%nat := []; 1%nat := []; 2%nat := []; 3%nat := [] ]};
     objs := {[ 0%nat := staged "A" [add 5] 0%nat 0%nat false;
                1%nat := staged "B" [add 8] 1%nat 1%nat false;
                2%nat := set_subclass sub (staged "composite" [] 2%nat 2%nat false) ]};
     world := 0%nat; stdout := [] |}.

Definition adversarial_heap : @Heap nat := contest (AdversarialClass [0%nat; 1%nat]).

(** A chronological environment that runs A for two generations, then B
    for one; its combined history is the list 3. *)
Definition relay_heap : @Heap nat :=
  contest (ChronologicalClass [(0%nat, Some 2); (1%nat, Some 1)] 3%nat None).


(** The same relay when A has run before and already holds the history
    [7]. *)
Definition stale_relay_heap : @Heap nat :=
  set_hists (<[0%nat := [7]]> (hists relay_heap)) relay_heap.

(** An adaptive environment over the pool of A and B, A active, trials of
    one generation, a draw at every generation. *)
Definition pool_heap : @Heap nat := contest (AdaptiveClass [0%nat; 1%nat] 1 0%nat 0 1).

(** The adversarial contest when B has been deactivated. *)
Definition idle_B_heap : @Heap nat :=
  set_objs (<[1%nat := staged "B" [add 8] 1%nat 1%nat true]> (objs adversarial_heap))
    adversarial_heap.

Definition idle_B_after_A : @Heap nat :=
  (fold_each [0%nat] ([], []) (Adversarial_evolve_body 2%nat 1) idle_B_heap).1.

(** A pool member whose [fitness] attribute is 0. *)
Definition weak (nm : string) (ls : list (@Layer nat)) (inds hist : ref)
    : @Environment nat :=
  {| device := "cpu"; layer_fitness := 0; fitness_function := Some fitness;
     generations := 0; verbose_every := 1; callback := None; name := nm;
     layers := ls; individuals := inds; iteration := 0; history := hist;
     compiled := true; deactivated := false; best_ever := None;
     subclass := BaseClass |}.

(** The adaptive pool of A and B with the switching interval [sw], in
    which the [fitness] attribute of A is 0. *)
Definition weak_pool_heap (sw : Z) : @Heap nat :=
  set_objs (<[0%nat := weak "A" [add 5] 0%nat 0%nat]>
              (objs (contest (AdaptiveClass [0%nat; 1%nat] sw 0%nat 0 1))))
    (contest (AdaptiveClass [0%nat; 1%nat] sw 0%nat 0 1)).



(** The adaptive pool when the composite was compiled with the population
    and the history of its member A: both hold the lists 0. *)
Definition shared_pool_heap : @Heap nat :=
  set_objs (<[2%nat := set_subclass (AdaptiveClass [0%nat; 1%nat] 1 0%nat 0 1)
                         (staged "composite" [] 0%nat 0%nat false)]> (objs pool_heap))
    pool_heap.



Section Proofs.

Context {World : Type} `{!External World}.

Implicit Types (h : @Heap World) (e : @Environment World) (self env : ref).
Implicit Types (I : @Heap World -> Prop).

(** ** Stepping through computations *)

Lemma bind_return {A B} (c : M A) (k : A -> M B) h h' a :
  c h = (h', Return a) -> bind c k h = k a h'.
Proof. intros Hc. unfold bind. by rewrite Hc. Qed.

Lemma bind_raise {A B} (c : M A) (k : A -> M B) h h' x :
  c h = (h', Raise x) -> bind c k h = (h', Raise x).
Proof. intros Hc. unfold bind. by rewrite Hc. Qed.

Lemma bind_inv {A B} (c : M A) (k : A -> M B) h h' b :
  bind c k h = (h', Return b) ->
  exists h1 a, c h = (h1, Return a) /\ k a h1 = (h', Return b).
Proof.
  unfold bind. destruct (c h) as [h1 [a|x]]; [eauto | discriminate].
Qed.

Lemma get_attr_eq {A} self (attr : Environment -> A) h e :
  objs h !! self = Some e -> get_attr self attr h = (h, Return (attr e)).
Proof. intros He. unfold get_attr. by rewrite He. Qed.

Lemma set_attr_eq self assign h e :
  objs h !! self = Some e ->
  set_attr self assign h = (set_objs (<[self := assign e]> (objs h)) h, Return tt).
Proof. intros He. unfold set_attr. by rewrite He. Qed.


(** ** The stages and the callback *)

Lemma info_of_frame h h1 e : hists h1 = hists h -> info_of h1 e = info_of h e.
Proof. intros Hh. unfold info_of. by rewrite Hh. Qed.

Lemma only_at_refl {V} k (m : gmap ref V) : only_at k m m.
Proof. by split. Qed.

Lemma only_at_insert {V} k v (m m' : gmap ref V) :
  only_at k m m' -> only_at k m (<[k := v]> m').
Proof.
  intros [Hne Hdom]. split.
  - intros r Hr. rewrite lookup_insert_ne; [by apply Hne | done].
  - intros _. rewrite lookup_insert_eq. by eexists.
Qed.

Lemma only_at_trans {V} k (m1 m2 m3 : gmap ref V) :
  only_at k m1 m2 -> only_at k m2 m3 -> only_at k m1 m3.
Proof.
  intros [H1 D1] [H2 D2]. split.
  - intros r Hr. rewrite H2, H1; done.
  - intros Hs. by apply D2, D1.
Qed.

Lemma run_layer_eq a_layer self h e :
  objs h !! self = Some e ->
  run_layer a_layer self h =
    (let wp := a_layer (world h) (info_of h e) (pops h !!! individuals e) in
     set_world wp.1 (set_pops (<[individuals e := wp.2]> (pops h)) h), Return tt).
Proof.
  intros He. unfold run_layer.
  rewrite (bind_return _ _ _ _ _ (get_attr_eq self id h e He)). simpl.
  by destruct (a_layer _ _ _).
Qed.

Lemma run_callback_eq cb self h e :
  objs h !! self = Some e ->
  run_callback cb self h =
    (let wp := cb (world h) (Some (info_of h e)) (pops h !!! individuals e) in
     set_world wp.1 (set_pops (<[individuals e := wp.2]> (pops h)) h), Return tt).
Proof.
  intros He. unfold run_callback.
  rewrite (bind_return _ _ _ _ _ (get_attr_eq self id h e He)). simpl.
  by destruct (cb _ _ _).
Qed.

Lemma run_layers_spec self e ls : forall h,
  objs h !! self = Some e ->
  exists h1,
    for_each ls (fun a_layer => run_layer a_layer self) h = (h1, Return tt) /\
    objs h1 = objs h /\ hists h1 = hists h /\ stdout h1 = stdout h /\
    world h1 = (run_stages ls (info_of h e) (world h) (pops h !!! individuals e)).1 /\
    pops h1 !!! individuals e
      = (run_stages ls (info_of h e) (world h) (pops h !!! individuals e)).2 /\
    only_at (individuals e) (pops h) (pops h1).
Proof.
  induction ls as [|a_layer ls IH]; intros h He.
  - exists h. simpl. repeat split; auto.
  - simpl for_each.
    rewrite (bind_return _ _ _ _ _ (run_layer_eq a_layer self h e He)).
    set (wp := a_layer (world h) (info_of h e) (pops h !!! individuals e)).
    set (h0 := set_world wp.1 (set_pops (<[individuals e := wp.2]> (pops h)) h)).
    destruct (IH h0) as (h1 & Hrun & Ho & Hh & Hs & Hw & Hp & Hfr); [done|].
    exists h1. split; [exact Hrun|].
    assert (Hi : info_of h0 e = info_of h e) by (by apply info_of_frame).
    assert (Hl : pops h0 !!! individuals e = wp.2).
    { subst h0. simpl. by rewrite lookup_total_insert_eq. }
    rewrite Hi, Hl in Hw, Hp.
    split; [by rewrite Ho|]. split; [by rewrite Hh|]. split; [by rewrite Hs|].
    split; [|split; [|split]].
    + rewrite Hw. unfold run_stages. simpl. fold wp. by rewrite <- surjective_pairing.
    + rewrite Hp. unfold run_stages. simpl. fold wp. by rewrite <- surjective_pairing.
    + intros r Hr. destruct Hfr as [Hfr _]. rewrite Hfr by done.
      subst h0. simpl. by rewrite lookup_insert_ne.
    + intros Hs'. destruct Hfr as [_ Hfr]. apply Hfr.
      subst h0. simpl. rewrite lookup_insert_eq. by eexists.
Qed.

Lemma callback_spec self e h h0 :
  objs h !! self = Some e ->
  objs h0 = objs h -> hists h0 = hists h -> stdout h0 = stdout h ->
  world h0 = (run_stages (layers e) (info_of h e) (world h) (pops h !!! individuals e)).1 ->
  pops h0 !!! individuals e
    = (run_stages (layers e) (info_of h e) (world h) (pops h !!! individuals e)).2 ->
  only_at (individuals e) (pops h) (pops h0) ->
  exists h1,
    match callback e with Some f => run_callback f self | None => ret tt end h0
      = (h1, Return tt) /\
    stages_done h e h1.
Proof.
  intros He Ho Hh Hs Hw Hp Hfr.
  assert (He0 : objs h0 !! self = Some e) by (by rewrite Ho).
  unfold stages_done, after_stages.
  destruct (callback e) as [f|].
  - rewrite (run_callback_eq f self h0 e He0).
    eexists. split; [reflexivity|]. simpl.
    rewrite (info_of_frame h h0 e Hh), Hw, Hp.
    repeat split; try done.
    + by rewrite lookup_total_insert_eq.
    + intros r Hr. rewrite lookup_insert_ne by done. by apply Hfr.
    + intros _. rewrite lookup_insert_eq. by eexists.
  - exists h0. split; [reflexivity|]. simpl. repeat split; try done; by apply Hfr.
Qed.

Lemma set_best_ever_same e : set_best_ever (best_ever e) e = e.
Proof. by destruct e. Qed.

(** One generation, in closed form. *)
Lemma execute_spec self i h e :
  objs h !! self = Some e ->
  exists h1, stages_done h e h1 /\
    Environment_execute self i h =
      match last (after_stages h e).2 with
      | None => (h1, Raise NoIndividualsAtEndOfRun)
      | Some rep => (generation_end self e rep h1, Return tt)
      end.
Proof.
  intros He. unfold Environment_execute.
  rewrite (bind_return _ _ _ _ _ (get_attr_eq self layers h e He)).
  destruct (run_layers_spec self e (layers e) h He)
    as (h0 & Hrun & Ho & Hh & Hs & Hw & Hp & Hfr).
  rewrite (bind_return _ _ _ _ _ Hrun).
  assert (He0 : objs h0 !! self = Some e) by (by rewrite Ho).
  rewrite (bind_return _ _ _ _ _ (get_attr_eq self callback h0 e He0)).
  destruct (callback_spec self e h h0 He Ho Hh Hs Hw Hp Hfr) as (h1 & Hcb & Hdone).
  rewrite (bind_return _ _ _ _ _ Hcb).
  exists h1. split; [exact Hdone|].
  destruct Hdone as (Ho1 & Hh1 & Hs1 & Hw1 & Hp1 & Hfr1).
  assert (He1 : objs h1 !! self = Some e) by (by rewrite Ho1).
  rewrite (bind_return _ _ _ _ _ (get_attr_eq self individuals h1 e He1)).
  unfold read_pop at 1. unfold bind at 1. rewrite Hp1.
  destruct (after_stages h e).2 as [|c pop] eqn:Hpop using rev_ind.
  { reflexivity. }
  clear IHpop. rewrite last_snoc.
  rewrite bool_decide_eq_false_2 by (rewrite length_app; simpl; lia).
  unfold last_item. rewrite last_snoc.
  unfold bind at 1. unfold ret at 1.
  rewrite (bind_return _ _ _ _ _ (get_attr_eq self best_ever h1 e He1)).
  set (e2 := set_best_ever (new_best (best_ever e) c) e).
  assert (Hbest : match best_ever e with
    | Some b =>
        if bool_decide (fitness b < fitness c)
        then set_attr self (set_best_ever (Some (copy c)))
        else ret ()
    | None => set_attr self (set_best_ever (Some (copy c)))
    end h1 = (set_objs (<[self := e2]> (objs h1)) h1, Return tt)).
  { subst e2. unfold new_best. destruct (best_ever e) as [b|] eqn:Hb.
    - case_bool_decide.
      + by rewrite (set_attr_eq _ _ _ _ He1).
      + rewrite <- Hb, set_best_ever_same, insert_id by done. by destruct h1.
    - by rewrite (set_attr_eq _ _ _ _ He1). }
  rewrite (bind_return _ _ _ _ _ Hbest).
  set (h2 := set_objs (<[self := e2]> (objs h1)) h1).
  assert (He2 : objs h2 !! self = Some e2) by (subst h2; simpl; by rewrite lookup_insert_eq).
  rewrite (bind_return _ _ _ _ _ (get_attr_eq self id h2 e2 He2)).
  unfold generation_end, progress. simpl.
  destruct (bool_decide (verbose_every e ≠ 0) && bool_decide (iteration e `mod` verbose_every e = 0)
            && bool_decide (1 < iteration e)) eqn:Hprint.
  - unfold print at 1. unfold bind at 1.
    erewrite bind_return; [|apply get_attr_eq; simpl; apply lookup_insert_eq].
    unfold read_hist, write_hist, bind. simpl. by rewrite Hp1.
  - unfold ret at 1. unfold bind at 1.
    erewrite bind_return; [|apply get_attr_eq; simpl; apply lookup_insert_eq].
    unfold read_hist, write_hist, bind. simpl. rewrite app_nil_r. by destruct h1.
Qed.

(** ** The loop of [evolve] *)

Ltac static := unfold same_static in *; simpl in *; intuition congruence.

Lemma same_static_refl e : same_static e e.
Proof. static. Qed.

Lemma same_static_trans e1 e2 e3 :
  same_static e1 e2 -> same_static e2 e3 -> same_static e1 e3.
Proof. static. Qed.

Lemma generation_body_spec self i h e :
  objs h !! self = Some e ->
  let e1 := set_iteration i e in
  let h1 := set_objs (<[self := e1]> (objs h)) h in
  exists h2, stages_done h1 e1 h2 /\
    bind (set_attr self (set_iteration i))
      (fun _ => bind (get_attr self individuals)
         (fun inds => Environment_execute self inds)) h =
      match last (after_stages h1 e1).2 with
      | None => (h2, Raise NoIndividualsAtEndOfRun)
      | Some rep => (generation_end self e1 rep h2, Return tt)
      end.
Proof.
  intros He e1 h1.
  rewrite (bind_return _ _ _ _ _ (set_attr_eq self _ h e He)). fold e1 h1.
  assert (He1 : objs h1 !! self = Some e1) by (subst h1; simpl; by rewrite lookup_insert_eq).
  rewrite (bind_return _ _ _ _ _ (get_attr_eq self individuals h1 e1 He1)).
  apply execute_spec, He1.
Qed.

Lemma evolve_loop_spec self : forall n a h e h' out,
  objs h !! self = Some e ->
  for_each (Z.of_nat <$> seq a n) (fun i =>
    bind (set_attr self (set_iteration i))
      (fun _ => bind (get_attr self individuals)
         (fun inds => Environment_execute self inds))) h = (h', out) ->
  exists e' fits,
    objs h' = <[self := e']> (objs h) /\ same_static e e' /\
    hists h' !!! history e = hists h !!! history e ++ fits /\
    only_at (history e) (hists h) (hists h') /\
    only_at (individuals e) (pops h) (pops h') /\
    (length fits <= n)%nat /\
    (out = Return tt ->
       length fits = n /\ completed_generations self (Z.of_nat a) fits h h') /\
    (forall x, out = Raise x -> x = NoIndividualsAtEndOfRun).
Proof.
  induction n as [|n IH]; intros a h e h' out He Hloop.
  - simpl in Hloop. injection Hloop as <- <-.
    exists e, []. rewrite insert_id, app_nil_r by done.
    repeat split; auto using same_static_refl; try done. constructor.
  - simpl in Hloop. unfold bind at 1 in Hloop.
    destruct (generation_body_spec self (Z.of_nat a) h e He) as (h2 & Hdone & Hbody).
    cbv zeta in Hbody, Hdone. rewrite Hbody in Hloop.
    set (e1 := set_iteration (Z.of_nat a) e) in *.
    set (h1 := set_objs (<[self := e1]> (objs h)) h) in *.
    destruct Hdone as (Ho2 & Hh2 & Hs2 & Hw2 & Hp2 & Hfr2).
    destruct (last (after_stages h1 e1).2) as [rep|] eqn:Hlast.
    + set (h3 := generation_end self e1 rep h2) in *.
      set (e3 := set_best_ever (new_best (best_ever e1) rep) e1) in *.
      assert (He3 : objs h3 !! self = Some e3)
        by (subst h3; simpl; by rewrite lookup_insert_eq).
      destruct (IH (S a) h3 e3 h' out He3 Hloop)
        as (e' & fits & Ho & Hst & Hh & Hfh & Hfp & Hlen & Hret & Hraise).
      exists e', (fitness rep :: fits).
      split; [|split; [|split; [|split; [|split; [|split; [|split]]]]]].
      * rewrite Ho. subst h3. simpl. rewrite Ho2. subst h1. simpl.
        by rewrite !insert_insert_eq.
      * eapply same_static_trans; [|exact Hst]. subst e3 e1. static.
      * change (history e3) with (history e) in Hh. rewrite Hh.
        subst h3. simpl. rewrite lookup_total_insert_eq, Hh2.
        subst h1. simpl. by rewrite <- app_assoc.
      * eapply only_at_trans; [|exact Hfh]. subst h3. simpl.
        apply only_at_insert. rewrite Hh2. apply only_at_refl.
      * eapply only_at_trans; [|exact Hfp]. exact Hfr2.
      * simpl. lia.
      * intros ->. destruct Hret as [Hl Hc]; [done|]. split; [simpl; by rewrite Hl|].
        eapply (one_more_generation self (Z.of_nat a) h h1 h3 h' e1 rep fits).
        -- by apply set_attr_eq.
        -- subst h1. simpl. by rewrite lookup_insert_eq.
        -- rewrite (bind_return _ _ _ _ _ (set_attr_eq self _ h e He)) in Hbody.
           fold e1 h1 in Hbody.
           erewrite bind_return in Hbody;
             [|apply get_attr_eq; subst h1; simpl; apply lookup_insert_eq].
           exact Hbody.
        -- change (last (pops h2 !!! individuals e1) = Some rep). by rewrite Hp2.
        -- by replace (Z.of_nat a + 1) with (Z.of_nat (S a)) by lia.
      * exact Hraise.
    + injection Hloop as <- <-.
      exists e1, []. rewrite app_nil_r.
      split; [|split; [|split; [|split; [|split; [|split; [|split]]]]]].
      all: try done.
      all: try (simpl; lia).
      * by rewrite Hh2.
      * rewrite Hh2. apply only_at_refl.
      * by intros x [= <-].
Qed.

(** ** [Environment.evolve] *)

Lemma evolve_deactivated self gens h e :
  objs h !! self = Some e -> deactivated e = true ->
  Environment_evolve self gens h = (h, Return (OnlyIndividuals (individuals e))).
Proof.
  intros He Hoff. unfold Environment_evolve.
  rewrite (bind_return _ _ _ _ _ (get_attr_eq self deactivated h e He)), Hoff.
  by rewrite (bind_return _ _ _ _ _ (get_attr_eq self individuals h e He)).
Qed.

Lemma evolve_active self gens h e :
  objs h !! self = Some e -> deactivated e = false ->
  let h0 := set_objs (<[self := set_generations gens e]> (objs h)) h in
  Environment_evolve self gens h =
    bind (for_each (range gens) (fun i =>
            bind (set_attr self (set_iteration i))
              (fun _ => bind (get_attr self individuals)
                 (fun inds => Environment_execute self inds))))
      (fun _ => bind (get_attr self individuals) (fun inds =>
         bind (get_attr self history) (fun hist =>
           ret (IndividualsAndHistory inds hist)))) h0.
Proof.
  intros He Hon h0. unfold Environment_evolve.
  rewrite (bind_return _ _ _ _ _ (get_attr_eq self deactivated h e He)), Hon.
  rewrite (bind_return _ _ _ _ _ (set_attr_eq self _ h e He)). fold h0.
  erewrite bind_return; [|apply get_attr_eq; subst h0; simpl; apply lookup_insert_eq].
  reflexivity.
Qed.

(** What a call of [evolve] on an active environment does, whatever its
    outcome. *)
Lemma evolve_spec self gens h e h' out :
  objs h !! self = Some e -> deactivated e = false ->
  Environment_evolve self gens h = (h', out) ->
  exists e' fits,
    objs h' = <[self := e']> (objs h) /\ same_static e e' /\
    hists h' !!! history e = hists h !!! history e ++ fits /\
    only_at (history e) (hists h) (hists h') /\
    only_at (individuals e) (pops h) (pops h') /\
    (forall r, out = Return r ->
       r = IndividualsAndHistory (individuals e) (history e) /\
       length fits = Z.to_nat gens /\
       completed_generations self 0 fits
         (set_objs (<[self := set_generations gens e]> (objs h)) h) h') /\
    (forall x, out = Raise x -> x = NoIndividualsAtEndOfRun).
Proof.
  intros He Hon Hev. rewrite (evolve_active self gens h e He Hon) in Hev.
  cbv zeta in Hev.
  set (e0 := set_generations gens e) in *.
  set (h0 := set_objs (<[self := e0]> (objs h)) h) in *.
  assert (He0 : objs h0 !! self = Some e0)
    by (subst h0; simpl; by rewrite lookup_insert_eq).
  unfold bind at 1 in Hev.
  destruct (for_each _ _ h0) as [h1 [[]|x]] eqn:Hloop.
  - destruct (evolve_loop_spec self _ 0%nat h0 e0 h1 (Return tt) He0 Hloop)
      as (e' & fits & Ho & Hst & Hh & Hfh & Hfp & Hlen & Hret & Hraise).
    destruct Hret as [Hl Hc]; [done|].
    assert (He1 : objs h1 !! self = Some e') by (by rewrite Ho, lookup_insert_eq).
    rewrite (bind_return _ _ _ _ _ (get_attr_eq self individuals h1 e' He1)) in Hev.
    rewrite (bind_return _ _ _ _ _ (get_attr_eq self history h1 e' He1)) in Hev.
    injection Hev as <- <-.
    exists e', fits. split; [|split; [|split; [|split; [|split; [|split]]]]].
    + rewrite Ho. subst h0. simpl. by rewrite insert_insert_eq.
    + eapply same_static_trans; [|exact Hst]. subst e0. static.
    + exact Hh.
    + exact Hfh.
    + exact Hfp.
    + intros r [= <-]. split; [|split].
      * f_equal; subst e0; static.
      * exact Hl.
      * exact Hc.
    + intros x [=].
  - injection Hev as <- <-.
    destruct (evolve_loop_spec self _ 0%nat h0 e0 h1 (Raise x) He0 Hloop)
      as (e' & fits & Ho & Hst & Hh & Hfh & Hfp & Hlen & Hret & Hraise).
    exists e', fits. split; [|split; [|split; [|split; [|split; [|split]]]]].
    + rewrite Ho. subst h0. simpl. by rewrite insert_insert_eq.
    + eapply same_static_trans; [|exact Hst]. subst e0. static.
    + exact Hh.
    + exact Hfh.
    + exact Hfp.
    + intros r [=].
    + intros x' [= <-]. by apply Hraise.
Qed.

(** When the stages never empty the population, the loop completes. *)
Lemma evolve_loop_returns self e0 : forall n a h e,
  never_empties e0 -> layers e = layers e0 -> callback e = callback e0 ->
  objs h !! self = Some e ->
  exists h',
    for_each (Z.of_nat <$> seq a n) (fun i =>
      bind (set_attr self (set_iteration i))
        (fun _ => bind (get_attr self individuals)
           (fun inds => Environment_execute self inds))) h = (h', Return tt).
Proof.
  induction n as [|n IH]; intros a h e Hne Hl Hc He.
  - by exists h.
  - simpl. unfold bind at 1.
    destruct (generation_body_spec self (Z.of_nat a) h e He) as (h2 & Hdone & Hbody).
    cbv zeta in Hbody. rewrite Hbody. clear Hbody.
    set (e1 := set_iteration (Z.of_nat a) e) in *.
    set (h1 := set_objs (<[self := e1]> (objs h)) h) in *.
    destruct (last (after_stages h1 e1).2) as [rep|] eqn:Hlast.
    + eapply (IH _ _ (set_best_ever (new_best (best_ever e1) rep) e1)); try done.
      simpl. by rewrite lookup_insert_eq.
    + exfalso. apply last_None in Hlast. by apply (Hne h1 e1).
Qed.

(** C8.  [evolve] on a deactivated environment returns the population it
    already holds and changes nothing: the store after the call is the store
    before it, so the fitness history, the iteration index and the contents
    of the population are exactly what they were. *)
Theorem evolve_deactivated_is_noop self gens h e :
  objs h !! self = Some e -> deactivated e = true ->
  exists h',
    Environment_evolve self gens h = (h', Return (OnlyIndividuals (individuals e))) /\
    h' = h /\
    objs h' !! self = Some e /\
    hists h' !!! history e = hists h !!! history e /\
    pops h' !!! individuals e = pops h !!! individuals e.
Proof.
  intros He Hoff. exists h. by rewrite (evolve_deactivated self gens h e He Hoff).
Qed.

(** C1.  On an environment that is not deactivated and whose stages (and
    callback) never leave the population empty, [evolve(N)] returns the
    population and the history after exactly N generation steps, run one
    after the other with the loop index 0, 1, ..., N-1; each step appended
    its representative fitness to the history, whose length is therefore N
    plus the length it had before the call. *)
Theorem evolve_runs_exactly_n_generations self gens h e :
  objs h !! self = Some e -> deactivated e = false -> never_empties e ->
  0 <= gens ->
  exists h' fits,
    Environment_evolve self gens h
      = (h', Return (IndividualsAndHistory (individuals e) (history e))) /\
    completed_generations self 0 fits
      (set_objs (<[self := set_generations gens e]> (objs h)) h) h' /\
    Z.of_nat (length fits) = gens /\
    hists h' !!! history e = hists h !!! history e ++ fits /\
    Z.of_nat (length (hists h' !!! history e))
      = gens + Z.of_nat (length (hists h !!! history e)).
Proof.
  intros He Hon Hne Hgens.
  set (e0 := set_generations gens e).
  set (h0 := set_objs (<[self := e0]> (objs h)) h).
  assert (He0 : objs h0 !! self = Some e0)
    by (subst h0; simpl; by rewrite lookup_insert_eq).
  destruct (evolve_loop_returns self e (Z.to_nat gens) 0%nat h0 e0 Hne eq_refl eq_refl He0)
    as (h1 & Hloop).
  destruct (evolve_loop_spec self _ 0%nat h0 e0 h1 (Return tt) He0 Hloop)
    as (e' & fits & Ho & Hst & Hh & Hfh & Hfp & Hlen & Hret & Hraise).
  destruct Hret as [Hl Hc]; [done|].
  assert (He1 : objs h1 !! self = Some e') by (by rewrite Ho, lookup_insert_eq).
  exists h1, fits. split; [|split; [|split; [|split]]].
  - rewrite (evolve_active self gens h e He Hon). cbv zeta. fold e0 h0.
    unfold range. rewrite (bind_return _ _ _ _ _ Hloop).
    rewrite (bind_return _ _ _ _ _ (get_attr_eq self individuals h1 e' He1)).
    rewrite (bind_return _ _ _ _ _ (get_attr_eq self history h1 e' He1)).
    unfold ret. do 3 f_equal; subst e0; static.
  - exact Hc.
  - lia.
  - exact Hh.
  - change (history e0) with (history e) in Hh.
    change (hists h0) with (hists h) in Hh. rewrite Hh, length_app. lia.
Qed.

(** ** A generation that empties the population *)

Lemma loop_raises_on_empty self fits : forall i h hk,
  completed_generations self i fits h hk ->
  forall a n ek, i = Z.of_nat a ->
  (length fits < n)%nat ->
  objs hk !! self = Some ek ->
  let e1 := set_iteration (Z.of_nat a + Z.of_nat (length fits)) ek in
  let h1 := set_objs (<[self := e1]> (objs hk)) hk in
  (after_stages h1 e1).2 = [] ->
  exists h',
    for_each (Z.of_nat <$> seq a n) (fun i =>
      bind (set_attr self (set_iteration i))
        (fun _ => bind (get_attr self individuals)
           (fun inds => Environment_execute self inds))) h
      = (h', Raise NoIndividualsAtEndOfRun) /\
    Environment_execute self (individuals e1) h1 = (h', Raise NoIndividualsAtEndOfRun) /\
    stages_done h1 e1 h'.
Proof.
  induction 1 as [i h|i h h1 h2 h3 e rep fits Hset He Hex Hlast Hrest IH];
    intros a n ek -> Hlen Hek e1 h1' Hempty.
  - destruct n as [|n]; [simpl in Hlen; lia|].
    subst e1 h1'. simpl length in *. rewrite Z.add_0_r in *.
    set (e1 := set_iteration (Z.of_nat a) ek) in *.
    set (h1 := set_objs (<[self := e1]> (objs h)) h) in *.
    assert (He1 : objs h1 !! self = Some e1)
      by (subst h1; simpl; by rewrite lookup_insert_eq).
    destruct (execute_spec self (individuals e1) h1 e1 He1) as (h2 & Hdone & Hex).
    rewrite Hempty in Hex. simpl in Hex.
    exists h2. split; [|by split].
    simpl. apply bind_raise.
    rewrite (bind_return _ _ _ _ _ (set_attr_eq self _ h ek Hek)). fold e1 h1.
    by rewrite (bind_return _ _ _ _ _ (get_attr_eq self individuals h1 e1 He1)).
  - destruct n as [|n]; [simpl in Hlen; lia|].
    destruct (IH (S a) n ek ltac:(lia) ltac:(simpl in Hlen; lia) Hek) as (h' & Hloop & Hstep).
    { replace (Z.of_nat (S a) + Z.of_nat (length fits))
        with (Z.of_nat a + Z.of_nat (length (fitness rep :: fits))) by (simpl; lia).
      exact Hempty. }
    replace (Z.of_nat (S a) + Z.of_nat (length fits))
      with (Z.of_nat a + Z.of_nat (length (fitness rep :: fits))) in Hstep by (simpl; lia).
    exists h'. split; [|exact Hstep].
    simpl. erewrite bind_return; [exact Hloop|].
    rewrite (bind_return _ _ _ _ _ Hset).
    by rewrite (bind_return _ _ _ _ _ (get_attr_eq self individuals h1 e He)).
Qed.

(** C3.  When, after some completed generations of a call [evolve(N)], the
    stages and the callback of the next generation leave the population
    empty, that generation step raises [NoIndividualsAtEndOfRun]; the loop
    stops there and [evolve] raises the same error to its caller.  In the
    store the error leaves behind, the histories are those recorded by the
    completed generations (nothing was appended) and the best-ever snapshot
    is the one they left. *)
Theorem empty_population_raises self gens h e fits hk ek :
  objs h !! self = Some e -> deactivated e = false ->
  completed_generations self 0 fits
    (set_objs (<[self := set_generations gens e]> (objs h)) h) hk ->
  (length fits < Z.to_nat gens)%nat ->
  objs hk !! self = Some ek ->
  let e1 := set_iteration (Z.of_nat (length fits)) ek in
  let h1 := set_objs (<[self := e1]> (objs hk)) hk in
  (after_stages h1 e1).2 = [] ->
  exists h',
    Environment_execute self (individuals e1) h1 = (h', Raise NoIndividualsAtEndOfRun) /\
    Environment_evolve self gens h = (h', Raise NoIndividualsAtEndOfRun) /\
    hists h' = hists hk /\
    (exists e', objs h' !! self = Some e' /\ best_ever e' = best_ever ek /\
                history e' = history ek).
Proof.
  intros He Hon Hdone Hlen Hek e1 h1 Hempty.
  destruct (loop_raises_on_empty self fits 0 _ hk Hdone 0%nat (Z.to_nat gens) ek
              eq_refl Hlen Hek Hempty) as (h' & Hloop & Hstep & Hst).
  exists h'. split; [exact Hstep|]. split; [|split].
  - rewrite (evolve_active self gens h e He Hon). cbv zeta.
    by apply bind_raise.
  - destruct Hst as (_ & -> & _). done.
  - destruct Hst as (-> & _). exists e1. split; [|done].
    simpl. by rewrite lookup_insert_eq.
Qed.

(** ** The best-ever snapshot *)

Lemma max_of_snoc l x :
  max_of (l ++ [x]) = Some (match max_of l with Some m => Z.max m x | None => x end).
Proof.
  destruct l as [|y l]; [done|]. simpl. by rewrite foldl_app.
Qed.

Lemma fitness_new_best best rep reps :
  fitness <$> best = max_of reps ->
  fitness <$> new_best best rep = max_of (reps ++ [fitness rep]).
Proof.
  intros Hinv. rewrite max_of_snoc, <- Hinv. unfold new_best.
  destruct best as [b|]; simpl; [|done].
  case_bool_decide; simpl; f_equal; lia.
Qed.

(** After a generation step that returns, the object is the one the step
    found, with the new snapshot; the representative is the last candidate
    the stages left. *)
Lemma execute_returns self inds h h' e :
  objs h !! self = Some e ->
  Environment_execute self inds h = (h', Return tt) ->
  exists rep,
    last (pops h' !!! individuals e) = Some rep /\
    objs h' = <[self := set_best_ever (new_best (best_ever e) rep) e]> (objs h) /\
    hists h' = <[history e := hists h !!! history e ++ [fitness rep]]> (hists h) /\
    only_at (individuals e) (pops h) (pops h').
Proof.
  intros He Hex.
  destruct (execute_spec self inds h e He) as (h1 & Hdone & Hspec).
  rewrite Hspec in Hex. destruct Hdone as (Ho & Hh & Hs & Hw & Hp & Hfr).
  destruct (last (after_stages h e).2) as [rep|] eqn:Hlast; [|discriminate].
  injection Hex as <-. exists rep. simpl. rewrite Hp, Ho, Hh. done.
Qed.

Lemma execute_raises self inds h h' x e :
  objs h !! self = Some e ->
  Environment_execute self inds h = (h', Raise x) ->
  x = NoIndividualsAtEndOfRun /\ objs h' = objs h /\ hists h' = hists h /\
  only_at (individuals e) (pops h) (pops h').
Proof.
  intros He Hex.
  destruct (execute_spec self inds h e He) as (h1 & Hdone & Hspec).
  rewrite Hspec in Hex. destruct Hdone as (Ho & Hh & Hs & Hw & Hp & Hfr).
  destruct (last (after_stages h e).2) as [rep|] eqn:Hlast; [discriminate|].
  by injection Hex as <- <-.
Qed.

Lemma lifetime_invariant self h reps :
  lifetime self h reps ->
  exists e, objs h !! self = Some e /\ fitness <$> best_ever e = max_of reps.
Proof.
  induction 1 as [h e He Hb|h h' inds e' rep reps Hlife IH Hex He' Hlast
                  |h h' reps Hlife IH Hsame].
  - exists e. by rewrite Hb.
  - destruct IH as (e & He & Hinv).
    destruct (execute_returns self inds h h' e He Hex) as (rep' & Hlast' & Ho & _).
    rewrite Ho, lookup_insert_eq in He'. injection He' as <-.
    simpl in Hlast. rewrite Hlast' in Hlast. injection Hlast as ->.
    eexists. split; [by rewrite Ho, lookup_insert_eq|].
    simpl. by apply fitness_new_best.
  - destruct IH as (e & He & Hinv). rewrite He in Hsame. simpl in Hsame.
    destruct (objs h' !! self) as [e'|]; [|discriminate].
    injection Hsame as Hsame. exists e'. by rewrite Hsame.
Qed.

(** C2.  At every point of the life of an environment the fitness of the
    best-ever snapshot is the maximum of the representative fitness values
    of all generations completed so far (there is no snapshot exactly when
    none has completed).  A generation step that returns replaces the
    snapshot by a clone of its representative, the last candidate of the
    population, when there was no snapshot or when the representative's
    fitness is strictly greater than the snapshot's; otherwise (ties
    included) the snapshot stays.  The snapshot's fitness therefore never
    decreases, and after the step it is again the maximum over all
    completed generations. *)
Theorem best_ever_is_running_maximum self h reps inds h' :
  lifetime self h reps ->
  Environment_execute self inds h = (h', Return tt) ->
  exists e e' rep,
    objs h !! self = Some e /\ objs h' !! self = Some e' /\
    last (pops h' !!! individuals e') = Some rep /\
    fitness <$> best_ever e = max_of reps /\
    best_ever e' = Some
      match best_ever e with
      | None => copy rep
      | Some b => if bool_decide (fitness b < fitness rep) then copy rep else b
      end /\
    (forall b, best_ever e = Some b -> fitness rep <= fitness b -> best_ever e' = Some b) /\
    (forall b b', best_ever e = Some b -> best_ever e' = Some b' ->
       fitness b <= fitness b') /\
    fitness <$> best_ever e' = max_of (reps ++ [fitness rep]) /\
    lifetime self h' (reps ++ [fitness rep]).
Proof.
  intros Hlife Hex.
  destruct (lifetime_invariant self h reps Hlife) as (e & He & Hinv).
  destruct (execute_returns self inds h h' e He Hex) as (rep & Hlast & Ho & _).
  set (e' := set_best_ever (new_best (best_ever e) rep) e).
  assert (He' : objs h' !! self = Some e') by (by rewrite Ho, lookup_insert_eq).
  exists e, e', rep. split; [done|]. split; [done|]. split; [done|]. split; [done|].
  split; [|split; [|split; [|split]]].
  - simpl. unfold new_best. destruct (best_ever e) as [b|]; [|done].
    by case_bool_decide.
  - intros b Hb Hle. simpl. rewrite Hb. simpl.
    rewrite bool_decide_eq_false_2; [done|lia].
  - intros b b' Hb. simpl. rewrite Hb. simpl.
    case_bool_decide; intros [= <-]; simpl; lia.
  - simpl. by apply fitness_new_best.
  - by eapply life_generation.
Qed.

(** The other statements of the program fit the life of an environment:
    an assignment to an attribute other than [best_ever], of this or of
    another object, a generation step that raises, and a whole call of
    [evolve]. *)
Lemma lifetime_assign self r assign h h' reps :
  (forall ee, best_ever (assign ee) = best_ever ee) ->
  lifetime self h reps -> set_attr r assign h = (h', Return tt) ->
  lifetime self h' reps.
Proof.
  intros Hassign Hlife Hset. apply (life_other self h h' reps Hlife).
  unfold set_attr in Hset. destruct (objs h !! r) as [ee|] eqn:Hr; [|discriminate].
  injection Hset as <-. simpl. destruct (decide (self = r)) as [->|Hne].
  - rewrite lookup_insert_eq, Hr. simpl. by rewrite Hassign.
  - by rewrite lookup_insert_ne.
Qed.

Lemma lifetime_execute_raises self inds h h' x reps :
  lifetime self h reps -> Environment_execute self inds h = (h', Raise x) ->
  lifetime self h' reps.
Proof.
  intros Hlife Hex. destruct (lifetime_invariant self h reps Hlife) as (e & He & _).
  destruct (execute_raises self inds h h' x e He Hex) as (_ & Ho & _).
  apply (life_other self h h' reps Hlife). by rewrite Ho.
Qed.

Lemma lifetime_loop self : forall n a h h' out reps,
  lifetime self h reps ->
  for_each (Z.of_nat <$> seq a n) (fun i =>
    bind (set_attr self (set_iteration i))
      (fun _ => bind (get_attr self individuals)
         (fun inds => Environment_execute self inds))) h = (h', out) ->
  exists fits, lifetime self h' (reps ++ fits).
Proof.
  induction n as [|n IH]; intros a h h' out reps Hlife Hloop.
  - injection Hloop as <- <-. exists []. by rewrite app_nil_r.
  - destruct (lifetime_invariant self h reps Hlife) as (e & He & _).
    simpl in Hloop. unfold bind at 1 in Hloop.
    rewrite (bind_return _ _ _ _ _ (set_attr_eq self _ h e He)) in Hloop.
    set (h1 := set_objs (<[self := set_iteration (Z.of_nat a) e]> (objs h)) h) in *.
    assert (He1 : objs h1 !! self = Some (set_iteration (Z.of_nat a) e))
      by (subst h1; simpl; by rewrite lookup_insert_eq).
    assert (Hlife1 : lifetime self h1 reps).
    { apply (lifetime_assign self self (set_iteration (Z.of_nat a)) h h1 reps); try done.
      by apply set_attr_eq. }
    rewrite (bind_return _ _ _ _ _ (get_attr_eq self individuals h1 _ He1)) in Hloop.
    destruct (Environment_execute self _ h1) as [h2 [[]|x]] eqn:Hex.
    + destruct (execute_returns self _ h1 h2 _ He1 Hex) as (rep & Hlast & Ho & _).
      assert (Hlife2 : lifetime self h2 (reps ++ [fitness rep])).
      { eapply (life_generation self h1 h2 _ _ rep reps Hlife1 Hex).
        - by rewrite Ho, lookup_insert_eq.
        - exact Hlast. }
      destruct (IH (S a) h2 h' out _ Hlife2 Hloop) as [fits Hfits].
      exists (fitness rep :: fits). by rewrite <- app_assoc in Hfits.
    + injection Hloop as <- <-. exists []. rewrite app_nil_r.
      by eapply lifetime_execute_raises.
Qed.

Lemma lifetime_evolve self gens h h' out reps :
  lifetime self h reps -> Environment_evolve self gens h = (h', out) ->
  exists fits, lifetime self h' (reps ++ fits).
Proof.
  intros Hlife Hev. destruct (lifetime_invariant self h reps Hlife) as (e & He & _).
  destruct (deactivated e) eqn:Hoff.
  - rewrite (evolve_deactivated self gens h e He Hoff) in Hev. injection Hev as <- <-.
    exists []. by rewrite app_nil_r.
  - rewrite (evolve_active self gens h e He Hoff) in Hev. cbv zeta in Hev.
    unfold bind at 1 in Hev.
    destruct (for_each _ _ _) as [h1 out1] eqn:Hloop.
    eapply (lifetime_loop self _ 0%nat) in Hloop as [fits Hfits].
    2: { apply (life_other self h _ reps Hlife). simpl.
         by rewrite lookup_insert_eq, He. }
    exists fits. destruct out1 as [[]|x]; [|by injection Hev as <- <-].
    destruct (lifetime_invariant self h1 _ Hfits) as (e1 & He1 & _).
    rewrite (bind_return _ _ _ _ _ (get_attr_eq self individuals h1 e1 He1)) in Hev.
    rewrite (bind_return _ _ _ _ _ (get_attr_eq self history h1 e1 He1)) in Hev.
    by injection Hev as <- <-.
Qed.

(** ** Constructors *)

(** C9.  Constructing an environment without a list of stages raises
    [TypeError], whatever the other arguments and the store: the
    constructor iterates over [layers], which is [None].  The constructors
    of [ChronologicalEnvironment] and [AdaptiveEnvironment] call the base
    constructor that way, so they raise on every input and leave the store
    as it was: no object is created. *)
Theorem constructors_without_layers_raise nm verbose dev stages envs sw gf h :
  Environment_init None nm verbose dev h = (h, Raise TypeError) /\
  ChronologicalEnvironment_init stages nm h = (h, Raise TypeError) /\
  AdaptiveEnvironment_init envs sw gf nm h = (h, Raise TypeError).
Proof. done. Qed.

(** ** [compile] of the composite environments *)

Lemma compile_loop_raises {A} (proj : A -> ref) verbose (l : list A) h :
  (forall x, x ∈ l -> is_Some (objs h !! proj x)) ->
  (exists x ee, x ∈ l /\ objs h !! proj x = Some ee /\ compiled ee = false) ->
  for_each l (fun x =>
    let environment := proj x in
    bind (get_attr environment compiled) (fun done =>
      if negb done
      then call_compile environment None None None (Some verbose)
      else ret tt)) h = (h, Raise TypeError).
Proof.
  induction l as [|x l IH]; intros Hvalid (y & ee & Hy & Hee & Hc).
  - by apply elem_of_nil in Hy.
  - simpl. destruct (Hvalid x) as [ex Hex]; [by left|].
    unfold bind at 1.
    rewrite (bind_return _ _ _ _ _ (get_attr_eq (proj x) compiled h ex Hex)).
    destruct (compiled ex) eqn:Hcx; simpl; [|done].
    apply IH.
    + intros z Hz. apply Hvalid. by right.
    + apply elem_of_cons in Hy as [->|Hy]; [congruence|]. by exists y, ee.
Qed.

(** ** [Adversarial.evolve] *)

(** [max] returns the first element that no other element exceeds. *)
Lemma max_from_first_maximum {T} (key : T -> Z) (l : list T) : forall best,
  exists i, (best :: l) !! i = Some (max_from key best l) /\
    (forall j r, (best :: l) !! j = Some r -> key r <= key (max_from key best l)) /\
    (forall j r, (j < i)%nat -> (best :: l) !! j = Some r ->
       key r < key (max_from key best l)).
Proof.
  induction l as [|x l IH]; intros best.
  - exists 0%nat. simpl. split; [done|]. split.
    + intros [|j] r Hr; simplify_eq/=; lia.
    + intros j r Hj. lia.
  - simpl. destruct (IH (if bool_decide (key best < key x) then x else best))
      as (i & Hi & Hmax & Hfirst).
    set (b := max_from key _ l) in *.
    case_bool_decide as Hlt.
    + (* [x] replaces [best] *)
      exists (S i). split; [exact Hi|]. split.
      * intros [|j] r Hr; [|by apply (Hmax j)].
        simplify_eq/=. specialize (Hmax 0%nat x eq_refl). lia.
      * intros [|j] r Hj Hr; [|apply (Hfirst j); [lia|done]].
        simplify_eq/=. specialize (Hmax 0%nat x eq_refl). lia.
    + (* [best] stays *)
      destruct i as [|i].
      * exists 0%nat. split; [exact Hi|]. split.
        -- intros [|[|j]] r Hr.
           ++ by apply (Hmax 0%nat).
           ++ simplify_eq/=. specialize (Hmax 0%nat best eq_refl). lia.
           ++ by apply (Hmax (S j)).
        -- intros j r Hj. lia.
      * exists (S (S i)). split; [exact Hi|]. split.
        -- intros [|[|j]] r Hr.
           ++ by apply (Hmax 0%nat).
           ++ simplify_eq/=. specialize (Hmax 0%nat best eq_refl). lia.
           ++ by apply (Hmax (S j)).
        -- intros [|[|j]] r Hj Hr.
           ++ apply (Hfirst 0%nat); [lia|done].
           ++ simplify_eq/=. specialize (Hfirst 0%nat best ltac:(lia) eq_refl). lia.
           ++ apply (Hfirst (S j)); [lia|done].
Qed.

Lemma adversarial_loop_spec self gens envs h results h' :
  adversarial_runs self gens envs h results h' ->
  length results = length envs /\
  forall acc, exists plots,
    fold_each envs acc (Adversarial_evolve_body self gens) h
      = (h', Return (acc.1 ++ results, plots)).
Proof.
  induction 1 as [h|env envs h h1 h2 h3 h4 h5 start_time end_time inds hist nm top
                    results Hstart Hev Hend Hnm Htop Hcb Hrest [IHlen IH]].
  - split; [done|]. intros acc. exists acc.2. simpl. rewrite app_nil_r. by destruct acc.
  - split; [simpl; by rewrite IHlen|]. intros acc.
    destruct (IH (acc.1 ++ [(nm, top, end_time - start_time)],
                  acc.2 ++ [((nm, top, end_time - start_time), hist)])) as [plots Hfold].
    exists plots. simpl fold_each. erewrite bind_return.
    + rewrite Hfold. simpl. by rewrite <- app_assoc.
    + unfold Adversarial_evolve_body.
      rewrite (bind_return _ _ _ _ _ Hstart), (bind_return _ _ _ _ _ Hev).
      simpl unpack_pair. unfold ret at 1. unfold bind at 1.
      rewrite (bind_return _ _ _ _ _ Hend).
      destruct (objs h3 !! env) as [ee|] eqn:Hee; [|discriminate].
      injection Hnm as Hnm.
      rewrite (bind_return _ _ _ _ _ (get_attr_eq env name h3 ee Hee)), Hnm.
      unfold read_hist at 1. unfold bind at 1.
      unfold last_item. rewrite Htop. unfold ret at 1. unfold bind at 1.
      by rewrite (bind_return _ _ _ _ _ Hcb).
Qed.

(** ** What [Environment.evolve] leaves alone *)

Lemma evolve_invalid env gens h :
  objs h !! env = None ->
  Environment_evolve env gens h = (h, Raise InvalidReference).
Proof.
  intros Hnone. unfold Environment_evolve, bind, get_attr. by rewrite Hnone.
Qed.

(** Whatever its outcome, a call of [evolve] on [env] changes no other
    object, none of the attributes of [env] but [generations], [iteration]
    and [best_ever], and no list but the population and the history of
    [env]. *)
Lemma evolve_frame env gens h h' out :
  Environment_evolve env gens h = (h', out) ->
  (forall r ee, objs h !! r = Some ee ->
     exists ee', objs h' !! r = Some ee' /\ same_static ee ee' /\ (r ≠ env -> ee' = ee)) /\
  (forall ee, objs h !! env = Some ee ->
     only_at (history ee) (hists h) (hists h') /\
     only_at (individuals ee) (pops h) (pops h')) /\
  (objs h !! env = None -> h' = h).
Proof.
  intros Hev. destruct (objs h !! env) as [e|] eqn:He.
  2: { rewrite (evolve_invalid env gens h He) in Hev. injection Hev as <- <-.
       repeat split; try done. intros r ee Hr. exists ee. auto using same_static_refl. }
  destruct (deactivated e) eqn:Hoff.
  - rewrite (evolve_deactivated env gens h e He Hoff) in Hev. injection Hev as <- <-.
    split; [|split; [|done]].
    + intros r ee Hr. exists ee. auto using same_static_refl.
    + intros ee [= <-]. split; apply only_at_refl.
  - destruct (evolve_spec env gens h e h' out He Hoff Hev)
      as (e' & fits & Ho & Hst & Hh & Hfh & Hfp & _).
    split; [|split; [|done]].
    + intros r ee Hr. destruct (decide (r = env)) as [->|Hne].
      * rewrite He in Hr. injection Hr as <-. exists e'.
        rewrite Ho, lookup_insert_eq. done.
      * exists ee. rewrite Ho, lookup_insert_ne by done. auto using same_static_refl.
    + by intros ee [= <-].
Qed.

(** ** The winner of [Adversarial.evolve] *)

(** The callback of a valid composite always returns: the runs of
    [runs_produce_history] are runs of [adversarial_runs]. *)
Lemma runs_notify_returns self gens envs h results h' :
  runs_produce_history self gens envs h results h' ->
  is_Some (objs h !! self) ->
  adversarial_runs self gens envs h results h'.
Proof.
  induction 1 as [h|env envs h h1 h2 h3 h5 start_time end_time inds hist nm top
                    results Hstart Hev Hend Hnm Htop Hrest IH]; intros [e He].
  - apply runs_done.
  - assert (Ho1 : objs h1 = objs h).
    { unfold now in Hstart. destruct (time_time (world h)). by injection Hstart as <- _. }
    assert (Ho3 : objs h3 = objs h2).
    { unfold now in Hend. destruct (time_time (world h2)). by injection Hend as <- _. }
    destruct (evolve_frame env gens h1 h2 _ Hev) as (Hobjs & _ & _).
    destruct (Hobjs self e ltac:(by rewrite Ho1)) as (e2 & He2 & _).
    assert (He3 : objs h3 !! self = Some e2) by (by rewrite Ho3).
    assert (Hcb : Adversarial_notify self inds h3
                    = ((Adversarial_notify self inds h3).1, Return tt)).
    { unfold Adversarial_notify.
      rewrite (bind_return _ _ _ _ _ (get_attr_eq self callback h3 e2 He3)).
      destruct (callback e2) as [f|]; [|done].
      unfold run_callback1. by destruct (f (world h3) None (pops h3 !!! inds)). }
    eapply runs_next; try done. apply IH.
    unfold Adversarial_notify.
    rewrite (bind_return _ _ _ _ _ (get_attr_eq self callback h3 e2 He3)).
    destruct (callback e2) as [f|]; [|by exists e2].
    unfold run_callback1. destruct (f (world h3) None (pops h3 !!! inds)).
    by exists e2.
Qed.

(** C5.  Over a non-empty list of sub-environments whose runs all return a
    non-empty history, [Adversarial.evolve] returns one of the recorded
    tuples (name, final history value, duration): the tuple of a
    sub-environment whose final history value no other one exceeds, and,
    among those, of the one listed first (every tuple before it has a
    strictly smaller final history value). *)
Theorem adversarial_evolve_returns_first_maximum self gens h e envs results h1 :
  objs h !! self = Some e -> subclass e = AdversarialClass envs ->
  envs ≠ [] ->
  runs_produce_history self gens envs h results h1 ->
  exists h' i env nm top duration,
    Adversarial_evolve self gens h = (h', Return (nm, top, duration)) /\
    envs !! i = Some env /\ results !! i = Some (nm, top, duration) /\
    (forall j nm' top' duration',
       results !! j = Some (nm', top', duration') -> top' <= top) /\
    (forall j nm' top' duration', (j < i)%nat ->
       results !! j = Some (nm', top', duration') -> top' < top).
Proof.
  intros He Hsub Hne Hruns.
  apply runs_notify_returns in Hruns; [|by exists e].
  destruct (adversarial_loop_spec self gens envs h results h1 Hruns) as [Hlen Hloop].
  destruct (Hloop ([], [])) as [plots Hfold]. simpl in Hfold.
  destruct results as [|first rest].
  { destruct envs; [done|discriminate]. }
  destruct (max_from_first_maximum result_fitness rest first) as (i & Hi & Hmax & Hfirst).
  destruct (lookup_lt_is_Some_2 envs i) as [env Henv].
  { rewrite <- Hlen. by eapply lookup_lt_Some. }
  destruct (max_from result_fitness first rest) as [[nm top] duration] eqn:Hbest.
  eexists _, i, env, nm, top, duration.
  split; [|split; [done|split; [done|split]]].
  - assert (Henvs : get_environments self h = (h, Return envs)).
    { unfold get_environments.
      by rewrite (bind_return _ _ _ _ _ (get_attr_eq self subclass h e He)), Hsub. }
    unfold Adversarial_evolve.
    rewrite (bind_return _ _ _ _ _ Henvs), (bind_return _ _ _ _ _ Hfold). simpl.
    rewrite Hbest.
    unfold bind, print, ret, Adversarial_plot_fitness_histories, print. reflexivity.
  - intros j nm' top' duration' Hj. apply (Hmax j _ Hj).
  - intros j nm' top' duration' Hlt Hj. apply (Hfirst j _ Hlt Hj).
Qed.

(** A call of [evolve] on another environment is one of the other
    statements in the life of [self]. *)
Lemma lifetime_evolve_other self env gens h h' out reps :
  self ≠ env -> lifetime self h reps ->
  Environment_evolve env gens h = (h', out) -> lifetime self h' reps.
Proof.
  intros Hne Hlife Hev. destruct (lifetime_invariant self h reps Hlife) as (e & He & _).
  destruct (evolve_frame env gens h h' out Hev) as (Hobjs & _).
  destruct (Hobjs self e He) as (e' & He' & _ & Hsame).
  apply (life_other self h h' reps Hlife). by rewrite He', He, (Hsame Hne).
Qed.

(** ** [AdaptiveEnvironment.switch_environment] *)




(** ** [ChronologicalEnvironment.evolve] *)


#[local] Arguments bind : simpl never.
#[local] Arguments ret : simpl never.
#[local] Arguments raise : simpl never.
#[local] Arguments get_attr : simpl never.
#[local] Arguments set_attr : simpl never.
#[local] Arguments print : simpl never.
#[local] Arguments new_hist : simpl never.
#[local] Arguments read_hist : simpl never.
#[local] Arguments write_hist : simpl never.
#[local] Arguments read_pop : simpl never.
#[local] Arguments write_pop : simpl never.
#[local] Arguments last_item : simpl never.
#[local] Arguments Environment_evolve : simpl never.

Lemma bind_ret {A B} (a : A) (k : A -> M B) h : bind (ret a) k h = k a h.
Proof. done. Qed.

Lemma bind_raise_now {A B} x (k : A -> M B) h : bind (raise x) k h = (h, Raise x).
Proof. done. Qed.

Lemma bind_print {B} ev (k : unit -> M B) h :
  bind (print ev) k h = k tt (set_stdout (stdout h ++ [ev]) h).
Proof. done. Qed.

Lemma bind_read_pop {B} r (k : list Individual -> M B) h :
  bind (read_pop r) k h = k (pops h !!! r) h.
Proof. done. Qed.

Lemma bind_read_hist {B} r (k : list Z -> M B) h :
  bind (read_hist r) k h = k (hists h !!! r) h.
Proof. done. Qed.

Lemma bind_write_pop {B} r l (k : unit -> M B) h :
  bind (write_pop r l) k h = k tt (set_pops (<[r := l]> (pops h)) h).
Proof. done. Qed.

Lemma bind_write_hist {B} r l (k : unit -> M B) h :
  bind (write_hist r l) k h = k tt (set_hists (<[r := l]> (hists h)) h).
Proof. done. Qed.

Lemma bind_new_hist {B} l (k : ref -> M B) h :
  bind (new_hist l) k h
    = k (fresh (dom (hists h))) (set_hists (<[fresh (dom (hists h)) := l]> (hists h)) h).
Proof. done. Qed.

Lemma bind_get_attr {A B} self (attr : Environment -> A) (k : A -> M B) h e :
  objs h !! self = Some e -> bind (get_attr self attr) k h = k (attr e) h.
Proof. intros He. apply bind_return. by apply get_attr_eq. Qed.

Lemma bind_set_attr {B} self assign (k : unit -> M B) h e :
  objs h !! self = Some e ->
  bind (set_attr self assign) k h = k tt (set_objs (<[self := assign e]> (objs h)) h).
Proof. intros He. apply bind_return. by apply set_attr_eq. Qed.

Lemma fresh_hist_ne (m : gmap ref (list Z)) r : is_Some (m !! r) -> fresh (dom m) ≠ r.
Proof.
  intros Hr Heq. apply (is_fresh (dom m)). rewrite Heq. by apply elem_of_dom.
Qed.


Lemma get_combined_history_eq self h e stages comb best :
  objs h !! self = Some e -> subclass e = ChronologicalClass stages comb best ->
  get_combined_history self h = (h, Return comb).
Proof.
  intros He Hsub. unfold get_combined_history.
  by rewrite (bind_get_attr self subclass _ h e He), Hsub.
Qed.

Lemma get_best_environment_eq self h e stages comb best :
  objs h !! self = Some e -> subclass e = ChronologicalClass stages comb best ->
  get_best_environment self h = (h, Return best).
Proof.
  intros He Hsub. unfold get_best_environment.
  by rewrite (bind_get_attr self subclass _ h e He), Hsub.
Qed.






(** ** [AdaptiveEnvironment.evolve] *)

Lemma keeps_bind {A B} I (c : M A) (k : A -> M B) post post' :
  keeps I c post -> (forall a, post a -> keeps I (k a) post') ->
  keeps I (bind c k) post'.
Proof.
  intros Hc Hk h h' out HI Hrun. unfold bind in Hrun.
  destruct (c h) as [h1 [a|x]] eqn:Hch.
  - destruct (Hc h h1 (Return a) HI Hch) as [HI1 Hpost].
    by apply (Hk a (Hpost a eq_refl) h1 h' out).
  - injection Hrun as <- <-. destruct (Hc h h1 (Raise x) HI Hch) as [HI1 _].
    split; [done|]. intros a [=].
Qed.

Lemma keeps_ret {A} I (a : A) (post : A -> Prop) : post a -> keeps I (ret a) post.
Proof. intros Hp h h' out HI [= <- <-]. split; [done|]. by intros a' [= <-]. Qed.

Lemma keeps_raise {A} I x (post : A -> Prop) : keeps I (raise x) post.
Proof. intros h h' out HI [= <- <-]. split; [done|]. intros a [=]. Qed.

Lemma keeps_weaken {A} I (c : M A) (post post' : A -> Prop) :
  keeps I c post -> (forall a, post a -> post' a) -> keeps I c post'.
Proof.
  intros Hc Hw h h' out HI Hrun. destruct (Hc h h' out HI Hrun) as [HI' Hp].
  split; [done|]. intros a Ha. by apply Hw, Hp.
Qed.

Lemma keeps_for_each {A} I (l : list A) (body : A -> M unit) :
  (forall x, x ∈ l -> keeps I (body x) (fun _ => True)) ->
  keeps I (for_each l body) (fun _ => True).
Proof.
  induction l as [|x l IH]; intros Hbody.
  - by apply keeps_ret.
  - simpl. eapply keeps_bind; [apply Hbody; by left|].
    intros _ _. apply IH. intros y Hy. apply Hbody. by right.
Qed.

Lemma keeps_get_attr {A} I r (attr : Environment -> A) (post : A -> Prop) :
  (forall h ee, I h -> objs h !! r = Some ee -> post (attr ee)) ->
  keeps I (get_attr r attr) post.
Proof.
  intros Hp h h' out HI Hrun. unfold get_attr in Hrun.
  destruct (objs h !! r) as [ee|] eqn:Hr; injection Hrun as <- <-.
  - split; [done|]. intros a [= <-]. by eapply Hp.
  - split; [done|]. intros a [=].
Qed.

Lemma keeps_set_attr I r assign :
  (forall h ee, I h -> objs h !! r = Some ee ->
     I (set_objs (<[r := assign ee]> (objs h)) h)) ->
  keeps I (set_attr r assign) (fun _ => True).
Proof.
  intros Hp h h' out HI Hrun. unfold set_attr in Hrun.
  destruct (objs h !! r) as [ee|] eqn:Hr; injection Hrun as <- <-.
  - split; [by eapply Hp|done].
  - split; [done|]. intros a [=].
Qed.

(** [compile], [deactivate] and [reset], called on any object, are
    among the other statements in the life of an environment. *)
Lemma keeps_lifetime_assign self r assign reps :
  (forall ee, best_ever (assign ee) = best_ever ee) ->
  keeps (fun h => lifetime self h reps) (set_attr r assign) (fun _ => True).
Proof.
  intros Hassign h h' out Hlife Hset. split; [|done].
  destruct out as [[]|x].
  - by eapply lifetime_assign.
  - unfold set_attr in Hset. destruct (objs h !! r); by injection Hset as <-.
Qed.

Lemma keeps_lifetime_new_pop self l reps :
  keeps (fun h => lifetime self h reps) (new_pop l) (fun _ => True).
Proof.
  intros h h' out Hlife [= <- <-]. split; [|done]. by apply (life_other self h).
Qed.

Lemma keeps_lifetime_new_hist self l reps :
  keeps (fun h => lifetime self h reps) (new_hist l) (fun _ => True).
Proof.
  intros h h' out Hlife [= <- <-]. split; [|done]. by apply (life_other self h).
Qed.

Lemma lifetime_deactivate self r reps :
  keeps (fun h => lifetime self h reps) (Environment_deactivate r) (fun _ => True).
Proof. by apply keeps_lifetime_assign. Qed.

Lemma lifetime_compile self r fitness_fn inds cb verbose reps :
  keeps (fun h => lifetime self h reps)
    (Environment_compile r fitness_fn inds cb verbose) (fun _ => True).
Proof.
  unfold Environment_compile.
  eapply keeps_bind; [by apply keeps_lifetime_assign|]. intros _ _.
  eapply (keeps_bind _ _ _ (fun _ => True)).
  { destruct inds as [i|].
    - eapply keeps_bind; [by apply keeps_lifetime_assign|]. intros _ _.
      by apply keeps_lifetime_assign.
    - eapply keeps_bind; [by apply keeps_lifetime_assign|]. intros _ _.
      eapply keeps_bind; [apply keeps_lifetime_new_pop|]. intros i _.
      by apply keeps_lifetime_assign. }
  intros _ _.
  eapply keeps_bind; [by apply keeps_lifetime_assign|]. intros _ _.
  by apply keeps_lifetime_assign.
Qed.

Lemma lifetime_reset self r reps :
  keeps (fun h => lifetime self h reps) (Sequential_reset r) (fun _ => True).
Proof.
  unfold Sequential_reset.
  eapply keeps_bind; [apply keeps_lifetime_new_pop|]. intros i _.
  eapply keeps_bind; [by apply keeps_lifetime_assign|]. intros _ _.
  eapply keeps_bind; [apply keeps_lifetime_new_hist|]. intros j _.
  eapply keeps_bind; [by apply keeps_lifetime_assign|]. intros _ _.
  by apply keeps_lifetime_assign.
Qed.

Section Adaptive.

Variables (self inds hist : ref) (envs : list ref) (sw gf : Z) (pool : list ref).
Variables (sep : Prop) (h0 : @Heap World).
Hypothesis envs_in_pool : forall env, env ∈ envs -> env ∈ pool.
Hypothesis self_not_in_pool : self ∉ pool.

Abbreviation I := (adaptive_inv self inds hist envs sw gf pool sep h0).

(** An assignment to an attribute of the composite that keeps its
    population, its history and its pool. *)
Lemma inv_assign_self assign h ee :
  (forall es, individuals (assign es) = individuals es /\
     history (assign es) = history es /\
     forall cur gen, subclass es = AdaptiveClass envs sw cur gen gf -> cur ∈ pool ->
       exists cur' gen', subclass (assign es) = AdaptiveClass envs sw cur' gen' gf /\
                         cur' ∈ pool) ->
  I h -> objs h !! self = Some ee ->
  I (set_objs (<[self := assign ee]> (objs h)) h).
Proof.
  intros Hassign [(es & cur & gen & Hes & Hi & Hh & Hsub & Hcur) Hsep] Hee.
  rewrite Hes in Hee. injection Hee as <-.
  destruct (Hassign es) as (Hi' & Hh' & Hsub').
  destruct (Hsub' cur gen Hsub Hcur) as (cur' & gen' & Hsub'' & Hcur').
  split.
  - exists (assign es), cur', gen'. simpl. rewrite lookup_insert_eq.
    repeat split; congruence.
  - intros Hs. destruct (Hsep Hs) as (Hap & Hp & Hhs). split; [|done].
    intros env ee' Henv Hee'. simpl in Hee'.
    rewrite lookup_insert_ne in Hee' by (intros <-; done). by apply (Hap env).
Qed.

(** An assignment to an attribute of a pool member that gives it no list
    of the composite. *)
Lemma inv_assign_member env assign h ee :
  env ∈ pool ->
  (sep -> individuals ee ≠ inds -> history ee ≠ hist ->
     individuals (assign ee) ≠ inds /\ history (assign ee) ≠ hist) ->
  I h -> objs h !! env = Some ee ->
  I (set_objs (<[env := assign ee]> (objs h)) h).
Proof.
  intros Henv Hassign [(es & cur & gen & Hes & Hi & Hh & Hsub & Hcur) Hsep] Hee.
  assert (Hne : env ≠ self) by (intros ->; done).
  split.
  - exists es, cur, gen. simpl. by rewrite lookup_insert_ne.
  - intros Hs. destruct (Hsep Hs) as (Hap & Hp & Hhs). split; [|done].
    intros env' ee' Henv' Hee'. simpl in Hee'.
    destruct (decide (env' = env)) as [->|Hne'].
    + rewrite lookup_insert_eq in Hee'. injection Hee' as <-.
      destruct (Hap env ee Henv Hee). by apply Hassign.
    + rewrite lookup_insert_ne in Hee' by done. by apply (Hap env').
Qed.

Lemma inv_print ev h : I h -> I (set_stdout (stdout h ++ [ev]) h).
Proof. done. Qed.

Lemma inv_world w h : I h -> I (set_world w h).
Proof. done. Qed.

Lemma keeps_print ev : keeps I (print ev) (fun _ => True).
Proof. intros h h' out HI [= <- <-]. split; [by apply inv_print|done]. Qed.

Lemma keeps_get_environments : keeps I (get_environments self) (fun l => l = envs).
Proof.
  unfold get_environments.
  eapply (keeps_bind _ _ _ (fun sub => exists cur gen, sub = AdaptiveClass envs sw cur gen gf)).
  - apply keeps_get_attr. intros h ee [(es & cur & gen & Hes & _ & _ & Hsub & _) _] Hee.
    rewrite Hes in Hee. injection Hee as <-. eauto.
  - intros sub (cur & gen & ->). by apply keeps_ret.
Qed.

Lemma keeps_get_current_environment :
  keeps I (get_current_environment self) (fun c => c ∈ pool).
Proof.
  unfold get_current_environment.
  eapply (keeps_bind _ _ _
            (fun sub => exists cur gen, sub = AdaptiveClass envs sw cur gen gf /\ cur ∈ pool)).
  - apply keeps_get_attr. intros h ee [(es & cur & gen & Hes & _ & _ & Hsub & Hcur) _] Hee.
    rewrite Hes in Hee. injection Hee as <-. eauto.
  - intros sub (cur & gen & -> & Hcur). by apply keeps_ret.
Qed.

Lemma keeps_get_switch_every : keeps I (get_switch_every self) (fun _ => True).
Proof.
  unfold get_switch_every.
  eapply (keeps_bind _ _ _ (fun _ => True)).
  - by apply keeps_get_attr.
  - intros sub _. destruct sub; (by apply keeps_ret) || apply keeps_raise.
Qed.

Lemma keeps_get_current_generation :
  keeps I (get_current_generation self) (fun _ => True).
Proof.
  unfold get_current_generation.
  eapply (keeps_bind _ _ _ (fun _ => True)).
  - by apply keeps_get_attr.
  - intros sub _. destruct sub; (by apply keeps_ret) || apply keeps_raise.
Qed.

Lemma keeps_read_weights l : keeps I (read_weights l) (fun _ => True).
Proof.
  induction l as [|x l IH]; simpl.
  - by apply keeps_ret.
  - eapply (keeps_bind _ _ _ (fun _ => True)); [by apply keeps_get_attr|].
    intros f _. eapply keeps_bind; [apply IH|]. intros fs _. by apply keeps_ret.
Qed.

Lemma keeps_random_choices weights :
  keeps I (random_choices envs weights) (fun c => c ∈ pool).
Proof.
  unfold random_choices. case_bool_decide; [apply keeps_raise|].
  destruct (last envs) as [final|] eqn:Hlast; [|apply keeps_raise].
  cbv zeta. case_bool_decide; [apply keeps_raise|].
  case_bool_decide; [apply keeps_raise|].
  intros h h' out HI Hrun. destruct (random_index (world h) weights) as [w i].
  injection Hrun as <- <-. split; [by apply inv_world|].
  intros c [= <-]. apply envs_in_pool.
  destruct (envs !! Nat.min i (length envs - 1)) as [c|] eqn:Hc; simpl.
  - by eapply list_elem_of_lookup_2.
  - apply last_Some in Hlast as [l' ->]. set_solver.
Qed.

Lemma keeps_evolve env gens :
  env ∈ pool -> keeps I (Environment_evolve env gens) (fun _ => True).
Proof.
  intros Henv h h' out [(es & cur & gen & Hes & Hi & Hh & Hsub & Hcur) Hsep] Hrun.
  assert (Hne : self ≠ env) by (intros ->; done).
  destruct (evolve_frame env gens h h' out Hrun) as (Hobjs & Hlists & Hnone).
  split; [|done]. split.
  - destruct (Hobjs self es Hes) as (es' & Hes' & _ & Hsame).
    rewrite (Hsame Hne) in Hes'. by exists es, cur, gen.
  - intros Hs. destruct (Hsep Hs) as (Hap & Hp & Hhs).
    split; [|split].
    + intros env' ee' Henv' Hee'.
      destruct (objs h !! env') as [ee|] eqn:Hee.
      * destruct (Hobjs env' ee Hee) as (ee'' & Hee'' & Hst & _).
        rewrite Hee' in Hee''. injection Hee'' as <-.
        destruct (Hap env' ee Henv' Hee) as [Hi1 Hh1].
        destruct Hst as (_ & _ & _ & _ & _ & _ & _ & Hi2 & Hh2 & _). split; congruence.
      * destruct (objs h !! env) as [ee|] eqn:Hee0.
        -- exfalso. destruct (deactivated ee) eqn:Hoff.
           ++ rewrite (evolve_deactivated env gens h ee Hee0 Hoff) in Hrun.
              injection Hrun as <- <-. congruence.
           ++ destruct (evolve_spec env gens h ee h' out Hee0 Hoff Hrun) as (e' & fits & Ho & _).
              rewrite Ho in Hee'. destruct (decide (env' = env)) as [->|Hn]; [congruence|].
              rewrite lookup_insert_ne in Hee' by done. congruence.
        -- rewrite (Hnone eq_refl) in Hee'. congruence.
    + destruct (objs h !! env) as [ee|] eqn:Hee0.
      * destruct (Hlists ee eq_refl) as [_ [Hpne _]].
        destruct (Hap env ee Henv Hee0) as [Hi1 _]. rewrite Hpne; done.
      * by rewrite (Hnone eq_refl).
    + destruct (objs h !! env) as [ee|] eqn:Hee0.
      * destruct (Hlists ee eq_refl) as [[Hhne _] _].
        destruct (Hap env ee Henv Hee0) as [_ Hh1]. rewrite Hhne; done.
      * by rewrite (Hnone eq_refl).
Qed.

Lemma keeps_smart_evolve :
  keeps I (AdaptiveEnvironment_smart_evolve self) (fun c => c ∈ pool).
Proof.
  unfold AdaptiveEnvironment_smart_evolve.
  eapply keeps_bind; [apply keeps_get_environments|]. intros ? ->.
  eapply keeps_bind.
  { apply keeps_for_each. intros i Hi.
    eapply (keeps_bind _ _ _ (fun _ => True)); [by apply keeps_get_attr|].
    intros f _. case_bool_decide; [|by apply keeps_ret].
    eapply (keeps_bind _ _ _ (fun _ => True)); [by apply keeps_get_attr|].
    intros nm _. eapply keeps_bind; [apply keeps_print|]. intros _ _.
    apply keeps_set_attr. intros h ee HI Hee.
    apply inv_assign_member; auto. }
  intros _ _.
  eapply (keeps_bind _ _ _ (fun _ => True)); [by apply keeps_get_attr|]. intros it _.
  eapply keeps_bind; [apply keeps_get_switch_every|]. intros sw' _.
  case_bool_decide; [apply keeps_raise|].
  case_bool_decide; [|apply keeps_get_current_environment].
  eapply keeps_bind; [apply keeps_get_environments|]. intros ? ->.
  eapply keeps_bind; [apply keeps_read_weights|]. intros weights _.
  apply keeps_random_choices.
Qed.

Lemma keeps_adaptive_generation :
  keeps I
    (bind (get_attr self iteration) (fun it =>
     bind (set_attr self (set_iteration (it + 1))) (fun _ =>
     bind (get_current_generation self) (fun gen =>
     bind (set_attr self (set_current_generation (gen + 1))) (fun _ =>
     bind (AdaptiveEnvironment_smart_evolve self) (fun new =>
     bind (get_current_environment self) (fun cur =>
     bind (get_attr cur individuals) (fun inds =>
     bind (set_attr new (set_individuals inds)) (fun _ =>
     bind (get_current_environment self) (fun cur =>
     bind (get_attr cur history) (fun hist =>
     bind (set_attr new (set_history hist)) (fun _ =>
     bind (set_attr self (set_current_environment new)) (fun _ =>
     bind (get_current_environment self) (fun cur =>
     bind (Environment_evolve cur 1) (fun _ => ret tt)))))))))))))))
    (fun _ => True).
Proof.
  eapply (keeps_bind _ _ _ (fun _ => True)); [by apply keeps_get_attr|]. intros it _.
  eapply keeps_bind.
  { apply keeps_set_attr. intros h ee HI Hee. apply inv_assign_self; auto.
    intros es. split; [done|]. split; [done|]. intros cur gen Hsub Hcur.
    by exists cur, gen. }
  intros _ _.
  eapply keeps_bind; [apply keeps_get_current_generation|]. intros gen _.
  eapply keeps_bind.
  { apply keeps_set_attr. intros h ee HI Hee. apply inv_assign_self; auto.
    intros es. unfold set_current_generation.
    destruct (subclass es) eqn:Hs; try done.
    split; [done|]. split; [done|]. intros cur gen' [= <- <- <- <- <-] Hcur.
    simpl. eauto. }
  intros _ _.
  eapply keeps_bind; [apply keeps_smart_evolve|]. intros new Hnew.
  eapply keeps_bind; [apply keeps_get_current_environment|]. intros cur Hcur.
  eapply (keeps_bind _ _ _ (fun i => sep -> i ≠ inds)).
  { apply keeps_get_attr. intros h ee [_ Hsep] Hee Hs.
    destruct (Hsep Hs) as (Hap & _). by destruct (Hap cur ee Hcur Hee). }
  intros i Hi.
  eapply keeps_bind.
  { apply keeps_set_attr. intros h ee HI Hee. apply inv_assign_member; auto. }
  intros _ _.
  eapply keeps_bind; [apply keeps_get_current_environment|]. intros cur' Hcur'.
  eapply (keeps_bind _ _ _ (fun i => sep -> i ≠ hist)).
  { apply keeps_get_attr. intros h ee [_ Hsep] Hee Hs.
    destruct (Hsep Hs) as (Hap & _). by destruct (Hap cur' ee Hcur' Hee). }
  intros hi Hhi.
  eapply keeps_bind.
  { apply keeps_set_attr. intros h ee HI Hee. apply inv_assign_member; auto. }
  intros _ _.
  eapply keeps_bind.
  { apply keeps_set_attr. intros h ee HI Hee. apply inv_assign_self; auto.
    intros es. unfold set_current_environment.
    destruct (subclass es) eqn:Hs; try done.
    split; [done|]. split; [done|]. intros cur0 gen' [= <- <- <- <- <-] Hcur0.
    simpl. eauto. }
  intros _ _.
  eapply keeps_bind; [apply keeps_get_current_environment|]. intros cur'' Hcur''.
  eapply keeps_bind; [by apply keeps_evolve|]. intros _ _.
  by apply keeps_ret.
Qed.

End Adaptive.

End Proofs.

(** C4.  The composites do not hand the fitness function and the callback
    on: the call they make, [environment.compile(verbose_every=...)], lacks
    the required argument [fitness_function] and raises [TypeError].  An
    adversarial environment built over one fresh sequential environment,
    and a chronological and an adaptive environment over one uncompiled
    sub-environment, all raise in [compile]; the sub-environment is left
    uncompiled and without a fitness function. *)
Theorem composite_compile_raises :
  (exists h' ee, compile_adversarial empty_heap = (h', Raise TypeError) /\
     objs h' !! 0%nat = Some ee /\ compiled ee = false /\ fitness_function ee = None) /\
  (exists h' ee,
     ChronologicalEnvironment_compile 1%nat (Some fitness) None None 1 chronological_heap
       = (h', Raise TypeError) /\
     objs h' !! 0%nat = Some ee /\ compiled ee = false /\ fitness_function ee = None) /\
  (exists h' ee,
     AdaptiveEnvironment_compile 1%nat (Some fitness) None None 1 adaptive_heap
       = (h', Raise TypeError) /\
     objs h' !! 0%nat = Some ee /\ compiled ee = false /\ fitness_function ee = None).
Proof.
  split; [|split]; eexists; eexists;
    (split; [vm_compute; reflexivity|]); (split; [vm_compute; reflexivity|]); done.
Qed.

(** ** The theorems at work *)

(** The scenario of the specification: one stage that adds a candidate one
    fitter than the fittest, from a single candidate of fitness 0, run for
    three generations. *)
Example three_generations :
  exists h' e',
    Environment_evolve 0%nat 3 (growing_heap false)
      = (h', Return (IndividualsAndHistory 0%nat 0%nat)) /\
    hists h' !! 0%nat = Some [1; 2; 3] /\
    objs h' !! 0%nat = Some e' /\ fitness <$> best_ever e' = Some 3.
Proof.
  eexists _, _. split; [vm_compute; reflexivity|].
  split; [vm_compute; reflexivity|]. split; [vm_compute; reflexivity|]. reflexivity.
Qed.

(** The scenario of the specification: A ends on 5, B on 8, B wins. *)
Example adversarial_winner :
  exists h', Adversarial_evolve 2%nat 1 adversarial_heap = (h', Return ("B", 8, 1)).
Proof. eexists. vm_compute. reflexivity. Qed.

Lemma grow_never_empties off : never_empties (growing off).
Proof.
  intros h e' Hl Hc. unfold after_stages. rewrite Hl, Hc. simpl.
  unfold grow. simpl. by destruct (pops h !!! individuals e').
Qed.

Lemma evolve_runs_exactly_n_generations_witness :
  exists h' fits,
    Environment_evolve 0%nat 3 (growing_heap false)
      = (h', Return (IndividualsAndHistory 0%nat 0%nat)) /\
    completed_generations 0%nat 0 fits
      (set_objs (<[0%nat := set_generations 3 (growing false)]> (objs (growing_heap false)))
         (growing_heap false)) h' /\
    Z.of_nat (length fits) = 3 /\
    hists h' !!! 0%nat = hists (growing_heap false) !!! 0%nat ++ fits /\
    Z.of_nat (length (hists h' !!! 0%nat))
      = 3 + Z.of_nat (length (hists (growing_heap false) !!! 0%nat)).
Proof.
  apply (evolve_runs_exactly_n_generations 0%nat 3 (growing_heap false) (growing false)).
  - reflexivity.
  - reflexivity.
  - apply grow_never_empties.
  - lia.
Defined.

Lemma evolve_deactivated_is_noop_witness :
  exists h',
    Environment_evolve 0%nat 3 (growing_heap true) = (h', Return (OnlyIndividuals 0%nat)) /\
    h' = growing_heap true /\
    objs h' !! 0%nat = Some (growing true) /\
    hists h' !!! 0%nat = hists (growing_heap true) !!! 0%nat /\
    pops h' !!! 0%nat = pops (growing_heap true) !!! 0%nat.
Proof.
  apply (evolve_deactivated_is_noop 0%nat 3 (growing_heap true) (growing true));
    reflexivity.
Defined.

Lemma best_ever_is_running_maximum_witness :
  exists e e' rep,
    objs (growing_heap false) !! 0%nat = Some e /\
    objs (Environment_execute 0%nat 0%nat (growing_heap false)).1 !! 0%nat = Some e' /\
    last (pops (Environment_execute 0%nat 0%nat (growing_heap false)).1 !!! individuals e')
      = Some rep /\
    fitness <$> best_ever e = max_of [] /\
    best_ever e' = Some
      match best_ever e with
      | None => copy rep
      | Some b => if bool_decide (fitness b < fitness rep) then copy rep else b
      end /\
    (forall b, best_ever e = Some b -> fitness rep <= fitness b -> best_ever e' = Some b) /\
    (forall b b', best_ever e = Some b -> best_ever e' = Some b' ->
       fitness b <= fitness b') /\
    fitness <$> best_ever e' = max_of ([] ++ [fitness rep]) /\
    lifetime 0%nat (Environment_execute 0%nat 0%nat (growing_heap false)).1
      ([] ++ [fitness rep]).
Proof.
  apply (best_ever_is_running_maximum 0%nat (growing_heap false) [] 0%nat).
  - apply (life_created 0%nat (growing_heap false) (growing false)); reflexivity.
  - vm_compute. reflexivity.
Defined.

Lemma late_two_generations :
  completed_generations 0%nat 0 [1; 2] late_started late_after_two.
Proof.
  eapply (one_more_generation 0%nat 0 _ _ _ _ _ {| genes := []; fitness := 1 |});
    [vm_compute; reflexivity..|].
  eapply (one_more_generation 0%nat 1 _ _ _ _ _ {| genes := []; fitness := 2 |});
    [vm_compute; reflexivity..|].
  apply no_generation.
Qed.

Lemma empty_population_raises_witness :
  exists h',
    Environment_execute 0%nat 0%nat
      (set_objs (<[0%nat := set_iteration 2 late_object]> (objs late_after_two))
         late_after_two)
      = (h', Raise NoIndividualsAtEndOfRun) /\
    Environment_evolve 0%nat 3 late_heap = (h', Raise NoIndividualsAtEndOfRun) /\
    hists h' = hists late_after_two /\
    (exists e', objs h' !! 0%nat = Some e' /\ best_ever e' = best_ever late_object /\
                history e' = history late_object).
Proof.
  apply (empty_population_raises 0%nat 3 late_heap late [1; 2] late_after_two late_object).
  - reflexivity.
  - reflexivity.
  - apply late_two_generations.
  - simpl. lia.
  - vm_compute. reflexivity.
  - vm_compute. reflexivity.
Defined.

Lemma adversarial_runs_example :
  exists h1, adversarial_runs 2%nat 1 [0%nat; 1%nat] adversarial_heap
               [("A", 5, 1); ("B", 8, 1)] h1.
Proof.
  eexists.
  eapply (runs_next 2%nat 1 0%nat _ _ _ _ _ _ _ 0 1 _ _ "A" 5); [vm_compute; reflexivity..|].
  eapply (runs_next 2%nat 1 1%nat _ _ _ _ _ _ _ 2 3 _ _ "B" 8); [vm_compute; reflexivity..|].
  apply runs_done.
Qed.

Lemma contest_runs_produce_history :
  exists h1, runs_produce_history 2%nat 1 [0%nat; 1%nat] adversarial_heap
               [("A", 5, 1); ("B", 8, 1)] h1.
Proof.
  eexists.
  eapply (one_more_run 2%nat 1 0%nat _ _ _ _ _ _ 0 1 _ _ "A" 5); [vm_compute; reflexivity..|].
  eapply (one_more_run 2%nat 1 1%nat _ _ _ _ _ _ 2 3 _ _ "B" 8); [vm_compute; reflexivity..|].
  apply no_run.
Qed.

Lemma adversarial_evolve_returns_first_maximum_witness :
  exists h', Adversarial_evolve 2%nat 1 adversarial_heap = (h', Return ("B", 8, 1)).
Proof.
  destruct contest_runs_produce_history as [h1 Hruns].
  destruct (adversarial_evolve_returns_first_maximum 2%nat 1 adversarial_heap
              (set_subclass (AdversarialClass [0%nat; 1%nat])
                 (staged "composite" [] 2%nat 2%nat false))
              [0%nat; 1%nat] [("A", 5, 1); ("B", 8, 1)] h1)
    as (h' & i & env & nm & top & duration & Hev & _ & Hres & Hmax & _).
  - reflexivity.
  - reflexivity.
  - done.
  - exact Hruns.
  - exists h'. destruct i as [|[|i]]; simpl in Hres.
    + injection Hres as <- <- <-. specialize (Hmax 1%nat "B" 8 1 eq_refl). lia.
    + by injection Hres as <- <- <-.
    + done.
Defined.

Lemma relay_histories_separate : separate_histories 3%nat [0%nat; 1%nat] relay_heap.
Proof.
  split; [by eexists|]. split.
  - intros env Henv. apply elem_of_cons in Henv as [->|Henv].
    { eexists. split; [reflexivity|]. by split. }
    apply elem_of_cons in Henv as [->|Henv]; [|by apply elem_of_nil in Henv].
    eexists. split; [reflexivity|]. by split.
  - intros env1 env2 ee1 ee2 H1 H2 Ho1 Ho2 Hne.
    apply elem_of_cons in H1 as [->|H1]; [|apply elem_of_cons in H1 as [->|H1];
      [|by apply elem_of_nil in H1]];
    (apply elem_of_cons in H2 as [->|H2]; [|apply elem_of_cons in H2 as [->|H2];
      [|by apply elem_of_nil in H2]]);
    try done; vm_compute in Ho1, Ho2;
    injection Ho1 as <-; injection Ho2 as <-; simpl; lia.
Qed.




Lemma trial_runs_example :
  exists h1, trial_runs 2%nat 0 [0%nat; 1%nat] pool_heap [5; 8] h1.
Proof.
  eexists.
  eapply (trials_next 2%nat 0 0%nat _ _ _ _ _ _ _ _ _ _ {| genes := []; fitness := 5 |});
    [vm_compute; reflexivity..|].
  eapply (trials_next 2%nat 0 1%nat _ _ _ _ _ _ _ _ _ _ {| genes := []; fitness := 8 |});
    [vm_compute; reflexivity..|].
  apply trials_done.
Qed.

(** After the trials of the example the second member, whose gain 8 is the
    largest, is the active environment. *)
Example switch_to_second_member :
  exists h', AdaptiveEnvironment_switch_environment 2%nat pool_heap = (h', Return tt) /\
    get_current_environment 2%nat h' = (h', Return 1%nat).
Proof. eexists. split; vm_compute; reflexivity. Qed.

Lemma pool_lists_apart : lists_apart 2%nat 2%nat [0%nat; 0%nat; 1%nat] pool_heap.
Proof.
  intros env ee Henv Hee.
  repeat (apply elem_of_cons in Henv as [->|Henv]);
    [..|by apply elem_of_nil in Henv]; vm_compute in Hee; by injection Hee as <-.
Qed.

(** In the example the composite returns its own empty population and
    empty history, while the candidates and the fitness values of the two
    generations are in the lists of the pool. *)
Example adaptive_results_stay_in_the_pool :
  exists h', AdaptiveEnvironment_evolve 2%nat 2 pool_heap = (h', Return (2%nat, 2%nat)) /\
    pops h' !! 2%nat = Some [] /\ hists h' !! 2%nat = Some [] /\
    length (pops h' !!! 0%nat) = 3%nat /\ length (hists h' !!! 0%nat) = 2%nat.
Proof.
  eexists. split; [vm_compute; reflexivity|].
  split; [vm_compute; reflexivity|]. split; [vm_compute; reflexivity|].
  split; vm_compute; reflexivity.
Qed.

(** A stage environment that holds earlier entries hands them on as well:
    the combined history of a first call then has four entries for the
    counts 2 and 1. *)
Example chronological_stale_stage :
  exists h', ChronologicalEnvironment_evolve 2%nat 1 stale_relay_heap
               = (h', Return (2%nat, 3%nat)) /\
    hists h' !!! 3%nat = [7; 5; 5; 8].
Proof. eexists. split; vm_compute; reflexivity. Qed.

(** The error of the third generation of the example leaves the two
    recorded fitness values and the snapshot of fitness 2 in place. *)
Example failed_generation_keeps_records :
  exists h' e',
    Environment_evolve 0%nat 3 late_heap = (h', Raise NoIndividualsAtEndOfRun) /\
    hists h' !! 0%nat = Some [1; 2] /\
    objs h' !! 0%nat = Some e' /\ fitness <$> best_ever e' = Some 2.
Proof.
  eexists _, _. split; [vm_compute; reflexivity|].
  split; [vm_compute; reflexivity|]. split; [vm_compute; reflexivity|]. reflexivity.
Qed.

(** * Further properties of the code *)

Section More.

Context {World : Type} `{!External World}.

Implicit Types (h : @Heap World) (e : @Environment World) (self env : ref).

#[local] Arguments bind : simpl never.
#[local] Arguments ret : simpl never.
#[local] Arguments raise : simpl never.
#[local] Arguments get_attr : simpl never.
#[local] Arguments set_attr : simpl never.
#[local] Arguments print : simpl never.
#[local] Arguments new_hist : simpl never.
#[local] Arguments new_pop : simpl never.
#[local] Arguments read_hist : simpl never.
#[local] Arguments write_hist : simpl never.
#[local] Arguments read_pop : simpl never.
#[local] Arguments write_pop : simpl never.
#[local] Arguments last_item : simpl never.
#[local] Arguments Environment_evolve : simpl never.

(** ** Construction, compilation, reset *)

Lemma bind_new_pop {B} l (k : ref -> M B) h :
  bind (new_pop l) k h
    = k (fresh (dom (pops h))) (set_pops (<[fresh (dom (pops h)) := l]> (pops h)) h).
Proof. done. Qed.

Lemma fresh_lookup_None {V} (m : gmap ref V) : m !! fresh (dom m) = None.
Proof. apply not_elem_of_dom, is_fresh. Qed.

(** X1.  [Sequential(layers, name)] returns a new object over a new empty
    population and a new empty history: none of the three references was
    in use, the objects and lists of the store are as before, and the
    object starts at iteration 0, not compiled, active, without best-ever
    snapshot, fitness function or callback, and with a reporting interval
    of 1. *)
Theorem Sequential_init_is_fresh (lays : list (@Layer World)) nm h :
  exists self inds hist h',
    Sequential_init lays nm h = (h', Return self) /\
    objs h !! self = None /\ pops h !! inds = None /\ hists h !! hist = None /\
    pops h' = <[inds := []]> (pops h) /\ hists h' = <[hist := []]> (hists h) /\
    world h' = world h /\ stdout h' = stdout h /\
    objs h' = <[self :=
      {| device := "cpu"; layer_fitness := layer_fitness_default;
         fitness_function := None; generations := 0; verbose_every := 1;
         callback := None; name := nm; layers := lays; individuals := inds;
         iteration := 0; history := hist; compiled := false;
         deactivated := false; best_ever := None; subclass := BaseClass |}]> (objs h).
Proof.
  exists (fresh (dom (objs h))), (fresh (dom (pops h))), (fresh (dom (hists h))).
  eexists. split.
  - unfold Sequential_init, Environment_init, bind, new_pop, new_hist, new_obj,
      set_attr, ret. simpl. rewrite lookup_insert_eq. reflexivity.
  - simpl. rewrite insert_insert_eq.
    repeat split; auto using fresh_lookup_None.
Qed.

Lemma compile_spec self fitness_fn inds cb verbose h e :
  objs h !! self = Some e ->
  let p := match inds with Some r => r | None => fresh (dom (pops h)) end in
  let e' := set_verbose_every verbose (set_callback cb (set_individuals p
              (set_compiled true (set_fitness_function fitness_fn e)))) in
  Environment_compile self fitness_fn inds cb verbose h =
    (set_objs (<[self := e']> (objs h))
       match inds with
       | Some _ => h
       | None => set_pops (<[p := []]> (pops h)) h
       end, Return tt).
Proof.
  intros He p e'. unfold Environment_compile.
  rewrite (bind_set_attr self _ _ h e He).
  destruct inds as [r|]; unfold bind, set_attr, new_pop; simpl;
    rewrite ?lookup_insert_eq; simpl; rewrite ?lookup_insert_eq; simpl;
    rewrite ?lookup_insert_eq; simpl; rewrite ?lookup_insert_eq; simpl;
    by rewrite !insert_insert_eq.
Qed.

(** X2.  [compile] stores the fitness function, the callback and the
    reporting interval, marks the object compiled and binds its population:
    to the list it is given, or to a new empty list that was not in use.
    It changes nothing else: the history, the best-ever snapshot, the
    iteration index and the deactivated flag are kept, so compiling again
    neither starts a run afresh nor reactivates the environment. *)
Theorem compile_keeps_the_run self fitness_fn inds cb verbose h e :
  objs h !! self = Some e ->
  exists h' e',
    Environment_compile self fitness_fn inds cb verbose h = (h', Return tt) /\
    objs h' = <[self := e']> (objs h) /\
    fitness_function e' = fitness_fn /\ callback e' = cb /\
    verbose_every e' = verbose /\ compiled e' = true /\
    history e' = history e /\ best_ever e' = best_ever e /\
    iteration e' = iteration e /\ generations e' = generations e /\
    deactivated e' = deactivated e /\ layers e' = layers e /\
    name e' = name e /\ subclass e' = subclass e /\
    hists h' = hists h /\ world h' = world h /\ stdout h' = stdout h /\
    match inds with
    | Some r => individuals e' = r /\ pops h' = pops h
    | None => pops h !! individuals e' = None /\
              pops h' = <[individuals e' := []]> (pops h)
    end.
Proof.
  intros He.
  eexists _, (set_verbose_every verbose (set_callback cb (set_individuals
                match inds with Some r => r | None => fresh (dom (pops h)) end
                (set_compiled true (set_fitness_function fitness_fn e))))).
  split; [by apply compile_spec|].
  destruct inds as [r|]; simpl; repeat split; try done.
  apply fresh_lookup_None.
Qed.

Lemma reset_spec self h e :
  objs h !! self = Some e ->
  let p := fresh (dom (pops h)) in
  let q := fresh (dom (hists h)) in
  Sequential_reset self h =
    (set_objs (<[self := set_iteration 0 (set_history q (set_individuals p e))]> (objs h))
       (set_hists (<[q := []]> (hists h)) (set_pops (<[p := []]> (pops h)) h)),
     Return tt).
Proof.
  intros He p q. unfold Sequential_reset, bind, set_attr, new_pop, new_hist. simpl.
  rewrite He. simpl. rewrite lookup_insert_eq. simpl. rewrite lookup_insert_eq. simpl.
  by rewrite !insert_insert_eq.
Qed.

(** X3.  [reset] binds the population and the history of the object to two
    new empty lists and sets the iteration index to 0.  The lists it held
    before are not cleared: every list of the store, such as a history an
    earlier [evolve] returned, keeps its contents.  The best-ever snapshot,
    the flags and the configuration stay as they are. *)
Theorem reset_rebinds_to_new_lists self h e :
  objs h !! self = Some e ->
  exists h' e',
    Sequential_reset self h = (h', Return tt) /\
    objs h' = <[self := e']> (objs h) /\
    iteration e' = 0 /\
    pops h !! individuals e' = None /\ hists h !! history e' = None /\
    pops h' = <[individuals e' := []]> (pops h) /\
    hists h' = <[history e' := []]> (hists h) /\
    (forall r, is_Some (pops h !! r) -> pops h' !! r = pops h !! r) /\
    (forall r, is_Some (hists h !! r) -> hists h' !! r = hists h !! r) /\
    best_ever e' = best_ever e /\ generations e' = generations e /\
    compiled e' = compiled e /\ deactivated e' = deactivated e /\
    layers e' = layers e /\ callback e' = callback e /\
    fitness_function e' = fitness_function e /\ verbose_every e' = verbose_every e.
Proof.
  intros He.
  eexists _, (set_iteration 0 (set_history (fresh (dom (hists h)))
                (set_individuals (fresh (dom (pops h))) e))).
  split; [by apply reset_spec|]. simpl.
  split; [done|]. split; [done|].
  split; [apply fresh_lookup_None|]. split; [apply fresh_lookup_None|].
  split; [done|]. split; [done|]. split; [|split; [|done]].
  - intros r Hr. rewrite lookup_insert_ne; [done|].
    intros <-. rewrite fresh_lookup_None in Hr. by destruct Hr.
  - intros r Hr. rewrite lookup_insert_ne; [done|].
    intros <-. rewrite fresh_lookup_None in Hr. by destruct Hr.
Qed.

(** X4.  Once deactivated an environment stays inert: [evolve] right after
    [deactivate] returns the bare population and leaves the store as it is,
    and so does [evolve] after a further [compile], which does not
    reactivate. *)
Theorem deactivate_is_permanent self fitness_fn inds cb verbose gens h e :
  objs h !! self = Some e ->
  exists h1 h2 e2,
    Environment_deactivate self h = (h1, Return tt) /\
    Environment_evolve self gens h1 = (h1, Return (OnlyIndividuals (individuals e))) /\
    Environment_compile self fitness_fn inds cb verbose h1 = (h2, Return tt) /\
    objs h2 !! self = Some e2 /\ deactivated e2 = true /\
    Environment_evolve self gens h2 = (h2, Return (OnlyIndividuals (individuals e2))).
Proof.
  intros He.
  set (h1 := set_objs (<[self := set_deactivated true e]> (objs h)) h).
  assert (He1 : objs h1 !! self = Some (set_deactivated true e))
    by (subst h1; simpl; by rewrite lookup_insert_eq).
  eexists h1, _, _. split; [by apply set_attr_eq|].
  split; [by apply (evolve_deactivated self gens h1 _ He1)|].
  split; [by apply compile_spec|]. split; [simpl; by rewrite lookup_insert_eq|].
  split; [done|]. apply evolve_deactivated; [|done].
  destruct inds; simpl; by rewrite lookup_insert_eq.
Qed.

(** X5.  [get_fitness_metric] reads the best-ever fitness and changes
    nothing: at any point of the life of an environment it returns the
    greatest representative fitness of the generations completed so far,
    and 0 when none has completed. *)
Theorem fitness_metric_is_running_maximum self h reps :
  lifetime self h reps ->
  Environment_get_fitness_metric self h = (h, Return (default 0 (max_of reps))).
Proof.
  intros Hlife. destruct (lifetime_invariant self h reps Hlife) as (e & He & Hinv).
  unfold Environment_get_fitness_metric.
  rewrite (bind_get_attr self best_ever _ h e He), <- Hinv.
  by destruct (best_ever e).
Qed.

(** X6.  [evolve(N)] with N zero or negative runs no generation: it stores
    N as the generation target and returns the population and the history,
    both untouched; the iteration index, the best-ever snapshot and the
    collaborators are as before. *)
Theorem evolve_nonpositive_runs_nothing self gens h e :
  objs h !! self = Some e -> deactivated e = false -> gens <= 0 ->
  Environment_evolve self gens h =
    (set_objs (<[self := set_generations gens e]> (objs h)) h,
     Return (IndividualsAndHistory (individuals e) (history e))).
Proof.
  intros He Hon Hgens. rewrite (evolve_active self gens h e He Hon). cbv zeta.
  unfold range. replace (Z.to_nat gens) with 0%nat by lia. simpl.
  rewrite bind_ret.
  set (h0 := set_objs _ h).
  assert (He0 : objs h0 !! self = Some (set_generations gens e))
    by (subst h0; simpl; by rewrite lookup_insert_eq).
  by rewrite (bind_get_attr self individuals _ h0 _ He0),
    (bind_get_attr self history _ h0 _ He0).
Qed.

(** ** The loop index and the progress lines of [evolve] *)

Lemma loop_index self : forall n a h e h' out,
  objs h !! self = Some e ->
  for_each (Z.of_nat <$> seq a n) (fun i =>
    bind (set_attr self (set_iteration i))
      (fun _ => bind (get_attr self individuals)
         (fun inds => Environment_execute self inds))) h = (h', out) ->
  exists e' k,
    objs h' !! self = Some e' /\ generations e' = generations e /\
    length (hists h' !!! history e) = (length (hists h !!! history e) + k)%nat /\
    match out with
    | Return _ =>
        k = n /\ (n = 0%nat -> iteration e' = iteration e) /\
        ((0 < n)%nat -> iteration e' = Z.of_nat (a + n) - 1)
    | Raise _ => (k < n)%nat /\ iteration e' = Z.of_nat (a + k)
    end.
Proof.
  induction n as [|n IH]; intros a h e h' out He Hloop.
  - simpl in Hloop. injection Hloop as <- <-. exists e, 0%nat.
    rewrite Nat.add_0_r. repeat split; try done. lia.
  - simpl in Hloop. unfold bind at 1 in Hloop.
    destruct (generation_body_spec self (Z.of_nat a) h e He) as (h2 & Hdone & Hbody).
    cbv zeta in Hbody, Hdone. rewrite Hbody in Hloop. clear Hbody.
    set (e1 := set_iteration (Z.of_nat a) e) in *.
    set (h1 := set_objs (<[self := e1]> (objs h)) h) in *.
    destruct Hdone as (Ho2 & Hh2 & Hs2 & Hw2 & Hp2 & Hfr2).
    destruct (last (after_stages h1 e1).2) as [rep|] eqn:Hlast.
    + set (h3 := generation_end self e1 rep h2) in *.
      set (e3 := set_best_ever (new_best (best_ever e1) rep) e1) in *.
      assert (He3 : objs h3 !! self = Some e3)
        by (subst h3; simpl; by rewrite lookup_insert_eq).
      destruct (IH (S a) h3 e3 h' out He3 Hloop) as (e' & k & He' & Hg & Hlen & Hout).
      exists e', (S k). split; [done|]. split; [done|]. split.
      * change (history e3) with (history e) in Hlen. rewrite Hlen.
        subst h3. simpl. rewrite lookup_total_insert_eq, Hh2, length_app. simpl. lia.
      * destruct out as [[]|x].
        -- destruct Hout as (-> & H0 & Hpos). split; [done|]. split; [done|].
           intros _. destruct n as [|n'].
           ++ rewrite (H0 eq_refl). simpl. lia.
           ++ rewrite Hpos by lia. lia.
        -- destruct Hout as [Hk Hit]. split; [lia|]. rewrite Hit. lia.
    + injection Hloop as <- <-. exists e1, 0%nat.
      split; [by rewrite Ho2; simpl; rewrite lookup_insert_eq|]. split; [done|].
      split; [by rewrite Hh2, Nat.add_0_r|]. split; [lia|].
      simpl. by rewrite Nat.add_0_r.
Qed.

(** X7.  On an active environment [evolve(N)] stores N as the generation
    target.  When it returns, the iteration index is N-1 (and is untouched
    when N is not positive): the index restarts at 0 with every call and
    does not count the generations of the environment's life.  When it
    raises, the index is that of the generation that failed, which is the
    number of entries the call appended to the history. *)
Theorem evolve_leaves_the_loop_index self gens h e h' out :
  objs h !! self = Some e -> deactivated e = false ->
  Environment_evolve self gens h = (h', out) ->
  exists e',
    objs h' !! self = Some e' /\ generations e' = gens /\
    match out with
    | Return _ =>
        (1 <= gens -> iteration e' = gens - 1) /\
        (gens <= 0 -> iteration e' = iteration e)
    | Raise _ =>
        0 <= iteration e' < gens /\
        Z.of_nat (length (hists h' !!! history e))
          = Z.of_nat (length (hists h !!! history e)) + iteration e'
    end.
Proof.
  intros He Hon Hev. rewrite (evolve_active self gens h e He Hon) in Hev.
  cbv zeta in Hev.
  set (e0 := set_generations gens e) in *.
  set (h0 := set_objs (<[self := e0]> (objs h)) h) in *.
  assert (He0 : objs h0 !! self = Some e0)
    by (subst h0; simpl; by rewrite lookup_insert_eq).
  unfold bind at 1 in Hev.
  destruct (for_each _ _ h0) as [h1 out1] eqn:Hloop.
  destruct (loop_index self _ 0%nat h0 e0 h1 out1 He0 Hloop)
    as (e' & k & He' & Hg & Hlen & Hout).
  destruct out1 as [[]|x].
  - rewrite (bind_get_attr self individuals _ h1 e' He'),
      (bind_get_attr self history _ h1 e' He') in Hev.
    injection Hev as <- <-. exists e'. split; [done|]. split; [done|].
    destruct Hout as (-> & H0 & Hpos). split.
    + intros Hge. rewrite Hpos by lia. simpl. lia.
    + intros Hle. apply H0. lia.
  - injection Hev as <- <-. exists e'. split; [done|]. split; [done|].
    destruct Hout as [Hk Hit]. simpl in Hit. split; [lia|].
    change (history e0) with (history e) in Hlen.
    change (hists h0) with (hists h) in Hlen. rewrite Hlen, Hit. lia.
Qed.

Lemma loop_output self : forall n a h e h' out,
  objs h !! self = Some e ->
  for_each (Z.of_nat <$> seq a n) (fun i =>
    bind (set_attr self (set_iteration i))
      (fun _ => bind (get_attr self individuals)
         (fun inds => Environment_execute self inds))) h = (h', out) ->
  exists evs, stdout h' = stdout h ++ evs /\
    Forall (fun ev => exists g f size,
              ev = PrintProgress (name e) g (generations e) f size /\
              Z.of_nat a + 1 <= g <= Z.of_nat (a + n) /\ 3 <= g /\
              verbose_every e ≠ 0 /\ (g - 1) `mod` verbose_every e = 0) evs.
Proof.
  induction n as [|n IH]; intros a h e h' out He Hloop.
  - simpl in Hloop. injection Hloop as <- <-. exists []. by rewrite app_nil_r.
  - simpl in Hloop. unfold bind at 1 in Hloop.
    destruct (generation_body_spec self (Z.of_nat a) h e He) as (h2 & Hdone & Hbody).
    cbv zeta in Hbody, Hdone. rewrite Hbody in Hloop. clear Hbody.
    set (e1 := set_iteration (Z.of_nat a) e) in *.
    set (h1 := set_objs (<[self := e1]> (objs h)) h) in *.
    destruct Hdone as (Ho2 & Hh2 & Hs2 & Hw2 & Hp2 & Hfr2).
    destruct (last (after_stages h1 e1).2) as [rep|] eqn:Hlast.
    + set (h3 := generation_end self e1 rep h2) in *.
      set (e3 := set_best_ever (new_best (best_ever e1) rep) e1) in *.
      assert (He3 : objs h3 !! self = Some e3)
        by (subst h3; simpl; by rewrite lookup_insert_eq).
      destruct (IH (S a) h3 e3 h' out He3 Hloop) as (evs & Hout & Hall).
      exists (progress e1 rep (length (pops h2 !!! individuals e1)) ++ evs). split.
      * rewrite Hout. subst h3. simpl. by rewrite Hs2, <- app_assoc.
      * apply Forall_app. split.
        -- unfold progress. simpl.
           destruct (bool_decide (verbose_every e ≠ 0)) eqn:Hv; simpl; [|done].
           destruct (bool_decide (Z.of_nat a `mod` verbose_every e = 0)) eqn:Hm;
             simpl; [|done].
           destruct (bool_decide (1 < Z.of_nat a)) eqn:Hw; simpl; [|done].
           apply bool_decide_eq_true in Hv, Hm, Hw.
           constructor; [|done]. eexists _, _, _. split; [reflexivity|].
           replace (Z.of_nat a + 1 - 1) with (Z.of_nat a) by lia.
           repeat split; try done; lia.
        -- eapply Forall_impl; [exact Hall|]. simpl.
           intros ev (g & f & size & -> & Hg & H3 & Hv & Hm).
           eexists _, _, _. split; [reflexivity|]. repeat split; try done; lia.
    + injection Hloop as <- <-. exists []. by rewrite app_nil_r, Hs2.
Qed.

(** X8.  All that [evolve(N)] itself prints, whatever its outcome, are
    progress lines of the environment for generation numbers between 3 and
    N that are one more than a multiple of the reporting interval.  So it
    prints nothing when N is at most 2 or when the interval is 0, for which
    it never divides by the interval. *)
Theorem evolve_prints_after_warm_up self gens h e h' out :
  objs h !! self = Some e ->
  Environment_evolve self gens h = (h', out) ->
  exists evs, stdout h' = stdout h ++ evs /\
    Forall (progress_line e gens) evs /\
    (gens <= 2 \/ verbose_every e = 0 \/ deactivated e = true -> evs = []).
Proof.
  intros He Hev.
  assert (Hnone : forall evs, Forall (progress_line e gens) evs ->
            gens <= 2 \/ verbose_every e = 0 -> evs = []).
  { intros [|ev evs] Hall Hcase; [done|]. exfalso.
    apply Forall_cons in Hall as [(g & f & size & _ & Hg & Hv & _) _]. lia. }
  destruct (deactivated e) eqn:Hoff.
  { rewrite (evolve_deactivated self gens h e He Hoff) in Hev. injection Hev as <- <-.
    exists []. by rewrite app_nil_r. }
  rewrite (evolve_active self gens h e He Hoff) in Hev. cbv zeta in Hev.
  set (e0 := set_generations gens e) in *.
  set (h0 := set_objs (<[self := e0]> (objs h)) h) in *.
  assert (He0 : objs h0 !! self = Some e0)
    by (subst h0; simpl; by rewrite lookup_insert_eq).
  unfold bind at 1 in Hev.
  destruct (for_each _ _ h0) as [h1 out1] eqn:Hloop.
  destruct (loop_output self _ 0%nat h0 e0 h1 out1 He0 Hloop) as (evs & Hout & Hall).
  assert (Hlines : Forall (progress_line e gens) evs).
  { eapply Forall_impl; [exact Hall|]. simpl.
    intros ev (g & f & size & -> & Hg & H3 & Hv & Hm).
    exists g, f, size. repeat split; try done; lia. }
  assert (Hh' : stdout h' = stdout h1).
  { destruct out1 as [[]|x]; [|by injection Hev as <- <-].
    destruct (evolve_loop_spec self _ 0%nat h0 e0 h1 _ He0 Hloop) as (e1 & fits & Ho & _).
    assert (He1 : objs h1 !! self = Some e1) by (by rewrite Ho, lookup_insert_eq).
    rewrite (bind_get_attr self individuals _ h1 e1 He1),
      (bind_get_attr self history _ h1 e1 He1) in Hev.
    by injection Hev as <- <-. }
  exists evs. split; [by rewrite Hh', Hout|]. split; [done|].
  intros [Hc|[Hc|Hc]]; [by apply Hnone; auto..|discriminate].
Qed.

(** ** Runs after a reset, and what a run leaves alone *)

Lemma evolve_returns self gens h e :
  objs h !! self = Some e -> deactivated e = false -> never_empties e ->
  exists h' fits,
    Environment_evolve self gens h
      = (h', Return (IndividualsAndHistory (individuals e) (history e))) /\
    length fits = Z.to_nat gens /\
    hists h' !!! history e = hists h !!! history e ++ fits /\
    only_at (history e) (hists h) (hists h') /\
    only_at (individuals e) (pops h) (pops h') /\
    exists e', objs h' !! self = Some e' /\ same_static e e'.
Proof.
  intros He Hon Hne.
  set (e0 := set_generations gens e).
  set (h0 := set_objs (<[self := e0]> (objs h)) h).
  assert (He0 : objs h0 !! self = Some e0)
    by (subst h0; simpl; by rewrite lookup_insert_eq).
  destruct (evolve_loop_returns self e (Z.to_nat gens) 0%nat h0 e0 Hne eq_refl eq_refl He0)
    as (h1 & Hloop).
  destruct (evolve_loop_spec self _ 0%nat h0 e0 h1 (Return tt) He0 Hloop)
    as (e' & fits & Ho & Hst & Hh & Hfh & Hfp & Hlen & Hret & Hraise).
  destruct Hret as [Hl Hc]; [done|].
  assert (He1 : objs h1 !! self = Some e') by (by rewrite Ho, lookup_insert_eq).
  exists h1, fits. split; [|repeat (split; [done|]); exists e'; split; [done|exact Hst]].
  rewrite (evolve_active self gens h e He Hon). cbv zeta. fold e0 h0.
  unfold range. rewrite (bind_return _ _ _ _ _ Hloop).
  rewrite (bind_get_attr self individuals _ h1 e' He1),
    (bind_get_attr self history _ h1 e' He1).
  unfold ret. do 3 f_equal; subst e0; unfold same_static in Hst; simpl in Hst;
    intuition congruence.
Qed.

(** X9.  After [reset], a call [evolve(N)] with N not negative, on an
    active environment whose stages never empty the population, returns a
    history of exactly N entries, in a list that was not in use before the
    reset; the lists that held the population and the history of earlier
    runs keep their contents. *)
Theorem reset_then_evolve_starts_a_new_history self gens h e :
  objs h !! self = Some e -> deactivated e = false -> never_empties e ->
  0 <= gens ->
  exists h1 h2 inds hist,
    Sequential_reset self h = (h1, Return tt) /\
    Sequential_evolve self gens h1 = (h2, Return (IndividualsAndHistory inds hist)) /\
    pops h !! inds = None /\ hists h !! hist = None /\
    Z.of_nat (length (hists h2 !!! hist)) = gens /\
    (forall r, is_Some (pops h !! r) -> pops h2 !! r = pops h !! r) /\
    (forall r, is_Some (hists h !! r) -> hists h2 !! r = hists h !! r).
Proof.
  intros He Hon Hne Hgens.
  set (p := fresh (dom (pops h))). set (q := fresh (dom (hists h))).
  set (e1 := set_iteration 0 (set_history q (set_individuals p e))).
  set (h1 := set_objs (<[self := e1]> (objs h))
               (set_hists (<[q := []]> (hists h)) (set_pops (<[p := []]> (pops h)) h))).
  assert (He1 : objs h1 !! self = Some e1)
    by (subst h1; simpl; by rewrite lookup_insert_eq).
  destruct (evolve_returns self gens h1 e1 He1 Hon)
    as (h2 & fits & Hev & Hlen & Hh & [Hfh _] & [Hfp _] & _).
  { intros h' e' Hl Hc. by apply Hne. }
  exists h1, h2, p, q. split; [by apply reset_spec|]. split; [exact Hev|].
  split; [apply fresh_lookup_None|]. split; [apply fresh_lookup_None|].
  split; [|split].
  - change (history e1) with q in Hh. rewrite Hh. subst h1. simpl.
    rewrite lookup_total_insert_eq. simpl. lia.
  - intros r Hr. assert (r ≠ p).
    { intros ->. subst p. rewrite fresh_lookup_None in Hr. by destruct Hr. }
    rewrite Hfp by done. subst h1. simpl. by rewrite lookup_insert_ne.
  - intros r Hr. assert (r ≠ q).
    { intros ->. subst q. rewrite fresh_lookup_None in Hr. by destruct Hr. }
    rewrite Hfh by done. subst h1. simpl. by rewrite lookup_insert_ne.
Qed.

(** X10.  [evolve] continues, it does not restart: a second call on an
    active environment whose stages never empty the population returns
    the same two lists as the first, and the history then holds the
    entries it held before the first call, followed by one entry for each
    generation of the first call and one for each generation of the
    second. *)
Theorem evolve_again_continues_the_history self a b h e :
  objs h !! self = Some e -> deactivated e = false -> never_empties e ->
  exists h1 h2 fits1 fits2,
    Environment_evolve self a h
      = (h1, Return (IndividualsAndHistory (individuals e) (history e))) /\
    Environment_evolve self b h1
      = (h2, Return (IndividualsAndHistory (individuals e) (history e))) /\
    hists h2 !!! history e = hists h !!! history e ++ fits1 ++ fits2 /\
    length fits1 = Z.to_nat a /\ length fits2 = Z.to_nat b.
Proof.
  intros He Hon Hne.
  destruct (evolve_returns self a h e He Hon Hne)
    as (h1 & fits1 & Hev1 & Hlen1 & Hh1 & _ & _ & e1 & He1 & Hst1).
  assert (Hon1 : deactivated e1 = false)
    by (unfold same_static in Hst1; intuition congruence).
  assert (Hne1 : never_empties e1).
  { intros h0 e0 Hl Hc. apply Hne; unfold same_static in Hst1; intuition congruence. }
  destruct (evolve_returns self b h1 e1 He1 Hon1 Hne1)
    as (h2 & fits2 & Hev2 & Hlen2 & Hh2 & _).
  assert (Hi : individuals e1 = individuals e)
    by (unfold same_static in Hst1; intuition congruence).
  assert (Hhist : history e1 = history e)
    by (unfold same_static in Hst1; intuition congruence).
  rewrite Hi, Hhist in Hev2. rewrite Hhist in Hh2.
  exists h1, h2, fits1, fits2. split; [exact Hev1|]. split; [exact Hev2|].
  split; [|done]. by rewrite Hh2, Hh1, <- app_assoc.
Qed.

(** X11.  Whatever its outcome, a call of [evolve] on an environment
    touches nothing but this environment and its two lists: every other
    object is unchanged, the environment keeps all its attributes except
    the generation target, the iteration index and the best-ever snapshot,
    and every list other than its population and its history keeps its
    contents. *)
Theorem evolve_touches_only_its_own env gens h h' out :
  Environment_evolve env gens h = (h', out) ->
  (forall r ee, objs h !! r = Some ee ->
     exists ee', objs h' !! r = Some ee' /\ same_static ee ee' /\ (r ≠ env -> ee' = ee)) /\
  (forall ee, objs h !! env = Some ee ->
     (forall r, r ≠ history ee -> hists h' !! r = hists h !! r) /\
     (forall r, r ≠ individuals ee -> pops h' !! r = pops h !! r)).
Proof.
  intros Hev. destruct (evolve_frame env gens h h' out Hev) as (Hobjs & Hlists & _).
  split; [exact Hobjs|]. intros ee Hee.
  destruct (Hlists ee Hee) as [[Hh _] [Hp _]]. by split.
Qed.

(** ** Edge cases of [Adversarial.evolve] *)

Lemma fold_each_app {A B} (l1 l2 : list A) (acc : B) (body : B -> A -> M B) h :
  fold_each (l1 ++ l2) acc body h
    = bind (fold_each l1 acc body) (fun acc' => fold_each l2 acc' body) h.
Proof.
  revert acc h. induction l1 as [|x l1 IH]; intros acc h; [done|].
  simpl. unfold bind. destruct (body acc x h) as [h1 [acc1|x1]]; [|done].
  rewrite IH. done.
Qed.

(** X12.  Over an empty list of sub-environments [Adversarial.evolve]
    prints the empty comparison table and raises [ValueError], the error
    of [max] on an empty list; nothing else changes. *)
Theorem adversarial_evolve_without_environments self gens h e :
  objs h !! self = Some e -> subclass e = AdversarialClass [] ->
  Adversarial_evolve self gens h
    = (set_stdout (stdout h ++ [PrintTable []]) h, Raise ValueError).
Proof.
  intros He Hsub.
  assert (Henvs : get_environments self h = (h, Return []))
    by (unfold get_environments; by rewrite (bind_get_attr self subclass _ h e He), Hsub).
  unfold Adversarial_evolve. rewrite (bind_return _ _ _ _ _ Henvs).
  simpl fold_each. rewrite bind_ret. unfold fst. rewrite bind_print. done.
Qed.

(** X13.  A deactivated sub-environment breaks [Adversarial.evolve]: its
    [evolve] returns the bare population, which does not unpack into a
    population and a history.  When the runs before it have completed and
    its population does not hold exactly two candidates, the call raises
    [ValueError]; the results gathered so far are lost and the
    sub-environments after it are not run. *)
Theorem adversarial_evolve_over_deactivated
    self gens h e before env after results h1 ee :
  objs h !! self = Some e ->
  subclass e = AdversarialClass (before ++ env :: after) ->
  adversarial_runs self gens before h results h1 ->
  objs h1 !! env = Some ee -> deactivated ee = true ->
  length (pops h1 !!! individuals ee) ≠ 2%nat ->
  exists w, Adversarial_evolve self gens h = (set_world w h1, Raise ValueError).
Proof.
  intros He Hsub Hruns Hee Hoff Hlen.
  destruct (adversarial_loop_spec self gens before h results h1 Hruns) as [_ Hloop].
  destruct (Hloop ([], [])) as [plots Hfold]. simpl in Hfold.
  exists (time_time (world h1)).1.
  assert (Henvs : get_environments self h = (h, Return (before ++ env :: after)))
    by (unfold get_environments; by rewrite (bind_get_attr self subclass _ h e He), Hsub).
  unfold Adversarial_evolve. rewrite (bind_return _ _ _ _ _ Henvs).
  apply bind_raise.
  rewrite fold_each_app, (bind_return _ _ _ _ _ Hfold). simpl fold_each.
  apply bind_raise. unfold Adversarial_evolve_body.
  unfold now at 1. unfold bind at 1.
  destruct (time_time (world h1)) as [w t] eqn:Hnow. simpl.
  assert (Hee' : objs (set_world w h1) !! env = Some ee) by done.
  rewrite (bind_return _ _ _ _ _ (evolve_deactivated env gens _ ee Hee' Hoff)).
  apply bind_raise. unfold unpack_pair. rewrite bind_read_pop. simpl.
  by destruct (pops h1 !!! individuals ee) as [|a [|b [|c l]]].
Qed.

(** ** [compile] of the composites *)

Lemma compile_loop_skips {A} (proj : A -> ref) verbose (l : list A) h :
  (forall x, x ∈ l -> exists ee, objs h !! proj x = Some ee /\ compiled ee = true) ->
  for_each l (fun x =>
    let environment := proj x in
    bind (get_attr environment compiled) (fun done =>
      if negb done
      then call_compile environment None None None (Some verbose)
      else ret tt)) h = (h, Return tt).
Proof.
  induction l as [|x l IH]; intros Hall; [done|].
  simpl. destruct (Hall x) as (ex & Hex & Hc); [by left|].
  unfold bind at 1.
  rewrite (bind_return _ _ _ _ _ (get_attr_eq (proj x) compiled h ex Hex)), Hc.
  simpl. apply IH. intros z Hz. apply Hall. by right.
Qed.

Lemma compile_members self fitness_fn inds cb verbose h e h1 :
  objs h !! self = Some e ->
  Environment_compile self fitness_fn inds cb verbose h = (h1, Return tt) ->
  (exists e1, objs h1 !! self = Some e1 /\ compiled e1 = true /\
     subclass e1 = subclass e) /\
  (forall r, r ≠ self -> objs h1 !! r = objs h !! r).
Proof.
  intros He Hc. rewrite (compile_spec self fitness_fn inds cb verbose h e He) in Hc.
  cbv zeta in Hc. injection Hc as <-. destruct inds as [p|]; (split;
    [eexists; split; [simpl; by rewrite lookup_insert_eq | by split]
    |intros r Hr; simpl; by rewrite lookup_insert_ne]).
Qed.

(** X14.  [compile] of a composite never compiles a sub-environment.  When
    every sub-environment (other than the composite itself, should it be
    listed) is compiled already, [compile] of the adversarial, the adaptive
    and the chronological class does what [Environment.compile] does, no
    more. *)
Theorem composite_compile_over_compiled self fitness_fn inds cb verbose h e envs h1 :
  objs h !! self = Some e ->
  (forall r, r ∈ envs ->
     r = self \/ exists ee, objs h !! r = Some ee /\ compiled ee = true) ->
  Environment_compile self fitness_fn inds cb verbose h = (h1, Return tt) ->
  (subclass e = AdversarialClass envs ->
     Adversarial_compile self fitness_fn inds cb verbose h = (h1, Return tt)) /\
  (forall sw cur g gf, subclass e = AdaptiveClass envs sw cur g gf ->
     AdaptiveEnvironment_compile self fitness_fn inds cb verbose h = (h1, Return tt)) /\
  (forall stages comb best, subclass e = ChronologicalClass stages comb best ->
     stages.*1 = envs ->
     ChronologicalEnvironment_compile self fitness_fn inds cb verbose h
       = (h1, Return tt)).
Proof.
  intros He Hall Hc.
  destruct (compile_members _ _ _ _ _ _ _ _ He Hc) as [(e1 & He1 & Hc1 & Hs1) Hothers].
  assert (Hall1 : forall r, r ∈ envs ->
            exists ee, objs h1 !! r = Some ee /\ compiled ee = true).
  { intros r Hr. destruct (decide (r = self)) as [->|Hne]; [by exists e1|].
    rewrite Hothers by done. by destruct (Hall r Hr). }
  split; [|split].
  - intros Hsub. unfold Adversarial_compile. rewrite (bind_return _ _ _ _ _ Hc).
    assert (Henvs : get_environments self h1 = (h1, Return envs))
      by (unfold get_environments;
          by rewrite (bind_get_attr self subclass _ h1 e1 He1), Hs1, Hsub).
    rewrite (bind_return _ _ _ _ _ Henvs).
    by apply (compile_loop_skips (fun r => r)).
  - intros sw cur g gf Hsub. unfold AdaptiveEnvironment_compile.
    rewrite (bind_return _ _ _ _ _ Hc).
    assert (Henvs : get_environments self h1 = (h1, Return envs))
      by (unfold get_environments;
          by rewrite (bind_get_attr self subclass _ h1 e1 He1), Hs1, Hsub).
    rewrite (bind_return _ _ _ _ _ Henvs).
    by apply (compile_loop_skips (fun r => r)).
  - intros stages comb best Hsub <-. unfold ChronologicalEnvironment_compile.
    rewrite (bind_return _ _ _ _ _ Hc).
    assert (Hst : get_stages self h1 = (h1, Return stages))
      by (unfold get_stages;
          by rewrite (bind_get_attr self subclass _ h1 e1 He1), Hs1, Hsub).
    rewrite (bind_return _ _ _ _ _ Hst).
    apply (compile_loop_skips fst). intros x Hx. apply Hall1.
    apply list_elem_of_fmap. by exists x.
Qed.

(** X15.  When some sub-environment other than the composite itself is
    not compiled, [compile] of each composite class raises [TypeError]
    after the base [compile] has run: the composite is left compiled, bound
    to its fitness function, and every sub-environment is left exactly as
    it was. *)
Theorem composite_compile_stops_at_uncompiled
    self fitness_fn inds cb verbose h e envs h1 :
  objs h !! self = Some e ->
  (forall r, r ∈ envs -> is_Some (objs h !! r)) ->
  (exists r ee, r ∈ envs /\ r ≠ self /\ objs h !! r = Some ee /\ compiled ee = false) ->
  Environment_compile self fitness_fn inds cb verbose h = (h1, Return tt) ->
  ((subclass e = AdversarialClass envs ->
      Adversarial_compile self fitness_fn inds cb verbose h = (h1, Raise TypeError)) /\
   (forall sw cur g gf, subclass e = AdaptiveClass envs sw cur g gf ->
      AdaptiveEnvironment_compile self fitness_fn inds cb verbose h
        = (h1, Raise TypeError)) /\
   (forall stages comb best, subclass e = ChronologicalClass stages comb best ->
      stages.*1 = envs ->
      ChronologicalEnvironment_compile self fitness_fn inds cb verbose h
        = (h1, Raise TypeError))) /\
  (exists e1, objs h1 !! self = Some e1 /\ compiled e1 = true) /\
  (forall r, r ≠ self -> objs h1 !! r = objs h !! r).
Proof.
  intros He Hvalid (r0 & ee0 & Hr0 & Hne0 & Hee0 & Hoff) Hc.
  destruct (compile_members _ _ _ _ _ _ _ _ He Hc) as [(e1 & He1 & Hc1 & Hs1) Hothers].
  assert (Hvalid1 : forall r, r ∈ envs -> is_Some (objs h1 !! r)).
  { intros r Hr. destruct (decide (r = self)) as [->|Hne]; [by exists e1|].
    rewrite Hothers by done. by apply Hvalid. }
  assert (Hee1 : objs h1 !! r0 = Some ee0) by (by rewrite Hothers).
  split; [|split; [by exists e1 | exact Hothers]].
  split; [|split].
  - intros Hsub. unfold Adversarial_compile. rewrite (bind_return _ _ _ _ _ Hc).
    assert (Henvs : get_environments self h1 = (h1, Return envs))
      by (unfold get_environments;
          by rewrite (bind_get_attr self subclass _ h1 e1 He1), Hs1, Hsub).
    rewrite (bind_return _ _ _ _ _ Henvs).
    apply (compile_loop_raises (fun r => r)); [done|]. by exists r0, ee0.
  - intros sw cur g gf Hsub. unfold AdaptiveEnvironment_compile.
    rewrite (bind_return _ _ _ _ _ Hc).
    assert (Henvs : get_environments self h1 = (h1, Return envs))
      by (unfold get_environments;
          by rewrite (bind_get_attr self subclass _ h1 e1 He1), Hs1, Hsub).
    rewrite (bind_return _ _ _ _ _ Henvs).
    apply (compile_loop_raises (fun r => r)); [done|]. by exists r0, ee0.
  - intros stages comb best Hsub <-. unfold ChronologicalEnvironment_compile.
    rewrite (bind_return _ _ _ _ _ Hc).
    assert (Hst : get_stages self h1 = (h1, Return stages))
      by (unfold get_stages;
          by rewrite (bind_get_attr self subclass _ h1 e1 He1), Hs1, Hsub).
    rewrite (bind_return _ _ _ _ _ Hst).
    apply list_elem_of_fmap in Hr0 as (x0 & -> & Hx0).
    apply (compile_loop_raises fst).
    + intros x Hx. apply Hvalid1. apply list_elem_of_fmap. by exists x.
    + by exists x0, ee0.
Qed.

(** ** A stage of [ChronologicalEnvironment.evolve] *)

(** What a stage that completes has done, lines 272-283: the run of the
    stage environment on the population of the composite, the extension
    of that population by itself, and the update of the best stage on
    record. *)
Lemma chrono_stage_spec self gens env count h h' e ee :
  objs h !! self = Some e -> objs h !! env = Some ee -> self ≠ env ->
  ChronologicalEnvironment_evolve_body self gens (env, count) h = (h', Return tt) ->
  deactivated ee = false /\
  exists stages comb best, subclass e = ChronologicalClass stages comb best /\
  exists hb h2,
    objs hb = <[env := set_individuals (individuals e) ee]> (objs h) /\
    pops hb = pops h /\ hists hb = hists h /\ world hb = world h /\
    Environment_evolve env (default gens count) hb
      = (h2, Return (IndividualsAndHistory (individuals e) (history ee))) /\
    pops h' = <[individuals e :=
                  pops h2 !!! individuals e ++ pops h2 !!! individuals e]> (pops h2) /\
    exists top e',
      last (hists h' !!! history ee) = Some top /\
      objs h' !! self = Some e' /\
      subclass e' = ChronologicalClass stages comb
        (Some match best with
              | Some (nm, v) => if bool_decide (v < top) then (name ee, top) else (nm, v)
              | None => (name ee, top)
              end).
Proof.
  intros He Hee Hse Hbody.
  unfold ChronologicalEnvironment_evolve_body in Hbody. cbn [fst snd] in Hbody.
  set (g := default gens count).
  set (hw := match count with
             | None => set_stdout (stdout h ++ [Warn]) h
             | Some _ => h
             end).
  assert (Hw : forall B (k : Z -> M B),
            bind match count with
                 | None => bind (print Warn) (fun _ => ret gens)
                 | Some g0 => ret g0
                 end k h = k g hw).
  { intros B k. subst g hw. by destruct count. }
  rewrite Hw in Hbody. clear Hw.
  assert (Hew : objs hw !! env = Some ee) by (subst hw; by destruct count).
  assert (Hsw : objs hw !! self = Some e) by (subst hw; by destruct count).
  rewrite (bind_get_attr env name _ hw ee Hew), bind_print in Hbody.
  set (ha := set_stdout _ hw) in *.
  rewrite (bind_get_attr self individuals _ ha e Hsw) in Hbody.
  rewrite (bind_set_attr env _ _ ha ee Hew) in Hbody.
  set (eb := set_individuals (individuals e) ee) in *.
  set (hb := set_objs _ ha) in *.
  assert (Heb : objs hb !! env = Some eb)
    by (subst hb; simpl; by rewrite lookup_insert_eq).
  assert (Hob : objs hb = <[env := eb]> (objs h))
    by (subst hb ha hw; by destruct count).
  destruct (Environment_evolve env g hb) as [h2 out] eqn:Hev.
  destruct (deactivated eb) eqn:Hoff.
  { exfalso. rewrite (evolve_deactivated env g hb eb Heb Hoff) in Hev.
    injection Hev as <- <-.
    rewrite (bind_return _ _ _ _ _ (evolve_deactivated env g hb eb Heb Hoff)) in Hbody.
    unfold unpack_pair in Hbody.
    unfold bind at 1 in Hbody. rewrite bind_read_pop in Hbody.
    destruct (pops hb !!! individuals eb) as [|a [|b [|c l]]]; try discriminate.
    unfold ret at 1 in Hbody. rewrite bind_new_hist in Hbody.
    unfold bind, set_attr, raise in Hbody.
    assert (Hx : forall m, objs (set_hists m hb) !! env = Some eb) by (intros; exact Heb).
    rewrite Hx in Hbody. discriminate. }
  split; [exact Hoff|].
  destruct (evolve_spec env g hb eb h2 out Heb Hoff Hev)
    as (e2 & fits & Ho2 & Hst2 & Hh2 & Hfh2 & Hfp2 & Hret & _).
  destruct out as [r|x]; [|by rewrite (bind_raise _ _ _ _ _ Hev) in Hbody].
  destruct (Hret r eq_refl) as (-> & Hlen & _).
  rewrite (bind_return _ _ _ _ _ Hev) in Hbody.
  change (individuals eb) with (individuals e) in *.
  change (history eb) with (history ee) in *.
  unfold unpack_pair in Hbody. rewrite bind_ret, bind_new_hist in Hbody.
  set (f := fresh (dom (hists h2))) in *.
  set (h3 := set_hists (<[f := []]> (hists h2)) h2) in *.
  assert (He2 : objs h3 !! env = Some e2)
    by (subst h3; simpl; by rewrite Ho2, lookup_insert_eq).
  rewrite (bind_set_attr env _ _ h3 e2 He2) in Hbody.
  set (e4 := set_history f e2) in *.
  set (h4 := set_objs (<[env := e4]> (objs h3)) h3) in *.
  assert (Hs4 : objs h4 !! self = Some e).
  { subst h4 h3. simpl. rewrite lookup_insert_ne, Ho2, lookup_insert_ne by done.
    by rewrite Hob, lookup_insert_ne. }
  rewrite (bind_get_attr self individuals _ h4 e Hs4) in Hbody.
  rewrite !bind_read_pop, bind_write_pop in Hbody.
  set (h5 := set_pops _ h4) in *.
  assert (Hs5 : objs h5 !! self = Some e) by done.
  assert (Hsub : exists stages comb best, subclass e = ChronologicalClass stages comb best).
  { destruct (subclass e) eqn:Hs; [exfalso|exfalso|eauto|exfalso];
      (rewrite (bind_raise _ _ h5 h5 AttributeError) in Hbody; [done|];
       unfold get_combined_history;
       by rewrite (bind_get_attr self subclass _ h5 e Hs5), Hs). }
  destruct Hsub as (stages & comb & best & Hsub).
  exists stages, comb, best. split; [exact Hsub|].
  exists hb, h2. split; [exact Hob|].
  split; [by (subst hb ha hw; destruct count)|].
  split; [by (subst hb ha hw; destruct count)|].
  split; [by (subst hb ha hw; destruct count)|].
  split; [done|].
  rewrite (bind_return _ _ _ _ _ (get_combined_history_eq self h5 e _ _ _ Hs5 Hsub)) in Hbody.
  rewrite !bind_read_hist, bind_write_hist in Hbody.
  set (h6 := set_hists _ h5) in *.
  assert (Hs6 : objs h6 !! self = Some e) by done.
  rewrite (bind_return _ _ _ _ _ (get_best_environment_eq self h6 e _ _ _ Hs6 Hsub)) in Hbody.
  rewrite bind_read_hist in Hbody.
  assert (He6 : objs h6 !! env = Some e4).
  { subst h6 h5 h4. simpl. by rewrite lookup_insert_eq. }
  change (<[individuals e := pops h2 !!! individuals e ++ pops h2 !!! individuals e]> (pops h2))
    with (pops h6).
  assert (Hname : name e4 = name ee).
  { unfold same_static in Hst2. subst e4 eb. simpl in *. intuition congruence. }
  assert (Hset : forall v,
            subclass (set_best_environment (Some v) e)
              = ChronologicalClass stages comb (Some v))
    by (intros v; unfold set_best_environment; by rewrite Hsub).
  unfold last_item in Hbody.
  destruct best as [[nm0 v]|];
    destruct (last (hists h6 !!! history ee)) as [top|] eqn:Hlast.
  - rewrite bind_ret in Hbody. case_bool_decide.
    + rewrite (bind_get_attr env name _ h6 e4 He6) in Hbody.
      rewrite (set_attr_eq self _ h6 e Hs6) in Hbody. injection Hbody as <-.
      split; [done|]. exists top, (set_best_environment (Some (name e4, top)) e).
      split; [exact Hlast|]. split; [simpl; by rewrite lookup_insert_eq|].
      by rewrite Hset, Hname, bool_decide_eq_true_2.
    + unfold ret in Hbody. injection Hbody as <-.
      split; [done|]. exists top, e. split; [exact Hlast|]. split; [done|].
      by rewrite Hsub, bool_decide_eq_false_2.
  - by rewrite bind_raise_now in Hbody.
  - rewrite (bind_get_attr env name _ h6 e4 He6), bind_ret in Hbody.
    rewrite (set_attr_eq self _ h6 e Hs6) in Hbody. injection Hbody as <-.
    split; [done|]. exists top, (set_best_environment (Some (name e4, top)) e).
    split; [exact Hlast|]. split; [simpl; by rewrite lookup_insert_eq|].
    by rewrite Hset, Hname.
  - rewrite (bind_get_attr env name _ h6 e4 He6) in Hbody.
    by rewrite bind_raise_now in Hbody.
Qed.

(** X16.  A stage of [ChronologicalEnvironment.evolve] that completes has
    doubled the population.  The stage environment is handed the list of
    the composite itself, evolves it in place and returns that same list,
    which line 280 then extends by itself: after the stage the population
    of the composite is the population the stage environment ended with,
    twice over.  A stage completes only on a chronological object and with
    an active stage environment. *)
Theorem chronological_stage_doubles_population self gens env count h h' e ee :
  objs h !! self = Some e -> objs h !! env = Some ee -> self ≠ env ->
  ChronologicalEnvironment_evolve_body self gens (env, count) h = (h', Return tt) ->
  deactivated ee = false /\
  (exists stages comb best, subclass e = ChronologicalClass stages comb best) /\
  exists hb h2,
    objs hb = <[env := set_individuals (individuals e) ee]> (objs h) /\
    pops hb = pops h /\ hists hb = hists h /\ world hb = world h /\
    Environment_evolve env (default gens count) hb
      = (h2, Return (IndividualsAndHistory (individuals e) (history ee))) /\
    pops h' = <[individuals e :=
                  pops h2 !!! individuals e ++ pops h2 !!! individuals e]> (pops h2).
Proof.
  intros He Hee Hse Hbody.
  destruct (chrono_stage_spec self gens env count h h' e ee He Hee Hse Hbody)
    as (Hon & stages & comb & best & Hsub & hb & h2 & Ho & Hp & Hh & Hw & Hev & Hpops & _).
  split; [exact Hon|]. split; [by exists stages, comb, best|].
  by exists hb, h2.
Qed.

(** X17.  A stage that completes records itself as the best stage only
    when the last entry of the history its run returned is strictly
    greater than the value on record, or when there is no record yet: on a
    tie the earlier stage stays.  The record is never cleared, so it
    carries over from one call of [evolve] to the next. *)
Theorem chronological_stage_tracks_the_best
    self gens env count h h' e ee stages comb best :
  objs h !! self = Some e -> objs h !! env = Some ee -> self ≠ env ->
  subclass e = ChronologicalClass stages comb best ->
  ChronologicalEnvironment_evolve_body self gens (env, count) h = (h', Return tt) ->
  exists top e',
    last (hists h' !!! history ee) = Some top /\
    objs h' !! self = Some e' /\
    subclass e' = ChronologicalClass stages comb
      (Some match best with
            | Some (nm, v) => if bool_decide (v < top) then (name ee, top) else (nm, v)
            | None => (name ee, top)
            end).
Proof.
  intros He Hee Hse Hsub Hbody.
  destruct (chrono_stage_spec self gens env count h h' e ee He Hee Hse Hbody)
    as (_ & stages' & comb' & best' & Hsub' & _ & _ & _ & _ & _ & _ & _ & _ &
        top & e' & Hlast & He' & Hbest).
  rewrite Hsub in Hsub'. injection Hsub' as <- <- <-.
  by exists top, e'.
Qed.

(** X18.  A stage whose generation count is zero or negative breaks
    [ChronologicalEnvironment.evolve]: the stage environment runs no
    generation, its history stays empty, and line 282 asks for the last
    entry of an empty list.  The stage raises [IndexError]. *)
Theorem chronological_stage_without_generations
    self gens env g h e ee stages comb best :
  objs h !! self = Some e -> subclass e = ChronologicalClass stages comb best ->
  objs h !! env = Some ee -> self ≠ env -> deactivated ee = false ->
  hists h !! history ee = Some [] -> g <= 0 ->
  exists h', ChronologicalEnvironment_evolve_body self gens (env, Some g) h
               = (h', Raise IndexError).
Proof.
  intros He Hsub Hee Hse Hon Hhist Hg. eexists.
  unfold ChronologicalEnvironment_evolve_body. cbn [fst snd].
  rewrite bind_ret, (bind_get_attr env name _ h ee Hee), bind_print.
  set (ha := set_stdout _ h).
  rewrite (bind_get_attr self individuals _ ha e He).
  rewrite (bind_set_attr env _ _ ha ee Hee).
  set (eb := set_individuals (individuals e) ee).
  set (hb := set_objs _ ha).
  assert (Heb : objs hb !! env = Some eb)
    by (subst hb; simpl; by rewrite lookup_insert_eq).
  set (e2 := set_generations g eb).
  set (h2 := set_objs (<[env := e2]> (objs hb)) hb).
  assert (He2 : objs h2 !! env = Some e2)
    by (subst h2; simpl; by rewrite lookup_insert_eq).
  assert (Hev : Environment_evolve env g hb
                  = (h2, Return (IndividualsAndHistory (individuals e) (history ee)))).
  { rewrite (evolve_active env g hb eb Heb Hon). cbv zeta. fold e2 h2.
    unfold range. replace (Z.to_nat g) with 0%nat by lia. simpl.
    by rewrite bind_ret, (bind_get_attr env individuals _ h2 _ He2),
      (bind_get_attr env history _ h2 _ He2). }
  rewrite (bind_return _ _ _ _ _ Hev).
  unfold unpack_pair. rewrite bind_ret, bind_new_hist.
  set (f := fresh (dom (hists h2))).
  set (h3 := set_hists (<[f := []]> (hists h2)) h2).
  assert (He3 : objs h3 !! env = Some e2) by done.
  rewrite (bind_set_attr env _ _ h3 e2 He3).
  set (e4 := set_history f e2).
  set (h4 := set_objs (<[env := e4]> (objs h3)) h3).
  assert (Hs4 : objs h4 !! self = Some e).
  { subst h4 h3 h2 hb. simpl. by rewrite !lookup_insert_ne. }
  rewrite (bind_get_attr self individuals _ h4 e Hs4).
  rewrite !bind_read_pop, bind_write_pop.
  set (h5 := set_pops _ h4).
  assert (Hs5 : objs h5 !! self = Some e) by done.
  rewrite (bind_return _ _ _ _ _ (get_combined_history_eq self h5 e _ _ _ Hs5 Hsub)).
  rewrite !bind_read_hist, bind_write_hist.
  set (h6 := set_hists _ h5).
  assert (Hs6 : objs h6 !! self = Some e) by done.
  rewrite (bind_return _ _ _ _ _ (get_best_environment_eq self h6 e _ _ _ Hs6 Hsub)).
  rewrite bind_read_hist.
  assert (Hf : f ≠ history ee).
  { apply fresh_hist_ne. change (hists h2) with (hists h). by rewrite Hhist. }
  assert (H5 : hists h5 !!! history ee = []).
  { subst h5 h4 h3. simpl. rewrite lookup_total_insert_ne by done.
    change (hists h2) with (hists h). by rewrite (lookup_total_correct _ _ _ Hhist). }
  assert (H6 : hists h6 !!! history ee = []).
  { change (hists h6)
      with (<[comb := hists h5 !!! comb ++ hists h5 !!! history ee]> (hists h5)).
    destruct (decide (comb = history ee)) as [->|Hne].
    - by rewrite lookup_total_insert_eq, H5.
    - by rewrite lookup_total_insert_ne. }
  rewrite H6. unfold last_item. simpl.
  assert (He6 : objs h6 !! env = Some e4).
  { subst h6 h5 h4. simpl. by rewrite lookup_insert_eq. }
  destruct best as [[nm0 v]|].
  - rewrite bind_raise_now. reflexivity.
  - rewrite (bind_get_attr env name _ h6 e4 He6), bind_raise_now. reflexivity.
Qed.

(** ** [AdaptiveEnvironment.smart_evolve] *)

Lemma set_deactivated_twice e : set_deactivated true (set_deactivated true e) = set_deactivated true e.
Proof. done. Qed.

Lemma deactivation_loop envs : forall h,
  (forall r, r ∈ envs -> is_Some (objs h !! r)) ->
  exists h',
    for_each envs (fun i =>
      bind (get_attr i layer_fitness) (fun f =>
        if bool_decide (f < 1) then
          bind (get_attr i name) (fun nm =>
            bind (print (PrintDeactivating nm)) (fun _ => Environment_deactivate i))
        else ret tt)) h = (h', Return tt) /\
    (forall r, objs h' !! r = deactivate_if_low envs r <$> objs h !! r) /\
    pops h' = pops h /\ hists h' = hists h /\ world h' = world h.
Proof.
  induction envs as [|x l IH]; intros h Hvalid.
  - exists h. split; [done|]. split; [|done]. intros r.
    destruct (objs h !! r) as [ee|]; [|done].
    simpl. by f_equal.
  - destruct (Hvalid x) as [ex Hex]; [by left|].
    set (h1 := if bool_decide (layer_fitness ex < 1)
               then set_objs (<[x := set_deactivated true ex]> (objs h))
                      (set_stdout (stdout h ++ [PrintDeactivating (name ex)]) h)
               else h).
    assert (Hvalid1 : forall r, r ∈ l -> is_Some (objs h1 !! r)).
    { intros r Hr. subst h1. case_bool_decide; [|apply Hvalid; by right].
      simpl. destruct (decide (r = x)) as [->|Hne].
      - rewrite lookup_insert_eq. by eexists.
      - rewrite lookup_insert_ne by done. apply Hvalid. by right. }
    destruct (IH h1 Hvalid1) as (h' & Hloop & Hobjs & Hp & Hh & Hw).
    exists h'. split; [|split; [|subst h1; case_bool_decide; by rewrite ?Hp, ?Hh, ?Hw]].
    + simpl for_each. unfold bind at 1. rewrite (bind_get_attr x layer_fitness _ h ex Hex).
      subst h1. case_bool_decide.
      * rewrite (bind_get_attr x name _ h ex Hex), bind_print.
        unfold Environment_deactivate.
        set (hp := set_stdout _ h) in *.
        assert (Hxp : objs hp !! x = Some ex) by done.
        by rewrite (set_attr_eq x _ hp ex Hxp).
      * done.
    + intros r. rewrite Hobjs. subst h1. unfold deactivate_if_low.
      destruct (decide (r = x)) as [->|Hne].
      * rewrite Hex. case_bool_decide as Hlow; simpl.
        -- rewrite lookup_insert_eq. simpl. f_equal.
           rewrite (bool_decide_eq_true_2 (x ∈ x :: l /\ _)) by (split; [by left|done]).
           by case_bool_decide.
        -- rewrite Hex. simpl. f_equal.
           rewrite !bool_decide_eq_false_2; [done|by intros [_ ?]|by intros [_ ?]].
      * assert (Hr : objs (if bool_decide (layer_fitness ex < 1)
                           then set_objs (<[x := set_deactivated true ex]> (objs h))
                                  (set_stdout (stdout h ++ [PrintDeactivating (name ex)]) h)
                           else h) !! r = objs h !! r).
        { case_bool_decide; [|done]. simpl. by rewrite lookup_insert_ne. }
        rewrite Hr. destruct (objs h !! r) as [ee|]; [|done]. simpl. f_equal.
        apply (f_equal (fun b : bool => if b then set_deactivated true ee else ee)).
        apply bool_decide_ext. rewrite elem_of_cons.
        split; [intros [? ?]; split; [by right|done] | by intros [[?|?] ?]].
Qed.

Lemma read_weights_eq envs : forall h,
  (forall r, r ∈ envs -> is_Some (objs h !! r)) ->
  read_weights envs h = (h, Return (weights_of h envs)).
Proof.
  induction envs as [|x l IH]; intros h Hvalid; [done|].
  destruct (Hvalid x) as [ex Hex]; [by left|].
  simpl read_weights. rewrite (bind_get_attr x layer_fitness _ h ex Hex).
  rewrite (bind_return _ _ _ _ _ (IH h ltac:(intros r Hr; apply Hvalid; by right))).
  unfold ret, weights_of. simpl. by rewrite Hex.
Qed.

Lemma weights_of_deactivated envs h h1 :
  (forall r, objs h1 !! r = deactivate_if_low envs r <$> objs h !! r) ->
  weights_of h1 envs = weights_of h envs.
Proof.
  intros Hobjs. unfold weights_of. apply list_fmap_ext. intros _ r _.
  rewrite Hobjs. destruct (objs h !! r) as [ee|]; [|done]. simpl.
  unfold deactivate_if_low. by case_bool_decide.
Qed.

Lemma smart_evolve_spec self h e envs sw cur g gf :
  objs h !! self = Some e -> subclass e = AdaptiveClass envs sw cur g gf ->
  (forall r, r ∈ envs -> is_Some (objs h !! r)) ->
  exists h1,
    (forall r, objs h1 !! r = deactivate_if_low envs r <$> objs h !! r) /\
    pops h1 = pops h /\ hists h1 = hists h /\ world h1 = world h /\
    AdaptiveEnvironment_smart_evolve self h =
      if bool_decide (sw = 0) then (h1, Raise ZeroDivisionError)
      else if bool_decide (iteration e `mod` sw = 0)
           then random_choices envs (weights_of h envs) h1
           else (h1, Return cur).
Proof.
  intros He Hsub Hvalid.
  destruct (deactivation_loop envs h Hvalid) as (h1 & Hloop & Hobjs & Hp & Hh & Hw).
  exists h1. split; [exact Hobjs|]. split; [exact Hp|]. split; [exact Hh|].
  split; [exact Hw|].
  assert (Henvs : get_environments self h = (h, Return envs))
    by (unfold get_environments; by rewrite (bind_get_attr self subclass _ h e He), Hsub).
  assert (He1 : objs h1 !! self = Some (deactivate_if_low envs self e))
    by (by rewrite Hobjs, He).
  assert (Hsub1 : subclass (deactivate_if_low envs self e) = AdaptiveClass envs sw cur g gf)
    by (unfold deactivate_if_low; by case_bool_decide).
  assert (Hit1 : iteration (deactivate_if_low envs self e) = iteration e)
    by (unfold deactivate_if_low; by case_bool_decide).
  unfold AdaptiveEnvironment_smart_evolve.
  rewrite (bind_return _ _ _ _ _ Henvs), (bind_return _ _ _ _ _ Hloop).
  rewrite (bind_get_attr self iteration _ h1 _ He1), Hit1.
  assert (Hsw : get_switch_every self h1 = (h1, Return sw))
    by (unfold get_switch_every; by rewrite (bind_get_attr self subclass _ h1 _ He1), Hsub1).
  rewrite (bind_return _ _ _ _ _ Hsw).
  case_bool_decide; [done|]. case_bool_decide.
  - assert (Henvs1 : get_environments self h1 = (h1, Return envs))
      by (unfold get_environments;
          by rewrite (bind_get_attr self subclass _ h1 _ He1), Hsub1).
    rewrite (bind_return _ _ _ _ _ Henvs1).
    assert (Hvalid1 : forall r, r ∈ envs -> is_Some (objs h1 !! r)).
    { intros r Hr. rewrite Hobjs. destruct (Hvalid r Hr) as [ee ->]. by eexists. }
    rewrite (bind_return _ _ _ _ _ (read_weights_eq envs h1 Hvalid1)).
    by rewrite (weights_of_deactivated envs h h1 Hobjs).
  - unfold get_current_environment.
    by rewrite (bind_get_attr self subclass _ h1 _ He1), Hsub1.
Qed.

(** X19.  Whatever its outcome, [smart_evolve] deactivates exactly the
    pool members whose [fitness] attribute is below 1 and changes no other
    attribute of any object: a member that was deactivated stays so, none
    is reactivated, and the populations and histories are not touched. *)
Theorem smart_evolve_deactivates_low_members self h e envs sw cur g gf h' out :
  objs h !! self = Some e -> subclass e = AdaptiveClass envs sw cur g gf ->
  (forall r, r ∈ envs -> is_Some (objs h !! r)) ->
  AdaptiveEnvironment_smart_evolve self h = (h', out) ->
  (forall r, objs h' !! r = deactivate_if_low envs r <$> objs h !! r) /\
  pops h' = pops h /\ hists h' = hists h.
Proof.
  intros He Hsub Hvalid Hrun.
  destruct (smart_evolve_spec self h e envs sw cur g gf He Hsub Hvalid)
    as (h1 & Hobjs & Hp & Hh & Hw & Hspec).
  rewrite Hspec in Hrun. clear Hspec.
  case_bool_decide; [by injection Hrun as <- <-|].
  case_bool_decide; [|by injection Hrun as <- <-].
  unfold random_choices in Hrun.
  case_bool_decide; [by injection Hrun as <- <-|].
  destruct (last envs); [|by injection Hrun as <- <-].
  cbv zeta in Hrun. case_bool_decide; [by injection Hrun as <- <-|].
  case_bool_decide; [by injection Hrun as <- <-|].
  destruct (random_index (world h1) _) as [w i]. by injection Hrun as <- <-.
Qed.

(** X20.  The environment that [smart_evolve] returns: on an iteration
    that the switching interval divides it is a member of the pool, drawn
    with weights whose total is positive; on any other iteration it is the
    active environment, and no random number is drawn.  It returns only
    with a switching interval other than zero. *)
Theorem smart_evolve_returns_member_or_active self h e envs sw cur g gf h' r :
  objs h !! self = Some e -> subclass e = AdaptiveClass envs sw cur g gf ->
  (forall r, r ∈ envs -> is_Some (objs h !! r)) ->
  AdaptiveEnvironment_smart_evolve self h = (h', Return r) ->
  sw ≠ 0 /\
  if bool_decide (iteration e `mod` sw = 0)
  then r ∈ envs /\ 0 < foldr Z.add 0 (weights_of h envs)
  else r = cur /\ world h' = world h.
Proof.
  intros He Hsub Hvalid Hrun.
  destruct (smart_evolve_spec self h e envs sw cur g gf He Hsub Hvalid)
    as (h1 & Hobjs & Hp & Hh & Hw & Hspec).
  rewrite Hspec in Hrun. clear Hspec.
  case_bool_decide; [done|]. split; [done|].
  case_bool_decide; [|by injection Hrun as <- <-].
  unfold random_choices in Hrun.
  case_bool_decide; [done|].
  destruct (last envs) as [final|] eqn:Hlast; [|done].
  cbv zeta in Hrun. case_bool_decide; [done|].
  case_bool_decide; [done|].
  destruct (random_index (world h1) _) as [w i]. injection Hrun as <- <-.
  split; [|lia].
  destruct (envs !! Nat.min i (length envs - 1)) as [c|] eqn:Hc; simpl.
  - by eapply list_elem_of_lookup_2.
  - apply last_Some in Hlast as [l' ->]. set_solver.
Qed.

(** X21.  How [smart_evolve] fails: with a switching interval of zero it
    raises [ZeroDivisionError] on every call; on an iteration that the
    interval divides it raises [IndexError] over an empty pool,
    [OverflowError] when the [fitness] attributes of a non-empty pool sum
    to an integer of magnitude 2^1024 - 2^970 or more, which has no
    floating-point value, and [ValueError] when they sum to at most zero
    within that range.  In each case the deactivation pass has run. *)
Theorem smart_evolve_failures self h e envs sw cur g gf :
  objs h !! self = Some e -> subclass e = AdaptiveClass envs sw cur g gf ->
  (forall r, r ∈ envs -> is_Some (objs h !! r)) ->
  exists h1,
    (forall r, objs h1 !! r = deactivate_if_low envs r <$> objs h !! r) /\
    (sw = 0 ->
       AdaptiveEnvironment_smart_evolve self h = (h1, Raise ZeroDivisionError)) /\
    (sw ≠ 0 -> iteration e `mod` sw = 0 -> envs = [] ->
       AdaptiveEnvironment_smart_evolve self h = (h1, Raise IndexError)) /\
    (sw ≠ 0 -> iteration e `mod` sw = 0 -> envs ≠ [] ->
       float_overflow <= Z.abs (foldr Z.add 0 (weights_of h envs)) ->
       AdaptiveEnvironment_smart_evolve self h = (h1, Raise OverflowError)) /\
    (sw ≠ 0 -> iteration e `mod` sw = 0 -> envs ≠ [] ->
       - float_overflow < foldr Z.add 0 (weights_of h envs) <= 0 ->
       AdaptiveEnvironment_smart_evolve self h = (h1, Raise ValueError)).
Proof.
  intros He Hsub Hvalid.
  destruct (smart_evolve_spec self h e envs sw cur g gf He Hsub Hvalid)
    as (h1 & Hobjs & Hp & Hh & Hw & Hspec).
  exists h1. split; [exact Hobjs|]. rewrite Hspec. clear Hspec.
  assert (Hlen : length (weights_of h envs) = length envs)
    by (unfold weights_of; by rewrite length_fmap).
  split; [|split; [|split]].
  - intros ->. by rewrite bool_decide_eq_true_2.
  - intros Hsw Hmod ->.
    by rewrite (bool_decide_eq_false_2 _ Hsw), (bool_decide_eq_true_2 _ Hmod).
  - intros Hsw Hmod Hne Htot.
    rewrite (bool_decide_eq_false_2 _ Hsw), (bool_decide_eq_true_2 _ Hmod).
    unfold random_choices. rewrite bool_decide_eq_false_2 by (by intros ?).
    destruct (last envs) eqn:Hlast; [|by apply last_None in Hlast].
    cbv zeta. by rewrite (bool_decide_eq_true_2 _ Htot).
  - intros Hsw Hmod Hne Htot.
    rewrite (bool_decide_eq_false_2 _ Hsw), (bool_decide_eq_true_2 _ Hmod).
    unfold random_choices. rewrite bool_decide_eq_false_2 by (by intros ?).
    destruct (last envs) eqn:Hlast; [|by apply last_None in Hlast].
    cbv zeta. rewrite bool_decide_eq_false_2 by lia.
    by rewrite bool_decide_eq_true_2 by lia.
Qed.

(** ** The lists of the active environment in [AdaptiveEnvironment.evolve] *)

(** [smart_evolve] writes to no population and to no history. *)
Lemma smart_evolve_keeps_lists self h h' out :
  AdaptiveEnvironment_smart_evolve self h = (h', out) ->
  pops h' = pops h /\ hists h' = hists h.
Proof.
  intros Hrun.
  set (L := fun h1 : @Heap World => pops h1 = pops h /\ hists h1 = hists h).
  assert (Hget : forall A r (attr : Environment -> A),
            keeps L (get_attr r attr) (fun _ => True))
    by (intros; by apply keeps_get_attr).
  assert (Hset : forall r assign, keeps L (set_attr r assign) (fun _ => True))
    by (intros; apply keeps_set_attr; by intros).
  assert (Hge : keeps L (get_environments self) (fun _ => True)).
  { unfold get_environments. eapply keeps_bind; [apply Hget|].
    intros sub _. destruct sub; (by apply keeps_ret) || apply keeps_raise. }
  assert (Hsw : keeps L (get_switch_every self) (fun _ => True)).
  { unfold get_switch_every. eapply keeps_bind; [apply Hget|].
    intros sub _. destruct sub; (by apply keeps_ret) || apply keeps_raise. }
  assert (Hcur : keeps L (get_current_environment self) (fun _ => True)).
  { unfold get_current_environment. eapply keeps_bind; [apply Hget|].
    intros sub _. destruct sub; (by apply keeps_ret) || apply keeps_raise. }
  assert (Hkeeps : keeps L (AdaptiveEnvironment_smart_evolve self) (fun _ => True)).
  { unfold AdaptiveEnvironment_smart_evolve.
    eapply keeps_bind; [exact Hge|]. intros envs _.
    eapply (keeps_bind _ _ _ (fun _ => True)).
    { apply keeps_for_each. intros i _.
      eapply keeps_bind; [apply Hget|]. intros f _.
      case_bool_decide; [|by apply keeps_ret].
      eapply keeps_bind; [apply Hget|]. intros nm _.
      eapply (keeps_bind _ _ _ (fun _ => True)).
      { by intros h1 h2 o HL [= <- <-]. }
      intros _ _. apply Hset. }
    intros _ _. eapply keeps_bind; [apply Hget|]. intros it _.
    eapply keeps_bind; [exact Hsw|]. intros sw _.
    case_bool_decide; [apply keeps_raise|]. case_bool_decide; [|exact Hcur].
    eapply keeps_bind; [exact Hge|]. intros envs' _.
    eapply (keeps_bind _ _ _ (fun _ => True)).
    { induction envs' as [|x l IH]; simpl.
      - by apply keeps_ret.
      - eapply keeps_bind; [apply Hget|]. intros f _.
        eapply keeps_bind; [apply IH|]. intros fs _. by apply keeps_ret. }
    intros weights _. unfold random_choices.
    case_bool_decide; [apply keeps_raise|].
    destruct (last envs'); [|apply keeps_raise].
    cbv zeta. case_bool_decide; [apply keeps_raise|].
    case_bool_decide; [apply keeps_raise|].
    intros h1 h2 o HL Hr. destruct (random_index (world h1) weights) as [w i].
    by injection Hr as <- <-. }
  by destruct (Hkeeps h h' out ltac:(done) Hrun) as [HL _].
Qed.

Section Active.

Variables (self inds hist : ref) (envs : list ref) (sw gf : Z) (pool : list ref).
Hypothesis envs_within_pool : forall env, env ∈ envs -> env ∈ pool.
Hypothesis self_outside_pool : self ∉ pool.

Lemma active_same_objects h h' :
  objs h' = objs h ->
  active_inv self inds hist envs sw gf pool h ->
  active_inv self inds hist envs sw gf pool h'.
Proof. intros Ho. unfold active_inv. by rewrite Ho. Qed.

Lemma active_assign_member env assign h ee :
  env ∈ pool ->
  (individuals ee = inds -> history ee = hist ->
     individuals (assign ee) = inds /\ history (assign ee) = hist) ->
  active_inv self inds hist envs sw gf pool h -> objs h !! env = Some ee ->
  active_inv self inds hist envs sw gf pool (set_objs (<[env := assign ee]> (objs h)) h).
Proof.
  intros Henv Hassign (es & cur & gen & ce & Hes & Hsub & Hcur & Hce & Hi & Hh) Hee.
  assert (Hne : env ≠ self) by (intros ->; done).
  destruct (decide (cur = env)) as [->|Hnc].
  - rewrite Hce in Hee. injection Hee as <-. destruct (Hassign Hi Hh).
    exists es, env, gen, (assign ce). simpl.
    by rewrite lookup_insert_ne, lookup_insert_eq.
  - exists es, cur, gen, ce. simpl. by rewrite !lookup_insert_ne.
Qed.

Lemma active_smart_evolve :
  keeps (active_inv self inds hist envs sw gf pool)
    (AdaptiveEnvironment_smart_evolve self) (fun c => c ∈ pool).
Proof.
  set (J := active_inv self inds hist envs sw gf pool).
  assert (Hsubclass : keeps J (get_attr self subclass)
            (fun sub => exists cur gen, sub = AdaptiveClass envs sw cur gen gf /\ cur ∈ pool)).
  { apply keeps_get_attr. intros h ee (es & cur & gen & ce & Hes & Hsub & Hcur & _) Hee.
    rewrite Hes in Hee. injection Hee as <-. eauto. }
  assert (Henvs : keeps J (get_environments self) (fun l => l = envs)).
  { unfold get_environments. eapply keeps_bind; [exact Hsubclass|].
    intros sub (cur & gen & -> & _). by apply keeps_ret. }
  unfold AdaptiveEnvironment_smart_evolve.
  eapply keeps_bind; [exact Henvs|]. intros ? ->.
  eapply keeps_bind.
  { apply keeps_for_each. intros i Hi.
    eapply (keeps_bind _ _ _ (fun _ => True)); [by apply keeps_get_attr|].
    intros f _. case_bool_decide; [|by apply keeps_ret].
    eapply (keeps_bind _ _ _ (fun _ => True)); [by apply keeps_get_attr|].
    intros nm _. eapply (keeps_bind _ _ _ (fun _ => True)).
    { intros h h' out HJ [= <- <-]. split; [|done]. by apply (active_same_objects h). }
    intros _ _. unfold Environment_deactivate. apply keeps_set_attr.
    intros h ee HJ Hee. apply active_assign_member; auto. }
  intros _ _.
  eapply (keeps_bind _ _ _ (fun _ => True)); [by apply keeps_get_attr|]. intros it _.
  eapply (keeps_bind _ _ _ (fun _ => True)).
  { unfold get_switch_every. eapply keeps_bind; [exact Hsubclass|].
    intros sub (cur & gen & -> & _). by apply keeps_ret. }
  intros sw' _. case_bool_decide; [apply keeps_raise|].
  case_bool_decide.
  - eapply keeps_bind; [exact Henvs|]. intros ? ->.
    eapply (keeps_bind _ _ _ (fun _ => True)).
    { generalize envs. intros l. induction l as [|x l IH]; simpl.
      - by apply keeps_ret.
      - eapply (keeps_bind _ _ _ (fun _ => True)); [by apply keeps_get_attr|].
        intros f _. eapply keeps_bind; [apply IH|]. intros fs _. by apply keeps_ret. }
    intros weights _. unfold random_choices.
    case_bool_decide; [apply keeps_raise|].
    destruct (last envs) as [final|] eqn:Hlast; [|apply keeps_raise].
    cbv zeta. case_bool_decide; [apply keeps_raise|].
    case_bool_decide; [apply keeps_raise|].
    intros h h' out HJ Hrun. destruct (random_index (world h) weights) as [w i].
    injection Hrun as <- <-. split; [by apply (active_same_objects h)|].
    intros c [= <-]. apply envs_within_pool.
    destruct (envs !! Nat.min i (length envs - 1)) as [c|] eqn:Hc; simpl.
    + by eapply list_elem_of_lookup_2.
    + apply last_Some in Hlast as [l' ->]. set_solver.
  - unfold get_current_environment. eapply keeps_bind; [exact Hsubclass|].
    intros sub (cur & gen & -> & Hcur). by apply keeps_ret.
Qed.

(** A generation of [AdaptiveEnvironment.evolve], lines 384-388, keeps
    the invariant and writes to no list but the population [inds] and the
    history [hist] of the active environment. *)
Lemma active_generation_frame h h' out :
  active_inv self inds hist envs sw gf pool h ->
    (bind (get_attr self iteration) (fun it =>
     bind (set_attr self (set_iteration (it + 1))) (fun _ =>
     bind (get_current_generation self) (fun gen =>
     bind (set_attr self (set_current_generation (gen + 1))) (fun _ =>
     bind (AdaptiveEnvironment_smart_evolve self) (fun new =>
     bind (get_current_environment self) (fun cur =>
     bind (get_attr cur individuals) (fun inds =>
     bind (set_attr new (set_individuals inds)) (fun _ =>
     bind (get_current_environment self) (fun cur =>
     bind (get_attr cur history) (fun hist =>
     bind (set_attr new (set_history hist)) (fun _ =>
     bind (set_attr self (set_current_environment new)) (fun _ =>
     bind (get_current_environment self) (fun cur =>
     bind (Environment_evolve cur 1) (fun _ => ret tt))))))))))))))) h = (h', out) ->
  active_inv self inds hist envs sw gf pool h' /\
  (forall r, r ≠ inds -> pops h' !! r = pops h !! r) /\
  (forall r, r ≠ hist -> hists h' !! r = hists h !! r).
Proof.
  intros (es & cur & gen & ce & Hes & Hsub & Hcur & Hce & Hpc & Hhc) Hrun.
  assert (Hsc : self ≠ cur) by (intros ->; done).
  rewrite (bind_get_attr self iteration _ h es Hes) in Hrun.
  rewrite (bind_set_attr self _ _ h es Hes) in Hrun.
  set (ea := set_iteration (iteration es + 1) es) in *.
  set (ha := set_objs _ h) in *.
  assert (Hea : objs ha !! self = Some ea)
    by (subst ha; simpl; by rewrite lookup_insert_eq).
  assert (Hgen : get_current_generation self ha = (ha, Return gen)).
  { unfold get_current_generation.
    rewrite (bind_get_attr self subclass _ ha ea Hea).
    change (subclass ea) with (subclass es). by rewrite Hsub. }
  rewrite (bind_return _ _ _ _ _ Hgen) in Hrun.
  rewrite (bind_set_attr self _ _ ha ea Hea) in Hrun.
  set (eb := set_current_generation (gen + 1) ea) in *.
  set (hb := set_objs _ ha) in *.
  assert (HJb : active_inv self inds hist envs sw gf pool hb).
  { exists eb, cur, (gen + 1), ce. subst hb ha. simpl.
    rewrite lookup_insert_eq, !lookup_insert_ne by done.
    split; [done|]. split; [|done].
    subst eb. unfold set_current_generation.
    change (subclass ea) with (subclass es). by rewrite Hsub. }
  assert (Hpb : pops hb = pops h) by done.
  assert (Hhb : hists hb = hists h) by done.
  clearbody hb. clear Hgen Hea. clearbody ea.
  destruct (AdaptiveEnvironment_smart_evolve self hb) as [h1 [new|x]] eqn:Hsm.
  all: destruct (smart_evolve_keeps_lists self hb h1 _ Hsm) as [Hp1 Hh1];
    rewrite Hpb in Hp1; rewrite Hhb in Hh1.
  2: { rewrite (bind_raise _ _ _ _ _ Hsm) in Hrun. injection Hrun as <- <-.
       split; [by destruct (active_smart_evolve hb h1 _ HJb Hsm)|].
       by rewrite Hp1, Hh1. }
  destruct (active_smart_evolve hb h1 _ HJb Hsm) as [HJ1 Hnew].
  specialize (Hnew new eq_refl).
  rewrite (bind_return _ _ _ _ _ Hsm) in Hrun.
  assert (Hns : new ≠ self) by (intros ->; done).
  destruct HJ1 as (e1 & cur1 & gen1 & ce1 & He1 & Hsub1 & Hcur1 & Hce1 & Hpc1 & Hhc1).
  assert (Hget1 : get_current_environment self h1 = (h1, Return cur1)).
  { unfold get_current_environment.
    by rewrite (bind_get_attr self subclass _ h1 e1 He1), Hsub1. }
  rewrite (bind_return _ _ _ _ _ Hget1),
    (bind_get_attr cur1 individuals _ h1 ce1 Hce1), Hpc1 in Hrun.
  destruct (objs h1 !! new) as [en|] eqn:Hen.
  2: { rewrite (bind_raise _ _ h1 h1 InvalidReference) in Hrun
         by (unfold set_attr; by rewrite Hen).
       injection Hrun as <- <-. split; [by exists e1, cur1, gen1, ce1|].
       by rewrite Hp1, Hh1. }
  rewrite (bind_set_attr new _ _ h1 en Hen) in Hrun.
  set (h2 := set_objs (<[new := set_individuals inds en]> (objs h1)) h1) in *.
  assert (He2 : objs h2 !! self = Some e1)
    by (subst h2; simpl; by rewrite lookup_insert_ne).
  assert (exists ce2, objs h2 !! cur1 = Some ce2 /\ history ce2 = hist)
    as (ce2 & Hce2 & Hhc2).
  { subst h2. simpl. destruct (decide (cur1 = new)) as [->|Hne].
    - rewrite lookup_insert_eq. eexists. split; [done|]. simpl. congruence.
    - rewrite lookup_insert_ne by done. by exists ce1. }
  assert (Hget2 : get_current_environment self h2 = (h2, Return cur1)).
  { unfold get_current_environment.
    by rewrite (bind_get_attr self subclass _ h2 e1 He2), Hsub1. }
  rewrite (bind_return _ _ _ _ _ Hget2),
    (bind_get_attr cur1 history _ h2 ce2 Hce2), Hhc2 in Hrun.
  assert (Hen2 : objs h2 !! new = Some (set_individuals inds en))
    by (subst h2; simpl; by rewrite lookup_insert_eq).
  rewrite (bind_set_attr new _ _ h2 _ Hen2) in Hrun.
  set (en3 := set_history hist (set_individuals inds en)) in *.
  set (h3 := set_objs (<[new := en3]> (objs h2)) h2) in *.
  assert (He3 : objs h3 !! self = Some e1)
    by (subst h3; simpl; by rewrite lookup_insert_ne).
  rewrite (bind_set_attr self _ _ h3 e1 He3) in Hrun.
  set (e4 := set_current_environment new e1) in *.
  set (h4 := set_objs (<[self := e4]> (objs h3)) h3) in *.
  assert (Hsub4 : subclass e4 = AdaptiveClass envs sw new gen1 gf)
    by (subst e4; unfold set_current_environment; by rewrite Hsub1).
  assert (He4 : objs h4 !! self = Some e4)
    by (subst h4; simpl; by rewrite lookup_insert_eq).
  assert (Hen4 : objs h4 !! new = Some en3)
    by (subst h4 h3; simpl; by rewrite lookup_insert_ne, lookup_insert_eq).
  assert (Hget4 : get_current_environment self h4 = (h4, Return new)).
  { unfold get_current_environment.
    by rewrite (bind_get_attr self subclass _ h4 e4 He4), Hsub4. }
  rewrite (bind_return _ _ _ _ _ Hget4) in Hrun.
  destruct (Environment_evolve new 1 h4) as [h5 out5] eqn:Hev.
  assert (Hh' : h' = h5).
  { unfold bind in Hrun. rewrite Hev in Hrun. destruct out5; by injection Hrun as <- <-. }
  subst h'.
  destruct (evolve_frame new 1 h4 h5 out5 Hev) as (Hobjs & Hlists & _).
  destruct (Hobjs self e4 He4) as (e5 & He5 & _ & Hsame5).
  rewrite Hsame5 in He5 by done.
  destruct (Hobjs new en3 Hen4) as (en5 & Hen5 & Hst5 & _).
  destruct (Hlists en3 Hen4) as [[Hfh _] [Hfp _]].
  split; [|split].
  - exists e4, new, gen1, en5. unfold same_static in Hst5.
    repeat split; try done; subst en3; simpl in Hst5; intuition congruence.
  - intros r Hr. rewrite (Hfp r) by done. change (pops h4) with (pops h1).
    by rewrite Hp1.
  - intros r Hr. rewrite (Hfh r) by done. change (hists h4) with (hists h1).
    by rewrite Hh1.
Qed.

Lemma active_generation :
  keeps (active_inv self inds hist envs sw gf pool)
    (bind (get_attr self iteration) (fun it =>
     bind (set_attr self (set_iteration (it + 1))) (fun _ =>
     bind (get_current_generation self) (fun gen =>
     bind (set_attr self (set_current_generation (gen + 1))) (fun _ =>
     bind (AdaptiveEnvironment_smart_evolve self) (fun new =>
     bind (get_current_environment self) (fun cur =>
     bind (get_attr cur individuals) (fun inds =>
     bind (set_attr new (set_individuals inds)) (fun _ =>
     bind (get_current_environment self) (fun cur =>
     bind (get_attr cur history) (fun hist =>
     bind (set_attr new (set_history hist)) (fun _ =>
     bind (set_attr self (set_current_environment new)) (fun _ =>
     bind (get_current_environment self) (fun cur =>
     bind (Environment_evolve cur 1) (fun _ => ret tt)))))))))))))))
    (fun _ => True).
Proof.
  intros h h' out HJ Hrun. split; [|done].
  by destruct (active_generation_frame h h' out HJ Hrun).
Qed.

(** The loop of [AdaptiveEnvironment.evolve]. *)
Lemma active_loop_frame {A} (l : list A) : forall h h' out,
  active_inv self inds hist envs sw gf pool h ->
  for_each l (fun _ =>
     bind (get_attr self iteration) (fun it =>
     bind (set_attr self (set_iteration (it + 1))) (fun _ =>
     bind (get_current_generation self) (fun gen =>
     bind (set_attr self (set_current_generation (gen + 1))) (fun _ =>
     bind (AdaptiveEnvironment_smart_evolve self) (fun new =>
     bind (get_current_environment self) (fun cur =>
     bind (get_attr cur individuals) (fun inds =>
     bind (set_attr new (set_individuals inds)) (fun _ =>
     bind (get_current_environment self) (fun cur =>
     bind (get_attr cur history) (fun hist =>
     bind (set_attr new (set_history hist)) (fun _ =>
     bind (set_attr self (set_current_environment new)) (fun _ =>
     bind (get_current_environment self) (fun cur =>
     bind (Environment_evolve cur 1) (fun _ => ret tt))))))))))))))) h = (h', out) ->
  active_inv self inds hist envs sw gf pool h' /\
  (forall r, r ≠ inds -> pops h' !! r = pops h !! r) /\
  (forall r, r ≠ hist -> hists h' !! r = hists h !! r).
Proof.
  induction l as [|x l IH]; intros h h' out HJ Hrun.
  - by injection Hrun as <- <-.
  - simpl in Hrun. unfold bind at 1 in Hrun.
    match type of Hrun with
    | (let (_, _) := ?c h in _) = _ => destruct (c h) as [h1 [[]|err]] eqn:Hbody
    end.
    + destruct (active_generation_frame h h1 _ HJ Hbody) as (HJ1 & Hp1 & Hh1).
      destruct (IH h1 h' out HJ1 Hrun) as (HJ' & Hp' & Hh').
      split; [done|]. split; intros r Hr.
      * by rewrite Hp', Hp1.
      * by rewrite Hh', Hh1.
    + injection Hrun as <- <-. by apply (active_generation_frame h h1 (Raise err)).
Qed.

End Active.

(** X22.  Throughout [AdaptiveEnvironment.evolve] one population and one
    history serve every pool member in turn: whatever the outcome of the
    call, the environment that is active afterwards is a member of the
    pool (or the one that was active before) and holds the very population
    list and history list that the active environment held before the
    call.  The composite keeps its pool, its switching interval and its
    [go_for]. *)
Theorem adaptive_evolve_hands_the_lists_on
    self gens h e envs sw cur gen gf ce h' out :
  objs h !! self = Some e -> subclass e = AdaptiveClass envs sw cur gen gf ->
  self ∉ cur :: envs -> objs h !! cur = Some ce ->
  AdaptiveEnvironment_evolve self gens h = (h', out) ->
  exists e' cur' gen' ce',
    objs h' !! self = Some e' /\ subclass e' = AdaptiveClass envs sw cur' gen' gf /\
    cur' ∈ cur :: envs /\ objs h' !! cur' = Some ce' /\
    individuals ce' = individuals ce /\ history ce' = history ce.
Proof.
  intros He Hsub Hself Hce Hev.
  set (J := active_inv (World := World) self (individuals ce) (history ce) envs sw gf
              (cur :: envs)).
  assert (HJ : J h) by (exists e, cur, gen, ce; repeat split; try done; by left).
  assert (Hkeeps : keeps J (AdaptiveEnvironment_evolve self gens) (fun _ => True)).
  { unfold AdaptiveEnvironment_evolve. eapply keeps_bind.
    - apply keeps_for_each. intros _ _.
      apply active_generation; [|done]. intros env Henv. by right.
    - intros _ _.
      eapply (keeps_bind _ _ _ (fun _ => True)); [by apply keeps_get_attr|].
      intros i _.
      eapply (keeps_bind _ _ _ (fun _ => True)); [by apply keeps_get_attr|].
      intros hs _. by apply keeps_ret. }
  by destruct (Hkeeps h h' out HJ Hev) as [HJ' _].
Qed.

(** C10, amended.  Take an adaptive environment that is not a member of
    its own pool.  Whatever the outcome of [evolve], the composite still
    holds the two list objects it held before, and the pair that the call
    returns is made of these two.  The evolved candidates and the recorded
    fitness values live in the sub-environments: the call writes to no
    list but the population and the history of the environment that is
    active when it starts, and the environment that is active afterwards,
    a member of the pool, holds these two lists.  So a population and a
    history of the composite that are not these lists have after the call
    the contents they had before. *)
Theorem adaptive_evolve_returns_own_lists
    self gens h e envs sw cur gen gf ce h' out :
  objs h !! self = Some e -> subclass e = AdaptiveClass envs sw cur gen gf ->
  self ∉ cur :: envs -> objs h !! cur = Some ce ->
  AdaptiveEnvironment_evolve self gens h = (h', out) ->
  (exists e', objs h' !! self = Some e' /\
     individuals e' = individuals e /\ history e' = history e) /\
  (forall r, out = Return r -> r = (individuals e, history e)) /\
  (forall r, r ≠ individuals ce -> pops h' !! r = pops h !! r) /\
  (forall r, r ≠ history ce -> hists h' !! r = hists h !! r) /\
  (exists e' cur' gen' ce',
     objs h' !! self = Some e' /\ subclass e' = AdaptiveClass envs sw cur' gen' gf /\
     cur' ∈ cur :: envs /\ objs h' !! cur' = Some ce' /\
     individuals ce' = individuals ce /\ history ce' = history ce) /\
  (individuals e ≠ individuals ce ->
     pops h' !! individuals e = pops h !! individuals e) /\
  (history e ≠ history ce ->
     hists h' !! history e = hists h !! history e).
Proof.
  intros He Hsub Hself Hce Hev.
  (* the composite keeps its two lists *)
  set (I := adaptive_inv (World := World) self (individuals e) (history e) envs sw gf
              (cur :: envs) False h).
  assert (HI : I h).
  { split; [|done]. exists e, cur, gen. repeat split; try done. by left. }
  assert (Hkeeps : keeps I (AdaptiveEnvironment_evolve self gens)
                     (fun r => r = (individuals e, history e))).
  { unfold AdaptiveEnvironment_evolve. eapply keeps_bind.
    - apply keeps_for_each. intros _ _.
      apply keeps_adaptive_generation; [|done]. intros env Henv. by right.
    - intros _ _.
      eapply (keeps_bind _ _ _ (fun i => i = individuals e)).
      { apply keeps_get_attr. intros h1 ee [(es & c & g & Hes & Hi & _) _] Hee. congruence. }
      intros ? ->.
      eapply (keeps_bind _ _ _ (fun i => i = history e)).
      { apply keeps_get_attr. intros h1 ee [(es & c & g & Hes & _ & Hh & _) _] Hee.
        congruence. }
      intros ? ->. by apply keeps_ret. }
  destruct (Hkeeps h h' out HI Hev) as [[(es & c & g & Hes & Hi & Hh & _) _] Hret].
  split; [by exists es|]. split; [exact Hret|].
  (* the loop writes to the lists of the active environment only *)
  assert (HJ : active_inv self (individuals ce) (history ce) envs sw gf (cur :: envs) h).
  { exists e, cur, gen, ce. repeat split; try done. by left. }
  assert (Hframe : active_inv self (individuals ce) (history ce) envs sw gf
                     (cur :: envs) h' /\
            (forall r, r ≠ individuals ce -> pops h' !! r = pops h !! r) /\
            (forall r, r ≠ history ce -> hists h' !! r = hists h !! r)).
  { unfold AdaptiveEnvironment_evolve in Hev. unfold bind at 1 in Hev.
    match type of Hev with
    | (let (_, _) := ?c h in _) = _ => destruct (c h) as [h1 [[]|err]] eqn:Hloop
    end.
    - destruct (active_loop_frame self (individuals ce) (history ce) envs sw gf
                  (cur :: envs) ltac:(intros env Henv; by right) Hself
                  (range gens) h h1 _ HJ Hloop) as (HJ1 & Hp1 & Hh1).
      destruct HJ1 as (e1 & cur1 & gen1 & ce1 & He1 & HJ1).
      rewrite (bind_get_attr self individuals _ h1 e1 He1),
        (bind_get_attr self history _ h1 e1 He1) in Hev.
      injection Hev as <- _. split; [by exists e1, cur1, gen1, ce1|done].
    - injection Hev as <- _.
      by apply (active_loop_frame self (individuals ce) (history ce) envs sw gf
                  (cur :: envs) ltac:(intros env Henv; by right) Hself
                  (range gens) h h1 (Raise err)). }
  destruct Hframe as (HJ' & Hp & Hhs).
  split; [exact Hp|]. split; [exact Hhs|]. split; [exact HJ'|].
  split; [apply Hp|apply Hhs].
Qed.

(** X23.  An adaptive environment whose switching interval is zero cannot
    evolve: [evolve(N)] with N at least 1 raises [ZeroDivisionError] in
    its first generation, after it has advanced the iteration count by one
    and deactivated the pool members of low fitness; no population and no
    history has changed. *)
Theorem adaptive_evolve_zero_interval self gens h e envs cur gen gf :
  objs h !! self = Some e -> subclass e = AdaptiveClass envs 0 cur gen gf ->
  (forall r, r ∈ envs -> is_Some (objs h !! r)) -> 1 <= gens ->
  exists h' e',
    AdaptiveEnvironment_evolve self gens h = (h', Raise ZeroDivisionError) /\
    pops h' = pops h /\ hists h' = hists h /\
    objs h' !! self = Some e' /\ iteration e' = iteration e + 1.
Proof.
  intros He Hsub Hvalid Hgens.
  set (ea := set_iteration (iteration e + 1) e).
  set (ha := set_objs (<[self := ea]> (objs h)) h).
  assert (Hea : objs ha !! self = Some ea)
    by (subst ha; simpl; by rewrite lookup_insert_eq).
  set (eb := set_current_generation (gen + 1) ea).
  set (hb := set_objs (<[self := eb]> (objs ha)) ha).
  assert (Heb : objs hb !! self = Some eb)
    by (subst hb; simpl; by rewrite lookup_insert_eq).
  assert (Hsubb : subclass eb = AdaptiveClass envs 0 cur (gen + 1) gf).
  { subst eb. unfold set_current_generation.
    change (subclass ea) with (subclass e). by rewrite Hsub. }
  assert (Hvalidb : forall r, r ∈ envs -> is_Some (objs hb !! r)).
  { intros r Hr. subst hb ha. simpl. destruct (decide (r = self)) as [->|Hne].
    - rewrite lookup_insert_eq. by eexists.
    - rewrite !lookup_insert_ne by done. by apply Hvalid. }
  destruct (smart_evolve_spec self hb eb envs 0 cur (gen + 1) gf Heb Hsubb Hvalidb)
    as (h1 & Hobjs & Hp & Hh & _ & Hsm).
  rewrite bool_decide_eq_true_2 in Hsm by done.
  exists h1, (deactivate_if_low envs self eb).
  split; [|split; [done|split; [done|split]]].
  - unfold AdaptiveEnvironment_evolve, range.
    destruct (Z.to_nat gens) as [|n] eqn:Hn; [lia|].
    apply bind_raise. simpl. apply bind_raise.
    rewrite (bind_get_attr self iteration _ h e He).
    rewrite (bind_set_attr self _ _ h e He). fold ea ha.
    assert (Hgen : get_current_generation self ha = (ha, Return gen)).
    { unfold get_current_generation.
      rewrite (bind_get_attr self subclass _ ha ea Hea).
      change (subclass ea) with (subclass e). by rewrite Hsub. }
    rewrite (bind_return _ _ _ _ _ Hgen).
    rewrite (bind_set_attr self _ _ ha ea Hea). fold eb hb.
    by apply bind_raise.
  - by rewrite Hobjs, Heb.
  - assert (Hit : iteration eb = iteration e + 1).
    { subst eb. unfold set_current_generation.
      change (subclass ea) with (subclass e). by rewrite Hsub. }
    unfold deactivate_if_low. by case_bool_decide.
Qed.

(** ** [AdaptiveEnvironment.switch_environment] *)

(** X24.  [switch_environment] reads its baseline from the last candidate
    of the active environment before anything else: over an empty
    population it raises [IndexError] and the store is as before, no
    member has been handed the population or run. *)
Theorem switch_environment_needs_a_candidate self h e envs sw cur gen gf ce :
  objs h !! self = Some e -> subclass e = AdaptiveClass envs sw cur gen gf ->
  objs h !! cur = Some ce -> pops h !!! individuals ce = [] ->
  AdaptiveEnvironment_switch_environment self h = (h, Raise IndexError).
Proof.
  intros He Hsub Hce Hpop.
  assert (Hcur : get_current_environment self h = (h, Return cur)).
  { unfold get_current_environment.
    by rewrite (bind_get_attr self subclass _ h e He), Hsub. }
  unfold AdaptiveEnvironment_switch_environment.
  rewrite (bind_return _ _ _ _ _ Hcur), (bind_get_attr cur individuals _ h ce Hce).
  rewrite bind_read_pop, Hpop. unfold last_item. simpl. by rewrite bind_raise_now.
Qed.

Lemma trial_step_shares self first pool sw cur gen gf pc acc x h h' acc' :
  (exists es, objs h !! self = Some es /\ subclass es = AdaptiveClass pool sw cur gen gf) ->
  (exists ce, objs h !! cur = Some ce /\ individuals ce = pc) ->
  AdaptiveEnvironment_switch_body self first acc x h = (h', Return acc') ->
  (exists es, objs h' !! self = Some es /\ subclass es = AdaptiveClass pool sw cur gen gf) /\
  (exists ee, objs h' !! x = Some ee /\ individuals ee = pc) /\
  (forall r, (exists ee, objs h !! r = Some ee /\ individuals ee = pc) ->
     exists ee, objs h' !! r = Some ee /\ individuals ee = pc).
Proof.
  intros (es & Hes & Hsub) (ce & Hce & Hpc) Hrun.
  assert (Hcur : get_current_environment self h = (h, Return cur)).
  { unfold get_current_environment.
    by rewrite (bind_get_attr self subclass _ h es Hes), Hsub. }
  unfold AdaptiveEnvironment_switch_body in Hrun.
  rewrite (bind_return _ _ _ _ _ Hcur), (bind_get_attr cur individuals _ h ce Hce), Hpc
    in Hrun.
  destruct (objs h !! x) as [ex|] eqn:Hex.
  2: { rewrite (bind_raise _ _ h h InvalidReference) in Hrun; [done|].
       unfold set_attr. by rewrite Hex. }
  rewrite (bind_set_attr x _ _ h ex Hex) in Hrun.
  set (h1 := set_objs (<[x := set_individuals pc ex]> (objs h)) h) in *.
  assert (Hx1 : objs h1 !! x = Some (set_individuals pc ex))
    by (subst h1; simpl; by rewrite lookup_insert_eq).
  assert (exists es1, objs h1 !! self = Some es1 /\
            subclass es1 = AdaptiveClass pool sw cur gen gf) as (es1 & Hes1 & Hsub1).
  { subst h1. simpl. destruct (decide (self = x)) as [->|Hne].
    - rewrite lookup_insert_eq. eexists. split; [done|]. simpl. congruence.
    - rewrite lookup_insert_ne by done. by exists es. }
  assert (Hgf : get_go_for self h1 = (h1, Return gf)).
  { unfold get_go_for. by rewrite (bind_get_attr self subclass _ h1 es1 Hes1), Hsub1. }
  rewrite (bind_return _ _ _ _ _ Hgf) in Hrun.
  destruct (Environment_evolve x gf h1) as [h2 [r|err]] eqn:Hev;
    [|by rewrite (bind_raise _ _ _ _ _ Hev) in Hrun].
  rewrite (bind_return _ _ _ _ _ Hev) in Hrun.
  destruct (evolve_frame x gf h1 h2 _ Hev) as (Hobjs & _ & _).
  destruct (Hobjs x _ Hx1) as (ex2 & Hx2 & Hst2 & _).
  rewrite (bind_get_attr x individuals _ h2 ex2 Hx2), bind_read_pop in Hrun.
  unfold last_item in Hrun.
  destruct (last (pops h2 !!! individuals ex2)) as [last_one|];
    [|by rewrite bind_raise_now in Hrun].
  rewrite bind_ret in Hrun.
  assert (Hh' : h' = h2) by (destruct (gain_gt _ _); by injection Hrun as <- _).
  subst h'. split; [|split].
  - destruct (Hobjs self es1 Hes1) as (es2 & Hes2 & Hsame & _).
    exists es2. split; [done|]. unfold same_static in Hsame. intuition congruence.
  - exists ex2. split; [done|]. unfold same_static in Hst2. simpl in Hst2.
    intuition congruence.
  - intros y (ee & Hee & Hi).
    assert (exists ee1, objs h1 !! y = Some ee1 /\ individuals ee1 = pc)
      as (ee1 & Hee1 & Hi1).
    { subst h1. simpl. destruct (decide (y = x)) as [->|Hne].
      - rewrite lookup_insert_eq. by eexists.
      - rewrite lookup_insert_ne by done. by exists ee. }
    destruct (Hobjs y ee1 Hee1) as (ee2 & Hee2 & Hsame & _).
    exists ee2. split; [done|]. unfold same_static in Hsame. intuition congruence.
Qed.

Lemma trial_loop_shares self first pool sw cur gen gf pc l : forall acc h h' acc',
  (exists es, objs h !! self = Some es /\ subclass es = AdaptiveClass pool sw cur gen gf) ->
  (exists ce, objs h !! cur = Some ce /\ individuals ce = pc) ->
  fold_each l acc (AdaptiveEnvironment_switch_body self first) h = (h', Return acc') ->
  (exists es, objs h' !! self = Some es /\ subclass es = AdaptiveClass pool sw cur gen gf) /\
  (forall r, r ∈ l -> exists ee, objs h' !! r = Some ee /\ individuals ee = pc) /\
  (forall r, (exists ee, objs h !! r = Some ee /\ individuals ee = pc) ->
     exists ee, objs h' !! r = Some ee /\ individuals ee = pc).
Proof.
  induction l as [|x l IH]; intros acc h h' acc' Hself Hcur Hrun.
  - injection Hrun as <- <-. split; [done|]. split; [|done].
    intros r Hr. by apply elem_of_nil in Hr.
  - simpl in Hrun. apply bind_inv in Hrun as (h1 & acc1 & Hstep & Hrest).
    destruct (trial_step_shares _ _ _ _ _ _ _ _ _ _ _ _ _ Hself Hcur Hstep)
      as (Hself1 & Hx1 & Hkeep1).
    destruct (IH acc1 h1 h' acc' Hself1 (Hkeep1 cur Hcur) Hrest)
      as (Hself' & Hl & Hkeep').
    split; [done|]. split; [|by auto].
    intros r Hr. apply elem_of_cons in Hr as [->|Hr]; [by apply Hkeep'|by apply Hl].
Qed.



(** X25.  [switch_environment] compares the pool members on one shared
    population: when it returns, every member of the pool holds as its
    population the very list that the active environment held before the
    call, so each trial run has worked on what the trial before it left,
    and so does the environment that is active afterwards. *)
Theorem switch_environment_shares_one_population
    self h e pool sw cur gen gf ce h' :
  objs h !! self = Some e -> subclass e = AdaptiveClass pool sw cur gen gf ->
  objs h !! cur = Some ce ->
  AdaptiveEnvironment_switch_environment self h = (h', Return tt) ->
  (forall r, r ∈ pool ->
     exists ee, objs h' !! r = Some ee /\ individuals ee = individuals ce) /\
  exists e' cur' ce',
    objs h' !! self = Some e' /\ subclass e' = AdaptiveClass pool sw cur' gen gf /\
    objs h' !! cur' = Some ce' /\ individuals ce' = individuals ce.
Proof.
  intros He Hsub Hce Hrun.
  assert (Hcur : get_current_environment self h = (h, Return cur)).
  { unfold get_current_environment.
    by rewrite (bind_get_attr self subclass _ h e He), Hsub. }
  unfold AdaptiveEnvironment_switch_environment in Hrun.
  rewrite (bind_return _ _ _ _ _ Hcur), (bind_get_attr cur individuals _ h ce Hce),
    bind_read_pop in Hrun.
  unfold last_item in Hrun.
  destruct (last (pops h !!! individuals ce)) as [base|];
    [|by rewrite bind_raise_now in Hrun].
  rewrite bind_ret in Hrun.
  assert (Henvs : get_environments self h = (h, Return pool))
    by (unfold get_environments; by rewrite (bind_get_attr self subclass _ h e He), Hsub).
  rewrite (bind_return _ _ _ _ _ Henvs) in Hrun.
  apply bind_inv in Hrun as (h1 & acc & Hfold & Hrun).
  destruct (trial_loop_shares self (fitness base) pool sw cur gen gf (individuals ce)
              pool (NegInf, None) h h1 acc) as ((e1 & He1 & Hsub1) & Hpool & Hkeep);
    [by exists e | by exists ce | done |].
  destruct (Hkeep cur) as (ce1 & Hce1 & Hpc1); [by exists ce|].
  destruct acc.2 as [best|].
  2: { injection Hrun as <-. split; [done|]. by exists e1, cur, ce1. }
  assert (Hcur1 : get_current_environment self h1 = (h1, Return cur)).
  { unfold get_current_environment.
    by rewrite (bind_get_attr self subclass _ h1 e1 He1), Hsub1. }
  rewrite (bind_return _ _ _ _ _ Hcur1), (bind_get_attr cur individuals _ h1 ce1 Hce1),
    Hpc1 in Hrun.
  destruct (objs h1 !! best) as [be|] eqn:Hbe.
  2: { rewrite (bind_raise _ _ h1 h1 InvalidReference) in Hrun; [done|].
       unfold set_attr. by rewrite Hbe. }
  rewrite (bind_set_attr best _ _ h1 be Hbe) in Hrun.
  set (h2 := set_objs (<[best := set_individuals (individuals ce) be]> (objs h1)) h1) in *.
  assert (exists e2, objs h2 !! self = Some e2 /\
            subclass e2 = AdaptiveClass pool sw cur gen gf) as (e2 & He2 & Hsub2).
  { subst h2. simpl. destruct (decide (self = best)) as [->|Hne].
    - rewrite lookup_insert_eq. eexists. split; [done|]. simpl. congruence.
    - rewrite lookup_insert_ne by done. by exists e1. }
  rewrite (bind_set_attr self _ _ h2 e2 He2) in Hrun.
  set (e3 := set_current_environment best e2) in *.
  set (h3 := set_objs (<[self := e3]> (objs h2)) h2) in *.
  assert (Hsub3 : subclass e3 = AdaptiveClass pool sw best gen gf)
    by (subst e3; unfold set_current_environment; by rewrite Hsub2).
  assert (He3 : objs h3 !! self = Some e3)
    by (subst h3; simpl; by rewrite lookup_insert_eq).
  assert (Hshare : forall r,
            (exists ee, objs h1 !! r = Some ee /\ individuals ee = individuals ce) ->
            exists ee, objs h3 !! r = Some ee /\ individuals ee = individuals ce).
  { intros r (ee & Hee & Hi). subst h3. simpl.
    destruct (decide (r = self)) as [->|Hns].
    - rewrite lookup_insert_eq. eexists. split; [done|].
      subst e3. unfold set_current_environment. rewrite Hsub2. simpl.
      subst h2. simpl in He2. destruct (decide (self = best)) as [<-|Hnb].
      + rewrite lookup_insert_eq in He2. by injection He2 as <-.
      + rewrite lookup_insert_ne in He2 by done. congruence.
    - rewrite lookup_insert_ne by done. subst h2. simpl.
      destruct (decide (r = best)) as [->|Hnb].
      + rewrite lookup_insert_eq. by eexists.
      + rewrite lookup_insert_ne by done. by exists ee. }
  assert (Hbest3 : exists be3, objs h3 !! best = Some be3 /\
            individuals be3 = individuals ce).
  { subst h3. simpl. destruct (decide (best = self)) as [->|Hns].
    - rewrite lookup_insert_eq. eexists. split; [done|].
      subst e3. unfold set_current_environment. rewrite Hsub2. simpl.
      subst h2. simpl in He2. rewrite lookup_insert_eq in He2. by injection He2 as <-.
    - rewrite lookup_insert_ne by done. subst h2. simpl.
      rewrite lookup_insert_eq. by eexists. }
  destruct Hbest3 as (be3 & Hbe3 & Hbi3).
  rewrite (bind_get_attr best name _ h3 be3 Hbe3) in Hrun.
  assert (Hgen3 : get_current_generation self h3 = (h3, Return gen)).
  { unfold get_current_generation.
    by rewrite (bind_get_attr self subclass _ h3 e3 He3), Hsub3. }
  rewrite (bind_return _ _ _ _ _ Hgen3) in Hrun.
  injection Hrun as <-. split.
  - intros r Hr. destruct (Hshare r (Hpool r Hr)) as (ee & Hee & Hi). by exists ee.
  - by exists e3, best, be3.
Qed.

End More.

(** ** The further properties at work *)

Lemma compile_keeps_the_run_witness :
  exists h' (e' : @Environment nat),
    Environment_compile 0%nat (Some fitness) None None 5 (growing_heap true)
      = (h', Return tt) /\
    objs h' !! 0%nat = Some e' /\ compiled e' = true /\ verbose_every e' = 5 /\
    deactivated e' = true /\ history e' = 0%nat /\
    pops (growing_heap true) !! individuals e' = None.
Proof.
  destruct (compile_keeps_the_run 0%nat (Some fitness) None None 5 (growing_heap true)
              (growing true)) as (h' & e' & Hrun & Hobjs & Hrest).
  - reflexivity.
  - exists h', e'. split; [exact Hrun|]. split; [by rewrite Hobjs, lookup_insert_eq|].
    destruct Hrest as (_ & _ & Hv & Hc & Hh & _ & _ & _ & Hd & _ & _ & _ & _ & _ & _ & Hp & _).
    done.
Defined.

Lemma reset_rebinds_to_new_lists_witness :
  exists h' (e' : @Environment nat),
    Sequential_reset 0%nat (growing_heap false) = (h', Return tt) /\
    iteration e' = 0 /\
    pops h' !! 0%nat = Some [seed] /\
    pops h' !! individuals e' = Some [].
Proof.
  destruct (reset_rebinds_to_new_lists 0%nat (growing_heap false) (growing false))
    as (h' & e' & Hrun & _ & Hit & _ & _ & Hp & _ & Hold & _).
  - reflexivity.
  - exists h', e'. split; [exact Hrun|]. split; [exact Hit|]. split.
    + rewrite Hold; [reflexivity|]. by eexists.
    + by rewrite Hp, lookup_insert_eq.
Defined.

Lemma deactivate_is_permanent_witness :
  exists h1 h2 (e2 : @Environment nat),
    Environment_deactivate 0%nat (growing_heap false) = (h1, Return tt) /\
    Environment_evolve 0%nat 3 h1 = (h1, Return (OnlyIndividuals 0%nat)) /\
    Environment_compile 0%nat (Some fitness) None None 1 h1 = (h2, Return tt) /\
    objs h2 !! 0%nat = Some e2 /\ deactivated e2 = true /\
    Environment_evolve 0%nat 3 h2 = (h2, Return (OnlyIndividuals (individuals e2))).
Proof.
  apply (deactivate_is_permanent 0%nat (Some fitness) None None 1 3 (growing_heap false)
           (growing false)).
  reflexivity.
Defined.

Lemma fitness_metric_is_running_maximum_witness :
  Environment_get_fitness_metric 0%nat
    (Environment_execute 0%nat 0%nat (growing_heap false)).1
    = ((Environment_execute 0%nat 0%nat (growing_heap false)).1, Return 1).
Proof.
  apply (fitness_metric_is_running_maximum 0%nat
           (Environment_execute 0%nat 0%nat (growing_heap false)).1
           ([] ++ [fitness {| genes := []; fitness := 1 |}])).
  eapply (life_generation 0%nat (growing_heap false) _ 0%nat).
  - apply (life_created 0%nat (growing_heap false) (growing false)); reflexivity.
  - vm_compute. reflexivity.
  - vm_compute. reflexivity.
  - vm_compute. reflexivity.
Defined.

Lemma evolve_nonpositive_runs_nothing_witness :
  Environment_evolve 0%nat (-1) (growing_heap false) =
    (set_objs (<[0%nat := set_generations (-1) (growing false)]>
                 (objs (growing_heap false))) (growing_heap false),
     Return (IndividualsAndHistory 0%nat 0%nat)).
Proof.
  apply (evolve_nonpositive_runs_nothing 0%nat (-1) (growing_heap false) (growing false)).
  - reflexivity.
  - reflexivity.
  - lia.
Defined.

Lemma evolve_leaves_the_loop_index_witness :
  exists e' : @Environment nat,
    objs (Environment_evolve 0%nat 3 late_heap).1 !! 0%nat = Some e' /\
    generations e' = 3 /\
    0 <= iteration e' < 3 /\
    Z.of_nat (length (hists (Environment_evolve 0%nat 3 late_heap).1 !!! 0%nat))
      = Z.of_nat (length (hists late_heap !!! 0%nat)) + iteration e'.
Proof.
  apply (evolve_leaves_the_loop_index 0%nat 3 late_heap late
           (Environment_evolve 0%nat 3 late_heap).1 (Raise NoIndividualsAtEndOfRun)).
  - reflexivity.
  - reflexivity.
  - vm_compute. reflexivity.
Defined.

Lemma evolve_prints_after_warm_up_witness :
  exists evs,
    stdout (Environment_evolve 0%nat 3 (growing_heap false)).1
      = stdout (growing_heap false) ++ evs /\
    Forall (progress_line (growing false) 3) evs /\
    (3 <= 2 \/ verbose_every (growing false) = 0 \/ deactivated (growing false) = true ->
     evs = []).
Proof.
  apply (evolve_prints_after_warm_up 0%nat 3 (growing_heap false) (growing false)
           (Environment_evolve 0%nat 3 (growing_heap false)).1
           (Return (IndividualsAndHistory 0%nat 0%nat))).
  - reflexivity.
  - vm_compute. reflexivity.
Defined.

Lemma reset_then_evolve_starts_a_new_history_witness :
  exists h1 h2 inds hist,
    Sequential_reset 0%nat (growing_heap false) = (h1, Return tt) /\
    Sequential_evolve 0%nat 2 h1 = (h2, Return (IndividualsAndHistory inds hist)) /\
    pops (growing_heap false) !! inds = None /\
    hists (growing_heap false) !! hist = None /\
    Z.of_nat (length (hists h2 !!! hist)) = 2 /\
    (forall r, is_Some (pops (growing_heap false) !! r) ->
       pops h2 !! r = pops (growing_heap false) !! r) /\
    (forall r, is_Some (hists (growing_heap false) !! r) ->
       hists h2 !! r = hists (growing_heap false) !! r).
Proof.
  apply (reset_then_evolve_starts_a_new_history 0%nat 2 (growing_heap false)
           (growing false)).
  - reflexivity.
  - reflexivity.
  - apply grow_never_empties.
  - lia.
Defined.

Lemma evolve_touches_only_its_own_witness :
  (forall r ee, objs adversarial_heap !! r = Some ee ->
     exists ee', objs (Environment_evolve 0%nat 2 adversarial_heap).1 !! r = Some ee' /\
       same_static ee ee' /\ (r ≠ 0%nat -> ee' = ee)) /\
  (forall ee, objs adversarial_heap !! 0%nat = Some ee ->
     (forall r, r ≠ history ee ->
        hists (Environment_evolve 0%nat 2 adversarial_heap).1 !! r
          = hists adversarial_heap !! r) /\
     (forall r, r ≠ individuals ee ->
        pops (Environment_evolve 0%nat 2 adversarial_heap).1 !! r
          = pops adversarial_heap !! r)).
Proof.
  apply (evolve_touches_only_its_own 0%nat 2 adversarial_heap
           (Environment_evolve 0%nat 2 adversarial_heap).1
           (Return (IndividualsAndHistory 0%nat 0%nat))).
  vm_compute. reflexivity.
Defined.

Lemma adversarial_evolve_without_environments_witness :
  Adversarial_evolve 2%nat 1 (contest (AdversarialClass []))
    = (set_stdout (stdout (contest (AdversarialClass [])) ++ [PrintTable []])
         (contest (AdversarialClass [])), Raise ValueError).
Proof.
  apply (adversarial_evolve_without_environments 2%nat 1 (contest (AdversarialClass []))
           (set_subclass (AdversarialClass []) (staged "composite" [] 2%nat 2%nat false))).
  - reflexivity.
  - reflexivity.
Defined.

Lemma idle_B_run_of_A :
  adversarial_runs 2%nat 1 [0%nat] idle_B_heap [("A", 5, 1)] idle_B_after_A.
Proof.
  eapply (runs_next 2%nat 1 0%nat _ _ _ _ _ _ _ 0 1 _ _ "A" 5); [vm_compute; reflexivity..|].
  apply runs_done.
Qed.

Lemma adversarial_evolve_over_deactivated_witness :
  exists w, Adversarial_evolve 2%nat 1 idle_B_heap
              = (set_world w idle_B_after_A, Raise ValueError).
Proof.
  apply (adversarial_evolve_over_deactivated 2%nat 1 idle_B_heap
           (set_subclass (AdversarialClass [0%nat; 1%nat])
              (staged "composite" [] 2%nat 2%nat false))
           [0%nat] 1%nat [] [("A", 5, 1)] idle_B_after_A
           (staged "B" [add 8] 1%nat 1%nat true)).
  - reflexivity.
  - reflexivity.
  - apply idle_B_run_of_A.
  - vm_compute. reflexivity.
  - reflexivity.
  - vm_compute. lia.
Defined.

Lemma composite_compile_over_compiled_witness :
  Adversarial_compile 2%nat (Some fitness) None None 1 adversarial_heap
    = ((Environment_compile 2%nat (Some fitness) None None 1 adversarial_heap).1,
       Return tt).
Proof.
  apply (composite_compile_over_compiled 2%nat (Some fitness) None None 1 adversarial_heap
           (set_subclass (AdversarialClass [0%nat; 1%nat])
              (staged "composite" [] 2%nat 2%nat false))
           [0%nat; 1%nat]).
  - reflexivity.
  - intros r Hr. right. rewrite !elem_of_cons, elem_of_nil in Hr.
    destruct Hr as [->|[->|[]]]; eexists; (split; [reflexivity|reflexivity]).
  - vm_compute. reflexivity.
  - reflexivity.
Defined.

Lemma composite_compile_stops_at_uncompiled_witness :
  ChronologicalEnvironment_compile 1%nat (Some fitness) None None 1 chronological_heap
    = ((Environment_compile 1%nat (Some fitness) None None 1 chronological_heap).1,
       Raise TypeError) /\
  objs (Environment_compile 1%nat (Some fitness) None None 1 chronological_heap).1 !! 0%nat
    = objs chronological_heap !! 0%nat.
Proof.
  destruct (composite_compile_stops_at_uncompiled 1%nat (Some fitness) None None 1
              chronological_heap
              (bare "chronological" 1%nat 1%nat
                 (ChronologicalClass [(0%nat, Some 1)] 2%nat None))
              [0%nat]
              (Environment_compile 1%nat (Some fitness) None None 1 chronological_heap).1)
    as ((_ & _ & Hchrono) & _ & Hothers).
  - reflexivity.
  - intros r Hr. rewrite elem_of_cons, elem_of_nil in Hr. destruct Hr as [->|[]].
    by eexists.
  - exists 0%nat, (bare "A" 0%nat 0%nat BaseClass).
    split; [by left|]. split; [lia|]. split; reflexivity.
  - vm_compute. reflexivity.
  - split; [by apply (Hchrono [(0%nat, Some 1)] 2%nat None)|]. apply Hothers. lia.
Defined.

Lemma chronological_stage_doubles_population_witness :
  exists hb h2 : @Heap nat,
    Environment_evolve 0%nat 2 hb
      = (h2, Return (IndividualsAndHistory 2%nat 0%nat)) /\
    pops (ChronologicalEnvironment_evolve_body 2%nat 1 (0%nat, Some 2) relay_heap).1
      = <[2%nat := pops h2 !!! 2%nat ++ pops h2 !!! 2%nat]> (pops h2).
Proof.
  destruct (chronological_stage_doubles_population 2%nat 1 0%nat (Some 2) relay_heap
              (ChronologicalEnvironment_evolve_body 2%nat 1 (0%nat, Some 2) relay_heap).1
              (set_subclass
                 (ChronologicalClass [(0%nat, Some 2); (1%nat, Some 1)] 3%nat None)
                 (staged "composite" [] 2%nat 2%nat false))
              (staged "A" [add 5] 0%nat 0%nat false))
    as (_ & _ & hb & h2 & _ & _ & _ & _ & Hev & Hpops).
  - reflexivity.
  - reflexivity.
  - lia.
  - vm_compute. reflexivity.
  - exists hb, h2. split; [exact Hev | exact Hpops].
Defined.

Lemma chronological_stage_without_generations_witness :
  exists h', ChronologicalEnvironment_evolve_body 2%nat 1 (0%nat, Some 0) relay_heap
               = (h', Raise IndexError).
Proof.
  apply (chronological_stage_without_generations 2%nat 1 0%nat 0 relay_heap
           (set_subclass
              (ChronologicalClass [(0%nat, Some 2); (1%nat, Some 1)] 3%nat None)
              (staged "composite" [] 2%nat 2%nat false))
           (staged "A" [add 5] 0%nat 0%nat false)
           [(0%nat, Some 2); (1%nat, Some 1)] 3%nat None).
  - reflexivity.
  - reflexivity.
  - reflexivity.
  - lia.
  - reflexivity.
  - reflexivity.
  - lia.
Defined.

Lemma weak_pool_members_valid sw r :
  r ∈ [0%nat; 1%nat] -> is_Some (objs (weak_pool_heap sw) !! r).
Proof.
  intros Hr. rewrite !elem_of_cons, elem_of_nil in Hr.
  destruct Hr as [->|[->|[]]]; by eexists.
Qed.

Lemma smart_evolve_deactivates_low_members_witness :
  (forall r, objs (AdaptiveEnvironment_smart_evolve 2%nat (weak_pool_heap 1)).1 !! r
             = deactivate_if_low [0%nat; 1%nat] r <$> objs (weak_pool_heap 1) !! r) /\
  pops (AdaptiveEnvironment_smart_evolve 2%nat (weak_pool_heap 1)).1
    = pops (weak_pool_heap 1) /\
  hists (AdaptiveEnvironment_smart_evolve 2%nat (weak_pool_heap 1)).1
    = hists (weak_pool_heap 1).
Proof.
  apply (smart_evolve_deactivates_low_members 2%nat (weak_pool_heap 1)
           (set_subclass (AdaptiveClass [0%nat; 1%nat] 1 0%nat 0 1)
              (staged "composite" [] 2%nat 2%nat false))
           [0%nat; 1%nat] 1 0%nat 0 1
           (AdaptiveEnvironment_smart_evolve 2%nat (weak_pool_heap 1)).1
           (Return 0%nat)).
  - reflexivity.
  - reflexivity.
  - apply weak_pool_members_valid.
  - vm_compute. reflexivity.
Defined.

Lemma pool_members_valid r :
  r ∈ [0%nat; 1%nat] -> is_Some (objs pool_heap !! r).
Proof.
  intros Hr. rewrite !elem_of_cons, elem_of_nil in Hr.
  destruct Hr as [->|[->|[]]]; by eexists.
Qed.

Lemma smart_evolve_returns_member_or_active_witness :
  0%nat ∈ [0%nat; 1%nat] /\ 0 < foldr Z.add 0 (weights_of pool_heap [0%nat; 1%nat]).
Proof.
  destruct (smart_evolve_returns_member_or_active 2%nat pool_heap
              (set_subclass (AdaptiveClass [0%nat; 1%nat] 1 0%nat 0 1)
                 (staged "composite" [] 2%nat 2%nat false))
              [0%nat; 1%nat] 1 0%nat 0 1
              (AdaptiveEnvironment_smart_evolve 2%nat pool_heap).1 0%nat)
    as [_ Hmember].
  - reflexivity.
  - reflexivity.
  - apply pool_members_valid.
  - vm_compute. reflexivity.
  - exact Hmember.
Defined.

Lemma smart_evolve_failures_witness :
  exists h1,
    (forall r, objs h1 !! r
               = deactivate_if_low [0%nat; 1%nat] r <$> objs (weak_pool_heap 0) !! r) /\
    AdaptiveEnvironment_smart_evolve 2%nat (weak_pool_heap 0)
      = (h1, Raise ZeroDivisionError).
Proof.
  destruct (smart_evolve_failures 2%nat (weak_pool_heap 0)
              (set_subclass (AdaptiveClass [0%nat; 1%nat] 0 0%nat 0 1)
                 (staged "composite" [] 2%nat 2%nat false))
              [0%nat; 1%nat] 0 0%nat 0 1)
    as (h1 & Hobjs & Hzero & _).
  - reflexivity.
  - reflexivity.
  - apply weak_pool_members_valid.
  - exists h1. split; [exact Hobjs|]. by apply Hzero.
Defined.

Lemma adaptive_evolve_hands_the_lists_on_witness :
  exists (e' : @Environment nat) cur' gen' (ce' : @Environment nat),
    objs (AdaptiveEnvironment_evolve 2%nat 2 pool_heap).1 !! 2%nat = Some e' /\
    subclass e' = AdaptiveClass [0%nat; 1%nat] 1 cur' gen' 1 /\
    cur' ∈ [0%nat; 0%nat; 1%nat] /\
    objs (AdaptiveEnvironment_evolve 2%nat 2 pool_heap).1 !! cur' = Some ce' /\
    individuals ce' = 0%nat /\ history ce' = 0%nat.
Proof.
  apply (adaptive_evolve_hands_the_lists_on 2%nat 2 pool_heap
           (set_subclass (AdaptiveClass [0%nat; 1%nat] 1 0%nat 0 1)
              (staged "composite" [] 2%nat 2%nat false))
           [0%nat; 1%nat] 1 0%nat 0 1 (staged "A" [add 5] 0%nat 0%nat false)
           (AdaptiveEnvironment_evolve 2%nat 2 pool_heap).1 (Return (2%nat, 2%nat))).
  - reflexivity.
  - reflexivity.
  - intros Hin. rewrite !elem_of_cons, elem_of_nil in Hin. lia.
  - reflexivity.
  - vm_compute. reflexivity.
Defined.

Lemma adaptive_evolve_zero_interval_witness :
  exists h' (e' : @Environment nat),
    AdaptiveEnvironment_evolve 2%nat 3 (weak_pool_heap 0)
      = (h', Raise ZeroDivisionError) /\
    pops h' = pops (weak_pool_heap 0) /\ hists h' = hists (weak_pool_heap 0) /\
    objs h' !! 2%nat = Some e' /\ iteration e' = 0 + 1.
Proof.
  apply (adaptive_evolve_zero_interval 2%nat 3 (weak_pool_heap 0)
           (set_subclass (AdaptiveClass [0%nat; 1%nat] 0 0%nat 0 1)
              (staged "composite" [] 2%nat 2%nat false))
           [0%nat; 1%nat] 0%nat 0 1).
  - reflexivity.
  - reflexivity.
  - apply weak_pool_members_valid.
  - lia.
Defined.

Lemma switch_environment_needs_a_candidate_witness :
  AdaptiveEnvironment_switch_environment 1%nat adaptive_heap
    = (adaptive_heap, Raise IndexError).
Proof.
  apply (switch_environment_needs_a_candidate 1%nat adaptive_heap
           (bare "adaptive" 1%nat 1%nat (AdaptiveClass [0%nat] 10 0%nat 0 0))
           [0%nat] 10 0%nat 0 0 (bare "A" 0%nat 0%nat BaseClass)).
  - reflexivity.
  - reflexivity.
  - reflexivity.
  - reflexivity.
Defined.

Lemma switch_environment_shares_one_population_witness :
  (forall r, r ∈ [0%nat; 1%nat] ->
     exists ee : @Environment nat,
       objs (AdaptiveEnvironment_switch_environment 2%nat pool_heap).1 !! r = Some ee /\
       individuals ee = 0%nat) /\
  exists (e' : @Environment nat) cur' (ce' : @Environment nat),
    objs (AdaptiveEnvironment_switch_environment 2%nat pool_heap).1 !! 2%nat = Some e' /\
    subclass e' = AdaptiveClass [0%nat; 1%nat] 1 cur' 0 1 /\
    objs (AdaptiveEnvironment_switch_environment 2%nat pool_heap).1 !! cur' = Some ce' /\
    individuals ce' = 0%nat.
Proof.
  apply (switch_environment_shares_one_population 2%nat pool_heap
           (set_subclass (AdaptiveClass [0%nat; 1%nat] 1 0%nat 0 1)
              (staged "composite" [] 2%nat 2%nat false))
           [0%nat; 1%nat] 1 0%nat 0 1 (staged "A" [add 5] 0%nat 0%nat false)).
  - reflexivity.
  - reflexivity.
  - reflexivity.
  - vm_compute. reflexivity.
Defined.

Lemma chronological_stage_tracks_the_best_witness :
  exists top (e' : @Environment nat),
    last (hists (ChronologicalEnvironment_evolve_body 2%nat 1 (0%nat, Some 2) relay_heap).1
            !!! 0%nat) = Some top /\
    objs (ChronologicalEnvironment_evolve_body 2%nat 1 (0%nat, Some 2) relay_heap).1
      !! 2%nat = Some e' /\
    subclass e' = ChronologicalClass [(0%nat, Some 2); (1%nat, Some 1)] 3%nat
                    (Some ("A", top)).
Proof.
  apply (chronological_stage_tracks_the_best 2%nat 1 0%nat (Some 2) relay_heap
           (ChronologicalEnvironment_evolve_body 2%nat 1 (0%nat, Some 2) relay_heap).1
           (set_subclass
              (ChronologicalClass [(0%nat, Some 2); (1%nat, Some 1)] 3%nat None)
              (staged "composite" [] 2%nat 2%nat false))
           (staged "A" [add 5] 0%nat 0%nat false)
           [(0%nat, Some 2); (1%nat, Some 1)] 3%nat None).
  - reflexivity.
  - reflexivity.
  - lia.
  - reflexivity.
  - vm_compute. reflexivity.
Defined.

Lemma evolve_again_continues_the_history_witness :
  exists h1 h2 fits1 fits2,
    Environment_evolve 0%nat 1 (growing_heap false)
      = (h1, Return (IndividualsAndHistory 0%nat 0%nat)) /\
    Environment_evolve 0%nat 2 h1
      = (h2, Return (IndividualsAndHistory 0%nat 0%nat)) /\
    hists h2 !!! 0%nat = hists (growing_heap false) !!! 0%nat ++ fits1 ++ fits2 /\
    length fits1 = 1%nat /\ length fits2 = 2%nat.
Proof.
  apply (evolve_again_continues_the_history 0%nat 1 2 (growing_heap false)
           (growing false)).
  - reflexivity.
  - reflexivity.
  - apply grow_never_empties.
Defined.




Lemma adaptive_evolve_returns_own_lists_witness :
  (exists e' : @Environment nat,
     objs (AdaptiveEnvironment_evolve 2%nat 2 pool_heap).1 !! 2%nat = Some e' /\
     individuals e' = 2%nat /\ history e' = 2%nat) /\
  (forall r, r ≠ 0%nat ->
     pops (AdaptiveEnvironment_evolve 2%nat 2 pool_heap).1 !! r = pops pool_heap !! r) /\
  (forall r, r ≠ 0%nat ->
     hists (AdaptiveEnvironment_evolve 2%nat 2 pool_heap).1 !! r = hists pool_heap !! r) /\
  pops (AdaptiveEnvironment_evolve 2%nat 2 pool_heap).1 !! 2%nat = pops pool_heap !! 2%nat /\
  hists (AdaptiveEnvironment_evolve 2%nat 2 pool_heap).1 !! 2%nat = hists pool_heap !! 2%nat.
Proof.
  destruct (adaptive_evolve_returns_own_lists 2%nat 2 pool_heap
              (set_subclass (AdaptiveClass [0%nat; 1%nat] 1 0%nat 0 1)
                 (staged "composite" [] 2%nat 2%nat false))
              [0%nat; 1%nat] 1 0%nat 0 1 (staged "A" [add 5] 0%nat 0%nat false)
              (AdaptiveEnvironment_evolve 2%nat 2 pool_heap).1 (Return (2%nat, 2%nat)))
    as (Hown & _ & Hpops & Hhists & _ & Hp & Hh).
  - reflexivity.
  - reflexivity.
  - intros Hin. rewrite !elem_of_cons, elem_of_nil in Hin. lia.
  - reflexivity.
  - vm_compute. reflexivity.
  - split; [exact Hown|]. split; [exact Hpops|]. split; [exact Hhists|].
    split; [apply Hp|apply Hh]; simpl; lia.
Defined.

(** C10 as stated fails when the composite was compiled with the lists of
    a pool member.  The composite of the example, which is not in its own
    pool, holds the population and the history of its member A.
    [evolve(2)] returns these two lists; the population went from one
    candidate, of fitness 0, to three, of fitness 0, 5 and 8, and the
    history from no entry to [5; 8]: the call has written to the
    population and to the history of the composite, and the pair it returns
    holds the results of the active sub-environment, not what the composite
    held before the call. *)
Lemma adaptive_shared_lists_counterexample :
  exists h',
    AdaptiveEnvironment_evolve 2%nat 2 shared_pool_heap = (h', Return (0%nat, 0%nat)) /\
    individuals <$> objs shared_pool_heap !! 2%nat = Some 0%nat /\
    history <$> objs shared_pool_heap !! 2%nat = Some 0%nat /\
    fitness <$> pops shared_pool_heap !!! 0%nat = [0] /\
    fitness <$> pops h' !!! 0%nat = [0; 5; 8] /\
    hists shared_pool_heap !!! 0%nat = [] /\
    hists h' !!! 0%nat = [5; 8] /\
    pops h' !! 0%nat ≠ pops shared_pool_heap !! 0%nat /\
    hists h' !! 0%nat ≠ hists shared_pool_heap !! 0%nat.
Proof.
  eexists. split; [vm_compute; reflexivity|].
  split; [vm_compute; reflexivity|]. split; [vm_compute; reflexivity|].
  split; [vm_compute; reflexivity|]. split; [vm_compute; reflexivity|].
  split; [vm_compute; reflexivity|]. split; [vm_compute; reflexivity|].
  split; vm_compute; discriminate.
Qed.
